(** * Auto-Programmer: the execution engine, embedded and verified

    A shallow embedding of the execution engine of the Auto-Programmer
    repository:

    - [PyStr], [PyDict]: the Python string and dictionary operations the
      engine relies on;
    - [Builder]: [project_builder.py] (full-replace build, modification build,
      line-range edits); [Paths]: the paths that stay below a directory;
    - [State], [Store]: the snapshot store of [project_state.py], and what is
      read back from it;
    - [Handler]: the per-step attempt loop of [step_handler.py];
    - [Controller]: the dependency scheduler of [workflow_controller.py];
      [Planning]: its dialogue about the project description;
    - [Console]: the questions of [user_interaction.py];
    - [Cleaner]: the cleaning of a reply in [llm_interface.py];
    - [Prompts]: the template directives of [prompt_manager.py].

    All definitions come first; the properties follow in the second half. *)

From Stdlib Require Import ZArith List String Ascii Lia Bool.
From stdpp Require Import base option list sorting gmap strings.

Open Scope string_scope.
Open Scope Z_scope.

(* ===================================================================== *)
(** * Part I: the model                                                   *)
(* ===================================================================== *)

(** ** Python strings

    A Python [str] is represented by its UTF-8 encoding, one [ascii] per
    byte.  The case and whitespace functions below act on the ASCII range;
    bytes of multi-byte characters are left alone.  They are [str.strip]
    and [str.lower] on the texts of that range ([is_ascii]); Python also
    strips the white space beyond it, U+00A0 or U+3000 for one, so a
    statement that depends on what is stripped says which texts it is
    about. *)

Module PyStr.

Definition byte_is (n : nat) (c : ascii) : bool := Nat.eqb (nat_of_ascii c) n.

(** The string ["\n"]. *)
Definition newline : string := String "010"%char "".

(** ["sep".join(parts)] *)
Fixpoint join (sep : string) (parts : list string) : string :=
  match parts with
  | [] => ""
  | x :: rest =>
      match rest with
      | [] => x
      | _ :: _ => x ++ sep ++ join sep rest
      end
  end.

(** One-byte line boundaries of [str.splitlines]:
    LF, VT, FF, FS, GS, RS (CR is handled apart because of CR LF). *)
Definition is_line_break (c : ascii) : bool :=
  byte_is 10 c || byte_is 11 c || byte_is 12 c
  || byte_is 28 c || byte_is 29 c || byte_is 30 c.

Definition flush (cur : string) : list string :=
  match cur with
  | EmptyString => []
  | String _ _ => [cur]
  end.

Definition push (cur : string) (c : ascii) : string := cur ++ String c "".

(** [str.splitlines()] with [cur] the pending, unterminated line.  Besides
    the one-byte boundaries it recognises CR LF, U+0085 (C2 85), U+2028 and
    U+2029 (E2 80 A8, E2 80 A9). *)
Fixpoint splitlines_from (cur : string) (s : string) : list string :=
  match s with
  | EmptyString => flush cur
  | String c rest =>
      if byte_is 13 c then
        match rest with
        | String c2 rest2 =>
            if byte_is 10 c2 then cur :: splitlines_from "" rest2
            else cur :: splitlines_from "" rest
        | EmptyString => cur :: splitlines_from "" rest
        end
      else if is_line_break c then cur :: splitlines_from "" rest
      else if byte_is 194 c then
        match rest with
        | String c2 rest2 =>
            if byte_is 133 c2 then cur :: splitlines_from "" rest2
            else splitlines_from (push cur c) rest
        | EmptyString => splitlines_from (push cur c) rest
        end
      else if byte_is 226 c then
        match rest with
        | String c2 (String c3 rest3) =>
            if byte_is 128 c2 && (byte_is 168 c3 || byte_is 169 c3)
            then cur :: splitlines_from "" rest3
            else splitlines_from (push cur c) rest
        | _ => splitlines_from (push cur c) rest
        end
      else splitlines_from (push cur c) rest
  end.

Definition splitlines (s : string) : list string := splitlines_from "" s.

(** ASCII white space, as [str.isspace] sees it. *)
Definition is_space (c : ascii) : bool :=
  let n := nat_of_ascii c in
  (Nat.leb 9 n && Nat.leb n 13) || (Nat.leb 28 n && Nat.leb n 32).

Fixpoint lstrip_chars (l : list ascii) : list ascii :=
  match l with
  | [] => []
  | c :: rest => if is_space c then lstrip_chars rest else l
  end.

(** [s.strip()] *)
Definition strip (s : string) : string :=
  string_of_list_ascii
    (rev (lstrip_chars (rev (lstrip_chars (list_ascii_of_string s))))).

Definition lower_char (c : ascii) : ascii :=
  let n := nat_of_ascii c in
  if Nat.leb 65 n && Nat.leb n 90 then ascii_of_nat (n + 32) else c.

(** [s.lower()] *)
Fixpoint lower (s : string) : string :=
  match s with
  | EmptyString => EmptyString
  | String c rest => String (lower_char c) (lower rest)
  end.

(** [s.startswith(p)] *)
Definition startswith (s p : string) : bool := String.prefix p s.

(** Splitting a path at ["/"]. *)
Fixpoint split_slash_from (cur : string) (s : string) : list string :=
  match s with
  | EmptyString => [cur]
  | String c rest =>
      if byte_is 47 c then cur :: split_slash_from "" rest
      else split_slash_from (push cur c) rest
  end.

(** The components [pathlib] keeps of a relative POSIX path: empty
    components and ["."] are dropped, [".."] is kept.  File names are told
    apart by their bytes, as on a POSIX file system. *)
Definition path_parts (p : string) : list string :=
  filter (λ c, c ≠ "" ∧ c ≠ ".") (split_slash_from "" p).

(** [Path(p).name] *)
Definition path_name (p : string) : string := List.last (path_parts p) "".

(** The location a path denotes below the directory it is joined to.  It
    is that for a relative path without a component [".."]
    ([Paths.plain_path]): the file system resolves [".."] to the directory
    above, and a path that starts at the root is not joined at all. *)
Definition norm_path (p : string) : string := join "/" (path_parts p).

(** Truthiness of an optional string ([None] and [""] are falsy). *)
Definition truthy (o : option string) : bool :=
  match o with
  | Some (String _ _) => true
  | _ => false
  end.

(** A text of the ASCII range. *)
Definition is_ascii (s : string) : bool :=
  forallb (λ c, Nat.ltb (nat_of_ascii c) 128) (list_ascii_of_string s).

Definition byte_in (lo hi : nat) (c : ascii) : bool :=
  Nat.leb lo (nat_of_ascii c) && Nat.leb (nat_of_ascii c) hi.

(** The bytes of a file that [read_text(encoding='utf-8')] decodes; on the
    others it raises [UnicodeDecodeError].  These are the well-formed
    sequences: one byte up to 7F; C2..DF with one continuation byte;
    E0..EF with two, the first of them from A0 after E0 and up to 9F after
    ED; F0..F4 with three, the first of them from 90 after F0 and up to 8F
    after F4. *)
Fixpoint valid_utf8 (s : string) : bool :=
  match s with
  | EmptyString => true
  | String c rest =>
      if byte_in 0 127 c then valid_utf8 rest
      else if byte_in 194 223 c then
        match rest with
        | String c1 rest1 => byte_in 128 191 c1 && valid_utf8 rest1
        | _ => false
        end
      else if byte_in 224 239 c then
        match rest with
        | String c1 (String c2 rest2) =>
            (if byte_is 224 c then byte_in 160 191 c1
             else if byte_is 237 c then byte_in 128 159 c1
             else byte_in 128 191 c1)
            && byte_in 128 191 c2 && valid_utf8 rest2
        | _ => false
        end
      else if byte_in 240 244 c then
        match rest with
        | String c1 (String c2 (String c3 rest3)) =>
            (if byte_is 240 c then byte_in 144 191 c1
             else if byte_is 244 c then byte_in 128 143 c1
             else byte_in 128 191 c1)
            && byte_in 128 191 c2 && byte_in 128 191 c3 && valid_utf8 rest3
        | _ => false
        end
      else false
  end.

End PyStr.

(** ** Python dictionaries, in insertion order *)

Module PyDict.

Section Dict.
Context {V : Type}.

Definition dict := list (Z * V).

Fixpoint get (k : Z) (d : dict) : option V :=
  match d with
  | [] => None
  | (k', v) :: rest => if Z.eqb k k' then Some v else get k rest
  end.

(** [d[k] = v]: an existing key keeps its position, a new key goes last. *)
Fixpoint set (k : Z) (v : V) (d : dict) : dict :=
  match d with
  | [] => [(k, v)]
  | (k', v') :: rest =>
      if Z.eqb k k' then (k', v) :: rest else (k', v') :: set k v rest
  end.

Definition keys (d : dict) : list Z := map fst d.

End Dict.

Arguments dict : clear implicits.

End PyDict.

(** ** [project_builder.py] *)

Module Builder.

Import PyStr.

(** Values of [json.loads]. *)
#[warnings="-register-all"]
Inductive json :=
| JNull
| JBool (b : bool)
| JNumber (literal : string)
| JString (s : string)
| JArray (items : list json)
| JObject (fields : list (string * json)).

Fixpoint field (k : string) (fields : list (string * json)) : option json :=
  match fields with
  | [] => None
  | (k', v) :: rest => if String.eqb k k' then Some v else field k rest
  end.

(** [json.loads]: [None] stands for [json.JSONDecodeError]. *)
Class JsonParser := json_loads : string → option json.

(** A directory: the text of each file below it, by normalised relative
    path; a directory below it is there through the files it holds.
    File-system failures other than writing to or reading from the
    directory itself are outside the model. *)
Abbreviation tree := (gmap string string).

Record file_info := {
  fi_path : option string;
  fi_content : option string
}.

Record line_diff := {
  start_line : option Z;
  end_line : option Z;
  new_content : option string
}.

Record instruction := {
  ins_type : option string;
  ins_path : option string;
  ins_content : option string;
  ins_diffs : option (list line_diff)
}.

Section WithJson.
Context `{JsonParser}.

Definition _sanitize_requirements_content (file_path_str content : string) : string :=
  if bool_decide (path_name file_path_str ≠ "requirements.txt") then content
  else
    match json_loads content with
    | Some (JObject data) =>
        match field "content" data with
        | Some (JString new_content) => new_content
        | _ => content
        end
    | _ => content
    end.

(** [full_path.parent.mkdir(...); full_path.write_text(content)]:
    [None] when the path names the directory itself.  The file is written
    at the location of the path.  That is what the code does with a plain
    path that meets no file where it needs a directory and no directory
    where it writes the file ([Paths.plain_path], [Paths.apart]); a path
    with [".."] or from the root is written elsewhere, and a file in the
    way of a directory, or a directory in the way of the file, makes the
    code raise. *)
Definition write_text (t : tree) (path content : string) : option tree :=
  match path_parts path with
  | [] => None
  | _ :: _ => Some (<[norm_path path := content]> t)
  end.

(** The [for file_info in files] loop; [false] when a write raised. *)
Fixpoint write_files (files : list file_info) (t : tree) : bool * tree :=
  match files with
  | [] => (true, t)
  | file_info :: rest =>
      if truthy (fi_path file_info) then
        let file_path_str := default "" (fi_path file_info) in
        let content := default "" (fi_content file_info) in
        let sanitized_content := _sanitize_requirements_content file_path_str content in
        match write_text t file_path_str sanitized_content with
        | Some t' => write_files rest t'
        | None => (false, t)
        end
      else write_files rest t
  end.

(** [base_path] is the target directory as found ([None]: absent).  An
    existing one goes through [shutil.rmtree]; either way [mkdir] leaves an
    empty directory before anything is written. *)
Definition build_project_structure (base_path : option tree)
    (files : list file_info) : bool * tree :=
  let emptied : tree :=
    match base_path with
    | Some _ => ∅
    | None => ∅
    end in
  match files with
  | [] => (true, emptied)
  | _ :: _ => write_files files emptied
  end.

Definition sort_key (x : line_diff) : Z := default 0 (start_line x).

(** [sorted(diffs, key=..., reverse=True)]: stable, largest key first. *)
Fixpoint insert_desc (x : line_diff) (l : list line_diff) : list line_diff :=
  match l with
  | [] => [x]
  | y :: rest =>
      if sort_key y <=? sort_key x then x :: y :: rest
      else y :: insert_desc x rest
  end.

Definition sorted_desc (diffs : list line_diff) : list line_diff :=
  foldr insert_desc [] diffs.

(** One iteration of the loop over the sorted edits. *)
Definition apply_diff (lines : list string) (diff : line_diff) : list string :=
  let start_line := default 1 (start_line diff) - 1 in
  let end_line := default (start_line + 1) (end_line diff) in
  let new_content_lines := splitlines (default "" (new_content diff)) in
  if (start_line <? 0) || (end_line >? Z.of_nat (length lines))
     || (start_line >=? end_line)
  then lines
  else take (Z.to_nat start_line) lines ++ new_content_lines
       ++ drop (Z.to_nat end_line) lines.

Definition apply_diffs (lines : list string) (diffs : list line_diff) : list string :=
  fold_left apply_diff (sorted_desc diffs) lines.

(** [None] when reading raised (the path names the directory itself). *)
Definition _apply_line_diffs (t : tree) (file_path : string)
    (diffs : list line_diff) : option tree :=
  match path_parts file_path with
  | [] => None
  | _ :: _ =>
      match t !! norm_path file_path with
      | None =>
          let all_new_content := map (λ diff, default "" (new_content diff)) diffs in
          Some (<[norm_path file_path := join newline all_new_content]> t)
      | Some text =>
          let lines := apply_diffs (splitlines text) diffs in
          Some (<[norm_path file_path := join newline lines]> t)
      end
  end.

(** One instruction of [apply_modifications]; [None] when it raised. *)
Definition apply_instruction (t : tree) (i : instruction) : option tree :=
  if truthy (ins_path i) then
    let rel_path_str := default "" (ins_path i) in
    let content := default "" (ins_content i) in
    let sanitized_content := _sanitize_requirements_content rel_path_str content in
    if bool_decide (ins_type i = Some "replace_file" ∨ ins_type i = Some "new_file")
    then write_text t rel_path_str sanitized_content
    else if bool_decide (ins_type i = Some "line_diff")
    then _apply_line_diffs t rel_path_str (default [] (ins_diffs i))
    else if bool_decide (ins_type i = Some "delete_file")
    then Some (delete (norm_path rel_path_str) t)
    else Some t
  else Some t.

Fixpoint apply_instructions (instructions : list instruction) (t : tree) : bool * tree :=
  match instructions with
  | [] => (true, t)
  | i :: rest =>
      match apply_instruction t i with
      | Some t' => apply_instructions rest t'
      | None => (false, t)
      end
  end.

(** [base_path] and [target_path] are the two directories as found.  The
    target is removed, then copied from the base (or created empty). *)
Definition apply_modifications (base_path target_path : option tree)
    (instructions : list instruction) : bool * tree :=
  let copied : tree := default ∅ base_path in
  apply_instructions instructions copied.

End WithJson.

End Builder.

(** ** The paths that stay below a directory *)

Module Paths.

Import PyStr Builder.
#[local] Open Scope list_scope.

(** A relative path that stays below the directory it is joined to: it
    does not start at the root, none of its components is [".."], and it
    holds no NUL character. *)
Definition plain_path (p : string) : bool :=
  negb (startswith p "/")
  && forallb (λ c, negb (String.eqb c "..")) (split_slash_from "" p)
  && forallb (λ c, negb (byte_is 0 c)) (list_ascii_of_string p).

(** A plain path that names something below the directory. *)
Definition names_a_file (p : string) : bool :=
  plain_path p && bool_decide (path_parts p ≠ []).

(** The location [a] is a directory on the way to the location [b]. *)
Fixpoint above (a b : list string) : bool :=
  match a, b with
  | [], _ :: _ => true
  | x :: a, y :: b => String.eqb x y && above a b
  | _, _ => false
  end.

(** No path of the list has to be a directory for another one to be
    written: writing them all below an empty directory meets no file where
    a directory is needed, and no directory where a file is. *)
Definition apart (paths : list string) : bool :=
  forallb (λ p, forallb (λ q, negb (above (path_parts p) (path_parts q))) paths)
          paths.

(** The paths a file list asks to write, in order. *)
Definition paths_of (files : list file_info) : list string :=
  omap (λ f, if truthy (fi_path f) then fi_path f else None) files.

(** The paths the instructions of a modification build name. *)
Definition paths_named (instructions : list instruction) : list string :=
  omap (λ i, if truthy (ins_path i) then ins_path i else None) instructions.

End Paths.

(** ** [project_state.py]: the snapshot store *)

Module State.

Import PyStr Builder.

(** A task of [task_steps.json]. [dependencies] is
    [step.get('dependencies', [])]. *)
Record step := {
  step_number : Z;
  step_title : string;
  step_type : option string;
  dependencies : list Z
}.

(** The directories of the run's workspace that the engine reads and
    writes, and the project definition as [load_refined_project_description]
    returns it. *)
Record disk := {
  attempts : gmap (Z * Z) tree;
  successful_steps : gmap Z tree;
  latest_successful_code : option tree;
  project_definition : option json
}.

(** What the engine reports through its logger, in order. *)
Inductive event :=
| StepStarted (step_number : Z) (completed_steps : gset Z)
| GeneratorAsked (template : string) (step_number attempt_number : Z)
    (feedback_section : string)
| BuildStarted (step_number attempt_number : Z)
| SnapshotSaved (step_number : Z) (copied : tree)
| LatestUpdated (step_number : Z) (copied : tree).

Definition with_attempts (f : gmap (Z * Z) tree → gmap (Z * Z) tree) (d : disk) : disk :=
  {| attempts := f (attempts d);
     successful_steps := successful_steps d;
     latest_successful_code := latest_successful_code d;
     project_definition := project_definition d |}.

Definition with_successful_steps (f : gmap Z tree → gmap Z tree) (d : disk) : disk :=
  {| attempts := attempts d;
     successful_steps := f (successful_steps d);
     latest_successful_code := latest_successful_code d;
     project_definition := project_definition d |}.

Definition with_latest (t : option tree) (d : disk) : disk :=
  {| attempts := attempts d;
     successful_steps := successful_steps d;
     latest_successful_code := t;
     project_definition := project_definition d |}.

(** [attempt_path.mkdir(parents=True, exist_ok=True)] *)
Definition get_step_attempt_path (step_number attempt_number : Z) (d : disk) : disk :=
  match attempts d !! (step_number, attempt_number) with
  | Some _ => d
  | None => with_attempts (insert (step_number, attempt_number) ∅) d
  end.

(** Writing one file of an attempt directory (the directory is created
    first, as every [save_*] method does). *)
Definition save_attempt_file (step_number attempt_number : Z)
    (name content : string) (d : disk) : disk :=
  with_attempts
    (λ a, <[(step_number, attempt_number) :=
              <[name := content]> (default ∅ (a !! (step_number, attempt_number)))]> a)
    d.

Definition save_step_code_generation_output (step_number attempt_number : Z)
    (code_json : string) : disk → disk :=
  save_attempt_file step_number attempt_number "code_generation_output.json" code_json.

Definition save_user_feedback (step_number attempt_number : Z)
    (feedback : string) : disk → disk :=
  save_attempt_file step_number attempt_number "user_feedback.txt" feedback.

(** [mark_step_as_successful]: the disk and the two log lines it leaves.
    [None] as first component: [shutil.copytree] raised because the attempt
    directory is missing (the old snapshot is removed by then). *)
Definition mark_step_as_successful (step_number : Z)
    (successful_attempt_path : Z * Z) (d : disk) : option (list event) * disk :=
  match attempts d !! successful_attempt_path with
  | None => (None, with_successful_steps (delete step_number) d)
  | Some attempt =>
      let d1 := with_successful_steps (delete step_number) d in
      let d2 := with_successful_steps (insert step_number attempt) d1 in
      let d3 := with_latest None d2 in
      let d4 := with_latest (Some attempt) d3 in
      (Some [SnapshotSaved step_number attempt; LatestUpdated step_number attempt], d4)
  end.

(** Truthiness of a loaded JSON document. *)
Definition json_truthy (o : option json) : bool :=
  match o with
  | None | Some JNull | Some (JBool false) | Some (JString "")
  | Some (JArray []) | Some (JObject []) | Some (JNumber "0") => false
  | Some _ => true
  end.

End State.

(** ** [step_handler.py]: the attempt loop of one step *)

Module Handler.

Import PyStr Builder State.

(** The generator's structured answer: the keys the engine looks at. *)
Record response_dict := {
  r_files : option (list file_info);
  r_modifications : option (list instruction);
  r_usage_guide : option json;
  r_dependency_file : option string;
  r_tests_to_run : option (list string);
  r_main_executable : option string
}.

Inductive llm_response :=
| NotADict
| Dict (d : response_dict).

Definition _validate_initial_code_response (response : llm_response) : bool * string :=
  match response with
  | NotADict => (false, "LLM响应不是一个有效的JSON对象。")
  | Dict d =>
      match r_files d with
      | None => (false, "JSON响应中缺少'files'键。")
      | Some _ =>
          match r_usage_guide d with
          | None => (false, "JSON响应中缺少'usage_guide'对象。")
          | Some _ => (true, "")
          end
      end
  end.

Definition _validate_modification_instructions_response (response : llm_response)
    : bool * string :=
  match response with
  | NotADict => (false, "LLM响应不是一个有效的JSON对象。")
  | Dict d =>
      match r_modifications d with
      | None => (false, "JSON响应中缺少'modifications'键。")
      | Some _ =>
          match r_usage_guide d with
          | None => (false, "JSON响应中缺少'usage_guide'对象。")
          | Some _ => (true, "")
          end
      end
  end.

Definition response_get {A} (f : response_dict → option A) (dflt : A)
    (response : llm_response) : A :=
  match response with
  | NotADict => dflt
  | Dict d => default dflt (f d)
  end.

Definition STANDARD_LIBS : list string :=
  [ "sqlite3"; "os"; "sys"; "json"; "re"; "datetime"; "pathlib"; "logging";
    "threading"; "multiprocessing"; "argparse"; "collections"; "subprocess";
    "shutil"; "glob"; "math"; "random"; "time"; "uuid"; "configparser";
    "hashlib"; "tempfile"; "unittest" ].

(** The comprehension of [_sanitize_dependency_file]. *)
Definition keeps_line (line : string) : bool :=
  negb (String.eqb (strip line) "")
  && negb (existsb (λ lib, startswith (lower (strip line)) lib) STANDARD_LIBS).

(** [_sanitize_dependency_file] on the text of an existing file: the text
    it leaves behind. *)
Definition sanitize_dependency_text (text : string) : string :=
  let lines := splitlines text in
  let sanitized_lines := List.filter keeps_line lines in
  if (length sanitized_lines <? length lines)%nat
  then join newline sanitized_lines ++ newline
  else text.

Definition _sanitize_dependency_file (attempt : tree) (dependency_file_name : string) : tree :=
  match attempt !! norm_path dependency_file_name with
  | None => attempt
  | Some text => <[norm_path dependency_file_name := sanitize_dependency_text text]> attempt
  end.

(** The state the handler runs in: the disk, the log, and the state [E] of
    the collaborators (generator, reviewer, processes, human). *)
Record world (E : Type) := {
  dsk : disk;
  log : list event;
  ext : E
}.
Arguments dsk {E}.
Arguments log {E}.
Arguments ext {E}.

(** What a [StepHandler] is built from.  Collaborators may read the disk;
    those that run on it may also change it.  [ask_generator] is
    [load_and_format_prompt] followed by [generate_response]; [None] is an
    exception of either.  [ask_summary] is the same for the summary prompt;
    [None] is an exception or an answer that is no usable summary. *)
Class StepHandler (E : Type) := {
  max_attempts : Z;
  ask_generator : string → Z → Z → gset Z → string → disk → E → option llm_response * E;
  dump_response : llm_response → string;
  _run_inspection : Z → Z → gset Z → disk → E → (bool * string) * disk * E;
  install_dependencies : Z → Z → string → disk → E → (bool * string) * disk * E;
  run_tests : Z → Z → list string → disk → E → (bool * string) * disk * E;
  prompt_for_manual_execution : Z → Z → disk → E → (string * option string) * disk * E;
  ask_summary : Z → disk → E → option string * E
}.

Section WithHandler.
Context {E : Type} `{JsonParser} `{StepHandler E}.

(** Computations that read and write the world and may raise. *)
Definition M (A : Type) : Type := world E → option A * world E.

#[local] Instance M_ret : MRet M := λ A a w, (Some a, w).

#[local] Instance M_bind : MBind M := λ A B k m w,
  match m w with
  | (Some a, w') => k a w'
  | (None, w') => (None, w')
  end.

Definition ret {A} (a : A) : M A := mret a.

Definition emit (e : event) : M unit :=
  λ w, (Some (), {| dsk := dsk w; log := log w ++ [e]; ext := ext w |}).

Definition on_disk (f : disk → disk) : M unit :=
  λ w, (Some (), {| dsk := f (dsk w); log := log w; ext := ext w |}).

Definition read_disk : M disk := λ w, (Some (dsk w), w).

(** A collaborator that may change the disk. *)
Definition call {A} (f : disk → E → A * disk * E) : M A :=
  λ w, let '(a, d, e) := f (dsk w) (ext w) in
       (Some a, {| dsk := d; log := log w; ext := e |}).

Definition ask (template : string) (step_number attempt_number : Z)
    (completed_steps : gset Z) (feedback_section : string) : M llm_response :=
  λ w, let '(r, e) := ask_generator template step_number attempt_number
                        completed_steps feedback_section (dsk w) (ext w) in
       (r, {| dsk := dsk w; log := log w; ext := e |}).

Definition generate (template : string) (step_number attempt_number : Z)
    (completed_steps : gset Z) (feedback_section : string) : M llm_response :=
  emit (GeneratorAsked template step_number attempt_number feedback_section);;
  ask template step_number attempt_number completed_steps feedback_section.

Definition mark_successful (step_number : Z) (path : Z * Z) : M unit :=
  λ w, let '(r, d) := mark_step_as_successful step_number path (dsk w) in
       match r with
       | Some events => (Some (), {| dsk := d; log := log w ++ events; ext := ext w |})
       | None => (None, {| dsk := d; log := log w; ext := ext w |})
       end.

(** [save_step_summary] is reached only with a usable summary; it writes
    [step_summary.json] into the snapshot directory of the step. *)
Definition _summarize_successful_step (step_number : Z) : M bool :=
  λ w, let '(summary_response, e) := ask_summary step_number (dsk w) (ext w) in
       match summary_response with
       | Some summary =>
           (Some true,
            {| dsk := with_successful_steps
                        (λ s, <[step_number :=
                                  <["step_summary.json" := summary]>
                                    (default ∅ (s !! step_number))]> s)
                        (dsk w);
               log := log w; ext := e |})
       | None => (Some false, {| dsk := dsk w; log := log w; ext := e |})
       end.

Definition _run_unit_tests (step_number attempt_number : Z)
    (tests_to_run : list string) : M (bool * string) :=
  match tests_to_run with
  | [] => ret (true, "")
  | _ :: _ => call (run_tests step_number attempt_number tests_to_run)
  end.

Definition action_result : Type := string * option string.

(** [llm_response.get("dependency_file") or "requirements.txt"] *)
Definition dependency_file_of (llm_response : llm_response) : string :=
  match llm_response with
  | Dict d => if truthy (r_dependency_file d)
              then default "" (r_dependency_file d) else "requirements.txt"
  | NotADict => "requirements.txt"
  end.

(** The dependency block of [_build_and_verify]: the manifest of the
    attempt, if there is one, is sanitized and, unless it is empty then,
    installed.  The result is the feedback of a failed install.  The
    manifest is looked up as a file of the attempt; a name that stands for
    a directory there is outside the model. *)
Definition install_gate (step_number attempt_number : Z)
    (llm_response : llm_response) : M (option string) :=
  let dependency_file_name := dependency_file_of llm_response in
  d ← read_disk;
  match attempts d !! (step_number, attempt_number)
          ≫= (λ t, t !! norm_path dependency_file_name) with
  | Some text =>
      on_disk (with_attempts (λ a,
        match a !! (step_number, attempt_number) with
        | Some t => <[(step_number, attempt_number) :=
                        _sanitize_dependency_file t dependency_file_name]> a
        | None => a
        end));;
      if bool_decide (sanitize_dependency_text text ≠ "")
      then
        '(install_success, stderr) ←
           call (install_dependencies step_number attempt_number dependency_file_name);
        if negb install_success
        then ret (Some ("依赖安装失败。请修正 `" ++ dependency_file_name
                        ++ "`。错误日志:" ++ newline ++ "---" ++ newline
                        ++ stderr ++ newline ++ "---"))
        else ret None
      else ret None
  | None => ret None
  end.

(** The [if action == 'success'] block of [_build_and_verify]. *)
Definition accept (step_number attempt_number : Z)
    (llm_response : llm_response) : M action_result :=
  mark_successful step_number (step_number, attempt_number);;
  _ ← _summarize_successful_step step_number;
  ret ("success",
       match llm_response with
       | Dict d => r_main_executable d
       | NotADict => None
       end).

(** The project workspace is set throughout the execution phase, so the
    check for it never fires. *)
Definition _build_and_verify (step_number attempt_number : Z)
    (llm_response : llm_response) (completed_steps : gset Z) : M action_result :=
  '(is_approved, inspector_feedback) ←
      call (_run_inspection step_number attempt_number completed_steps);
  if negb is_approved
  then ret ("failure", Some ("【代码检察员反馈】:" ++ newline ++ inspector_feedback))
  else
    installed ← install_gate step_number attempt_number llm_response;
    match installed with
    | Some ai_feedback => ret ("failure", Some ai_feedback)
    | None =>
        let tests_to_run := response_get r_tests_to_run [] llm_response in
        '(tests_passed, test_feedback) ←
           _run_unit_tests step_number attempt_number tests_to_run;
        if negb tests_passed then ret ("failure", Some test_feedback)
        else
          '(action, feedback) ←
             call (prompt_for_manual_execution step_number attempt_number);
          if String.eqb action "success"
          then accept step_number attempt_number llm_response
          else if truthy feedback then
            on_disk (save_user_feedback step_number attempt_number (default "" feedback));;
            ret ("failure", Some ("【用户反馈】:" ++ newline ++ default "" feedback))
          else ret (action, None)
    end.

(** What one pass through the body of the [while] loop decides. *)
Inductive flow :=
| Continue (cumulative_feedback : list string)
| Return (r : action_result).

Definition after_verify (cumulative_feedback : list string) (r : action_result) : flow :=
  let '(action, result_payload) := r in
  if String.eqb action "success" then Return ("success", result_payload)
  else if String.eqb action "failure" && truthy result_payload
  then Continue (cumulative_feedback ++ [default "" result_payload])
  else Return (action, result_payload).

Definition initial_feedback_header : string :=
  "你之前的尝试失败了。请分析下面的失败历史，修正你的代码..." ++ newline ++ newline.

Definition modification_feedback_header : string :=
  "你之前的尝试失败了。请分析下面的失败历史..." ++ newline ++ newline.

Definition feedback_delimiter : string := newline ++ "---" ++ newline.

Definition feedback_section_of (header : string) (cumulative_feedback : list string) : string :=
  match cumulative_feedback with
  | [] => ""
  | _ :: _ => header ++ join feedback_delimiter cumulative_feedback
  end.

(** The [try] block of [_execute_initial_generation_step]. *)
Definition initial_attempt (step_number attempt_number : Z)
    (cumulative_feedback : list string) : M flow :=
  let feedback_section := feedback_section_of initial_feedback_header cumulative_feedback in
  llm_response ← generate "code_generation_step1" step_number attempt_number ∅ feedback_section;
  let '(is_valid, error_msg) := _validate_initial_code_response llm_response in
  if negb is_valid
  then ret (Continue (cumulative_feedback ++ ["JSON格式错误: " ++ error_msg]))
  else
    on_disk (get_step_attempt_path step_number attempt_number);;
    on_disk (save_step_code_generation_output step_number attempt_number
               (dump_response llm_response));;
    emit (BuildStarted step_number attempt_number);;
    d ← read_disk;
    let '(build_success, built) :=
      build_project_structure (attempts d !! (step_number, attempt_number))
        (response_get r_files [] llm_response) in
    on_disk (with_attempts (insert (step_number, attempt_number) built));;
    if negb build_success
    then ret (Continue (cumulative_feedback ++ ["无法根据你返回的JSON构建项目文件结构。"]))
    else
      r ← _build_and_verify step_number attempt_number llm_response ∅;
      ret (after_verify cumulative_feedback r).

(** The [try] block of [_execute_modification_step]. *)
Definition modification_attempt (step_number : Z) (completed_steps : gset Z)
    (attempt_number : Z) (cumulative_feedback : list string) : M flow :=
  let feedback_section := feedback_section_of modification_feedback_header cumulative_feedback in
  modification_instructions ←
    generate "code_modification" step_number attempt_number completed_steps feedback_section;
  let '(is_valid, error_msg) :=
    _validate_modification_instructions_response modification_instructions in
  if negb is_valid
  then ret (Continue (cumulative_feedback ++ ["JSON格式错误: " ++ error_msg]))
  else
    on_disk (get_step_attempt_path step_number attempt_number);;
    on_disk (save_step_code_generation_output step_number attempt_number
               (dump_response modification_instructions));;
    emit (BuildStarted step_number attempt_number);;
    d ← read_disk;
    let '(build_success, built) :=
      apply_modifications (latest_successful_code d)
        (attempts d !! (step_number, attempt_number))
        (response_get r_modifications [] modification_instructions) in
    on_disk (with_attempts (insert (step_number, attempt_number) built));;
    if negb build_success
    then ret (Continue (cumulative_feedback ++ ["应用你提供的修改指令失败。"]))
    else
      r ← _build_and_verify step_number attempt_number modification_instructions
            completed_steps;
      ret (after_verify cumulative_feedback r).

(** [while attempt_number < self.max_attempts]: [remaining] is
    [max_attempts - attempt_number]; an exception in the body ends the step
    as aborted. *)
Fixpoint attempt_loop (body : Z → list string → M flow) (remaining : nat)
    (attempt_number : Z) (cumulative_feedback : list string)
    (w : world E) : action_result * world E :=
  match remaining with
  | O => (("aborted", None), w)
  | S remaining' =>
      let attempt_number := attempt_number + 1 in
      match body attempt_number cumulative_feedback w with
      | (None, w') => (("aborted", None), w')
      | (Some (Return r), w') => (r, w')
      | (Some (Continue cumulative_feedback'), w') =>
          attempt_loop body remaining' attempt_number cumulative_feedback' w'
      end
  end.

Definition _execute_initial_generation_step (step_number : Z) (step_task : step)
    (w : world E) : action_result * world E :=
  if negb (json_truthy (project_definition (dsk w))) then (("aborted", None), w)
  else attempt_loop (initial_attempt step_number) (Z.to_nat max_attempts) 0 [] w.

(** The guard is [all([project_definition, step_task, base_code_path,
    last_step_code_json is not None])]: a step record is a non-empty
    dictionary, the path is there when the latest tree is, and the tree is
    read back as [None] only when reading the directory fails, which is
    outside the model. *)
Definition _execute_modification_step (step_number : Z) (step_task : step)
    (completed_steps : gset Z) (w : world E) : action_result * world E :=
  if negb (json_truthy (project_definition (dsk w))
           && bool_decide (is_Some (latest_successful_code (dsk w))))
  then (("aborted", None), w)
  else attempt_loop (modification_attempt step_number completed_steps)
         (Z.to_nat max_attempts) 0 [] w.

Definition execute_step (step_number : Z) (step_task : step)
    (completed_steps : gset Z) (w : world E) : action_result * world E :=
  let w := {| dsk := dsk w;
              log := log w ++ [StepStarted step_number completed_steps];
              ext := ext w |} in
  if bool_decide (dependencies step_task = [])
     && String.eqb (default "feature_development" (step_type step_task))
          "feature_development"
  then _execute_initial_generation_step step_number step_task w
  else _execute_modification_step step_number step_task completed_steps w.

End WithHandler.

End Handler.

(** ** [workflow_controller.py]: the dependency scheduler *)

Module Controller.

Import PyDict State.
#[local] Open Scope list_scope.

(** How [run_steps_execution_phase] ends.  [KeyError] is a failed dictionary
    lookup and [OutOfFuel] an unfinished loop; neither is ever reached. *)
Inductive outcome :=
| NoSteps
| DanglingDependency (step_num dep_num : Z)
| Terminated (result : string) (step_number : Z) (some_completed : bool)
| AllCompleted
| ScheduleIncomplete (completed total : nat)
| KeyError
| OutOfFuel.

(** The boolean the Python method returns. *)
Definition returns (o : outcome) : bool :=
  match o with
  | NoSteps | AllCompleted => true
  | Terminated _ _ some_completed => some_completed
  | _ => false
  end.

(** [{step['step_number']: step for step in tasks_data['steps']}] *)
Definition steps_dict (steps : list step) : dict step :=
  fold_left (λ d s, set (step_number s) s d) steps [].

(** [for dep_num in dependencies]: the missing dependency, or the updated
    adjacency lists. *)
Fixpoint add_dependents (step_num : Z) (deps : list Z) (adj_list : dict (list Z))
    : Z + dict (list Z) :=
  match deps with
  | [] => inr adj_list
  | dep_num :: rest =>
      match get dep_num adj_list with
      | Some dependents =>
          add_dependents step_num rest (set dep_num (dependents ++ [step_num]) adj_list)
      | None => inl dep_num
      end
  end.

(** [for step_num, step_data in steps.items()] *)
Fixpoint build_graph (items : list (Z * step)) (adj_list : dict (list Z))
    (in_degree : dict Z) : (Z * Z) + (dict (list Z) * dict Z) :=
  match items with
  | [] => inr (adj_list, in_degree)
  | (step_num, step_data) :: rest =>
      let in_degree := set step_num (Z.of_nat (length (dependencies step_data))) in_degree in
      match add_dependents step_num (dependencies step_data) adj_list with
      | inl dep_num => inl (step_num, dep_num)
      | inr adj_list => build_graph rest adj_list in_degree
      end
  end.

(** [for dependent_step_num in adj_list[step_number]] *)
Fixpoint release (dependents : list Z) (in_degree : dict Z) (queue : list Z)
    : option (dict Z * list Z) :=
  match dependents with
  | [] => Some (in_degree, queue)
  | dependent_step_num :: rest =>
      match get dependent_step_num in_degree with
      | None => None
      | Some n =>
          let in_degree := set dependent_step_num (n - 1) in_degree in
          if n - 1 =? 0 then release rest in_degree (queue ++ [dependent_step_num])
          else release rest in_degree queue
      end
  end.

(** One call of [execute_step]: the step, the completed set it was given,
    and the result it returned. *)
Record call := {
  called : Z;
  given : gset Z;
  returned : string
}.

Section Scheduler.
Context {W : Type}.
Variable execute_step : Z → step → gset Z → W → (string * option string) * W.

(** The variables of the loop, and [started]: the calls of [execute_step]
    so far, in order. *)
Record sched := {
  queue : list Z;
  completed_steps : gset Z;
  in_degree : dict Z;
  last_main_executable : option string;
  surroundings : W;
  started : list call
}.

(** [while queue] *)
Fixpoint run_queue (fuel : nat) (steps : dict step) (adj_list : dict (list Z))
    (total_steps : nat) (s : sched) : outcome * sched :=
  match fuel with
  | O => (OutOfFuel, s)
  | S fuel =>
      match queue s with
      | [] =>
          (if bool_decide (size (completed_steps s) = total_steps)
           then AllCompleted
           else ScheduleIncomplete (size (completed_steps s)) total_steps, s)
      | step_number :: queue' =>
          match get step_number steps with
          | None => (KeyError, s)
          | Some step_task =>
              let '(result, main_executable, w) :=
                execute_step step_number step_task (completed_steps s) (surroundings s) in
              let started' :=
                started s ++ [{| called := step_number;
                                 given := completed_steps s;
                                 returned := result |}] in
              if String.eqb result "success" then
                let completed' := {[step_number]} ∪ completed_steps s in
                let last' := if PyStr.truthy main_executable then main_executable
                             else last_main_executable s in
                match get step_number adj_list with
                | None => (KeyError, s)
                | Some dependents =>
                    match release dependents (in_degree s) queue' with
                    | None => (KeyError, s)
                    | Some (in_degree', queue'') =>
                        run_queue fuel steps adj_list total_steps
                          {| queue := queue''; completed_steps := completed';
                             in_degree := in_degree'; last_main_executable := last';
                             surroundings := w; started := started' |}
                    end
                end
              else if String.eqb result "aborted" || String.eqb result "skipped" then
                (Terminated result step_number
                   (bool_decide (0 < size (completed_steps s))%nat),
                 {| queue := queue'; completed_steps := completed_steps s;
                    in_degree := in_degree s;
                    last_main_executable := last_main_executable s;
                    surroundings := w; started := started' |})
              else
                run_queue fuel steps adj_list total_steps
                  {| queue := queue'; completed_steps := completed_steps s;
                     in_degree := in_degree s;
                     last_main_executable := last_main_executable s;
                     surroundings := w; started := started' |}
          end
      end
  end.

Definition initial_sched (in_degree : dict Z) (w : W) : sched :=
  {| queue := map fst (List.filter (λ '(_, degree), degree =? 0) in_degree);
     completed_steps := ∅;
     in_degree := in_degree;
     last_main_executable := None;
     surroundings := w;
     started := [] |}.

(** [run_steps_execution_phase], from the loaded task list on, once the
    environment is set up.  Each pass of the loop starts a step that was
    not started before, so one more pass than there are steps is enough. *)
Definition run_steps_execution_phase (tasks : list step) (w : W) : outcome * sched :=
  match tasks with
  | [] => (NoSteps, initial_sched [] w)
  | _ :: _ =>
      let steps := steps_dict tasks in
      let adj_list : dict (list Z) := map (λ '(step_num, _), (step_num, [])) steps in
      let in_degree : dict Z := map (λ '(step_num, _), (step_num, 0)) steps in
      match build_graph steps adj_list in_degree with
      | inl (step_num, dep_num) =>
          (DanglingDependency step_num dep_num, initial_sched in_degree w)
      | inr (adj_list, in_degree) =>
          run_queue (S (length steps)) steps adj_list (length steps)
            (initial_sched in_degree w)
      end
  end.

End Scheduler.

End Controller.

(** ** Reference descriptions, in the words of the specification *)

Module Reference.

Import PyStr Builder.

(** The first and last line (counted from 1, both included) that an edit
    names. *)
Definition first_line (d : line_diff) : Z := default 1 (start_line d).
Definition last_line (d : line_diff) : Z := default (first_line d) (end_line d).

(** Applying one edit on its own: lines [first_line .. last_line] give way
    to the replacement lines. *)
Definition replace_range (lines : list string) (d : line_diff) : list string :=
  take (Z.to_nat (first_line d - 1)) lines
  ++ splitlines (default "" (new_content d))
  ++ drop (Z.to_nat (last_line d)) lines.

(** Applying edits one at a time, in the order given. *)
Definition one_at_a_time (lines : list string) (edits : list line_diff) : list string :=
  fold_left replace_range edits lines.

(** Edits in ascending order with pairwise disjoint ranges, all above line
    [lo] and within a file of [n] lines. *)
Fixpoint disjoint_ascending (lo n : Z) (edits : list line_diff) : Prop :=
  match edits with
  | [] => True
  | d :: rest =>
      lo < first_line d ∧ first_line d ≤ last_line d ∧ last_line d ≤ n
      ∧ disjoint_ascending (last_line d) n rest
  end.

(** An edit that cannot be applied to a file of [n] lines: it starts below
    line 1 or beyond the last line, ends beyond the last line, or ends
    before it starts. *)
Definition unusable (n : Z) (d : line_diff) : Prop :=
  first_line d < 1 ∨ n < first_line d ∨ n < last_line d
  ∨ last_line d < first_line d.

(** The order of the keys the builder sorts by. *)
Definition key_lt (a b : line_diff) : Prop := sort_key a < sort_key b.

End Reference.

(** ** Task graphs and the state of the scheduling loop, as properties *)

Module Graph.

Import PyDict State Controller.
#[local] Open Scope list_scope.

(** Step [a] lists step [b] among its dependencies. *)
Definition depends_on (steps : dict step) (a b : Z) : Prop :=
  ∃ task, get a steps = Some task ∧ b ∈ dependencies task.

(** Step [x] depends on itself, directly or through other steps. *)
Definition on_cycle (steps : dict step) (x : Z) : Prop :=
  tc (depends_on steps) x x.

(** Every dependency that is referred to is a step of the mapping. *)
Definition no_dangling (steps : dict step) : Prop :=
  ∀ t task d, get t steps = Some task → d ∈ dependencies task → d ∈ keys steps.

(** The same, as a check that computes. *)
Definition no_dangling_b (steps : dict step) : bool :=
  forallb (λ '(_, task),
             forallb (λ d, existsb (Z.eqb d) (keys steps)) (dependencies task))
          steps.

(** Every dependency has a smaller number than the step that names it. *)
Definition dependencies_below_b (steps : dict step) : bool :=
  forallb (λ '(k, task), forallb (λ d, d <? k) (dependencies task)) steps.

(** What the adjacency list of [k] holds once the graph is built: each
    step, once for each time it names [k]. *)
Definition dependents_of (k : Z) (items : list (Z * step)) : list Z :=
  flat_map (λ '(t, task), repeat t (count_occ Z.eq_dec (dependencies task) k)) items.

(** How many entries of a dependency list are not completed yet. *)
Definition pending (completed : gset Z) (deps : list Z) : nat :=
  length (filter (λ d, d ∉ completed) deps).

Section Walk.
Variable Rel : Z → Z → Prop.

(** A walk, latest element first: each element is related to the one
    before it in time. *)
Fixpoint walk (l : list Z) : Prop :=
  match l with
  | b :: rest =>
      match rest with
      | a :: _ => Rel a b ∧ walk rest
      | [] => True
      end
  | [] => True
  end.

End Walk.

(** The steps called so far, in order. *)
Definition ids {W} (s : @sched W) : list Z := called <$> started s.

(** The property of the surroundings that says nothing. *)
Definition anything {W} : W → gset Z → Prop := λ _ _, True.

Section Loop.
Context {W : Type}.
Variable steps : dict step.
Variable total_steps : nat.

(** A property of the surroundings and the completed set that every call
    of [execute_step] maintains. *)
Variable R : W → gset Z → Prop.

(** The invariant of the loop. *)
Record Inv (s : sched) : Prop := {
  inv_keys : keys (in_degree s) = keys steps;
  inv_degree : ∀ t task,
    get t steps = Some task →
    get t (in_degree s)
    = Some (Z.of_nat (pending (completed_steps s) (dependencies task)));
  inv_nodup : NoDup ((called <$> started s) ++ queue s);
  inv_known : ∀ t, t ∈ (called <$> started s) ++ queue s → t ∈ keys steps;
  inv_ready : ∀ t task,
    get t steps = Some task →
    (t ∈ (called <$> started s) ++ queue s
     ↔ pending (completed_steps s) (dependencies task) = O);
  inv_completed : ∀ n,
    n ∈ completed_steps s
    ↔ ∃ c, c ∈ started s ∧ called c = n ∧ returned c = "success";
  inv_deps : ∀ c task,
    c ∈ started s → get (called c) steps = Some task →
    ∀ d, d ∈ dependencies task → d ∈ given c;
  inv_before : ∀ i c x,
    started s !! i = Some c → x ∈ given c →
    ∃ j c', (j < i)%nat ∧ started s !! j = Some c' ∧ called c' = x;
  inv_world : R (surroundings s) (completed_steps s)
}.

(** What holds when the loop has ended. *)
Definition Post (o : outcome) (sf : sched) : Prop :=
  Inv sf ∧
  match o with
  | AllCompleted => queue sf = [] ∧ size (completed_steps sf) = total_steps
  | ScheduleIncomplete c t =>
      queue sf = [] ∧ c = size (completed_steps sf) ∧ t = total_steps ∧ c ≠ t
  | Terminated r n b =>
      (∃ c, c ∈ started sf ∧ called c = n ∧ returned c = r)
      ∧ (r = "aborted" ∨ r = "skipped")
  | _ => False
  end.

End Loop.

Arguments inv_keys {W steps R} s _.
Arguments inv_degree {W steps R} s _.
Arguments inv_nodup {W steps R} s _.
Arguments inv_known {W steps R} s _.
Arguments inv_ready {W steps R} s _.
Arguments inv_completed {W steps R} s _.
Arguments inv_deps {W steps R} s _.
Arguments inv_before {W steps R} s _.
Arguments inv_world {W steps R} s _.

End Graph.

(** ** What the log of a step and of a run says *)

Module Logs.

Import PyDict PyStr Builder State Handler.
#[local] Open Scope list_scope.

(** Both copies of the acceptance of step [n] are reported, for one and the
    same tree. *)
Definition accepted (n : Z) (more : list event) : Prop :=
  ∃ tree, SnapshotSaved n tree ∈ more ∧ LatestUpdated n tree ∈ more.

(** No step starts. *)
Definition no_start (more : list event) : Prop :=
  ∀ d c, StepStarted d c ∉ more.

(** In a stretch of the log, every start of a step comes after the
    acceptance of each of its dependencies. *)
Definition ordered (steps : dict step) (more : list event) : Prop :=
  ∀ l1 d c l2 task t,
    more = l1 ++ StepStarted d c :: l2 →
    get d steps = Some task → t ∈ dependencies task → accepted t l1.

(** The feedback recorded for an answer that fails validation. *)
Definition violation (m : string) : Prop :=
  ∃ resp, (_validate_initial_code_response resp).1 = false
          ∧ m = "JSON格式错误: " +:+ (_validate_initial_code_response resp).2.

Section WithWorld.
Context {E : Type}.

(** [wp m w Ψ]: running [m] in world [w] ends in a result and a world
    that satisfy [Ψ]. *)
Definition wp {A} (m : M A) (w : world E) (Ψ : option A → world E → Prop) : Prop :=
  Ψ (m w).1 (m w).2.

(** A computation that leaves the log alone. *)
Definition silent {A} (m : @M E A) : Prop := ∀ w, log (m w).2 = log w.

(** What [_build_and_verify] leaves behind, [L] being the log it started
    with: nothing in the log and no success, or the two lines of
    [mark_step_as_successful] for a tree that is then the latest tree, the
    tree of the attempt, and the snapshot of the step (to which the summary
    may have been added). *)
Definition verified (n a : Z) (L : list event) (o : option action_result)
    (w' : world E) : Prop :=
  (log w' = L ∧ ∀ p, o ≠ Some ("success", p))
  ∨ (∃ tree p, o = Some ("success", p)
       ∧ log w' = L ++ [SnapshotSaved n tree; LatestUpdated n tree]
       ∧ latest_successful_code (dsk w') = Some tree
       ∧ attempts (dsk w') !! (n, a) = Some tree
       ∧ (successful_steps (dsk w') !! n = Some tree
          ∨ ∃ summary, successful_steps (dsk w') !! n
                       = Some (<["step_summary.json" := summary]> tree))).

(** What one attempt adds to the log: no start of a step, and the two
    lines of the acceptance if it returns success. *)
Definition attempt_logged (n : Z) (L : list event) (o : option flow)
    (w' : world E) : Prop :=
  ∃ more, log w' = L ++ more ∧ no_start more
          ∧ ∀ p, o = Some (Return ("success", p)) → accepted n more.

(** The log since [w0] is ordered and holds the acceptance of every
    completed step. *)
Definition log_ok (w0 : world E) (steps : dict step) (w' : world E)
    (completed : gset Z) : Prop :=
  ∃ more, log w' = log w0 ++ more ∧ ordered steps more
          ∧ ∀ t, t ∈ completed → accepted t more.

End WithWorld.

End Logs.

(** ** An attempt that gets through the checks *)

Module Accepting.

Import PyStr Builder State Handler.
#[local] Open Scope list_scope.

Section WithHandler.
Context {E : Type} `{StepHandler E}.

(** A collaborator that does not remove the directory of attempt [a] of
    step [n]. *)
Definition leaves_attempt {A} (n a : Z) (f : disk → E → A * disk * E) : Prop :=
  ∀ d e, is_Some (attempts d !! (n, a)) → is_Some (attempts (f d e).1.2 !! (n, a)).

(** An answer that the manual gate can show: a dictionary whose usage
    guide, if it has one, is a dictionary too. *)
Definition presentable (r : llm_response) : Prop :=
  match r with
  | Dict d =>
      match r_usage_guide d with
      | None | Some (JObject _) => True
      | Some _ => False
      end
  | NotADict => False
  end.

(** Attempt [a] of step [n] gets through: the inspection approves, the
    install and the tests pass, the person answers that the step works, and
    the directory of the attempt stays in place meanwhile. *)
Definition gets_through (n a : Z) (c : gset Z) : Prop :=
  (∀ d e, (_run_inspection n a c d e).1.1.1 = true)
  ∧ (∀ name d e, (install_dependencies n a name d e).1.1.1 = true)
  ∧ (∀ tests d e, (run_tests n a tests d e).1.1.1 = true)
  ∧ (∀ d e, (prompt_for_manual_execution n a d e).1.1.1 = "success")
  ∧ leaves_attempt n a (_run_inspection n a c)
  ∧ (∀ name, leaves_attempt n a (install_dependencies n a name))
  ∧ (∀ tests, leaves_attempt n a (run_tests n a tests))
  ∧ leaves_attempt n a (prompt_for_manual_execution n a).

End WithHandler.

End Accepting.

(** ** Small inputs for the examples *)

Module Examples.

Import PyStr Builder State Handler.
#[local] Open Scope list_scope.

Definition edit (first last : Z) (replacement : string) : line_diff :=
  {| start_line := Some first; end_line := Some last;
     new_content := Some replacement |}.

Definition ten_lines : string :=
  join newline ["1"; "2"; "3"; "4"; "5"; "6"; "7"; "8"; "9"; "10"].

Definition task (n : Z) (deps : list Z) : step :=
  {| step_number := n; step_title := ""; step_type := None; dependencies := deps |}.

(** A step handler that answers the same to every call. *)
Definition always (result : string)
    : Z → step → gset Z → unit → (string * option string) * unit :=
  λ _ _ _ w, ((result, None), w).

Definition never_parses : JsonParser := λ _, None.

Definition hello : llm_response :=
  Dict {| r_files := Some [{| fi_path := Some "main.py";
                              fi_content := Some "print('hello')" |}];
          r_modifications := Some [];
          r_usage_guide := Some (JObject [("command", JString "python main.py")]);
          r_dependency_file := None;
          r_tests_to_run := None;
          r_main_executable := Some "main.py" |}.

(** Collaborators that agree to everything, around a generator that always
    gives [answer]. *)
Definition agreeable (answer : llm_response) : StepHandler unit :=
  {| max_attempts := 3;
     ask_generator := λ _ _ _ _ _ _ e, (Some answer, e);
     dump_response := λ _, "";
     _run_inspection := λ _ _ _ d e, ((true, ""), d, e);
     install_dependencies := λ _ _ _ d e, ((true, ""), d, e);
     run_tests := λ _ _ _ d e, ((true, ""), d, e);
     prompt_for_manual_execution := λ _ _ d e, (("success", None), d, e);
     ask_summary := λ _ _ e, (None, e) |}.

(** The collaborators of [agreeable], with a summary for every accepted
    step. *)
Definition summarizing (answer : llm_response) (summary : string) : StepHandler unit :=
  {| max_attempts := 3;
     ask_generator := λ _ _ _ _ _ _ e, (Some answer, e);
     dump_response := λ _, "";
     _run_inspection := λ _ _ _ d e, ((true, ""), d, e);
     install_dependencies := λ _ _ _ d e, ((true, ""), d, e);
     run_tests := λ _ _ _ d e, ((true, ""), d, e);
     prompt_for_manual_execution := λ _ _ d e, (("success", None), d, e);
     ask_summary := λ _ _ e, (Some summary, e) |}.

(** The collaborators of [agreeable], with a person who finds that no
    attempt works. *)
Definition reluctant (answer : llm_response) : StepHandler unit :=
  {| max_attempts := 3;
     ask_generator := λ _ _ _ _ _ _ e, (Some answer, e);
     dump_response := λ _, "";
     _run_inspection := λ _ _ _ d e, ((true, ""), d, e);
     install_dependencies := λ _ _ _ d e, ((true, ""), d, e);
     run_tests := λ _ _ _ d e, ((true, ""), d, e);
     prompt_for_manual_execution := λ _ _ d e, (("failure", Some "it prints nothing"), d, e);
     ask_summary := λ _ _ e, (None, e) |}.

Definition fresh_world : world unit :=
  {| dsk := {| attempts := ∅;
               successful_steps := ∅;
               latest_successful_code := Some ∅;
               project_definition := Some (JObject [("project_name", JString "demo")]) |};
     log := [];
     ext := () |}.

End Examples.

(** ** [project_state.py]: what is read back from the workspace *)

Module Store.

Import PyStr Builder State.
#[local] Open Scope list_scope.

(** [get_task_for_step], on the loaded list of steps: the first one that
    carries the number. *)
Fixpoint get_task_for_step (steps : list step) (step_number : Z) : option step :=
  match steps with
  | [] => None
  | task :: rest =>
      if Z.eqb (State.step_number task) step_number then Some task
      else get_task_for_step rest step_number
  end.

(** The names [_read_directory_to_json] leaves out. *)
Definition METADATA_FILENAMES : list string :=
  [ "step_summary.json"; "inspector_feedback.txt"; "user_feedback.txt";
    "code_generation_output.json"; "execution_stdout.txt";
    "execution_stderr.txt"; "execution_result.json"; "install_log.txt";
    "error_summary.txt" ].

(** The order of [pathlib] paths: that of their lists of components. *)
Fixpoint parts_le (a b : list string) : bool :=
  match a, b with
  | [], _ => true
  | _ :: _, [] => false
  | x :: a', y :: b' => if String.eqb x y then parts_le a' b' else String.ltb x y
  end.

Definition path_le (p q : string) : bool := parts_le (path_parts p) (path_parts q).

(** [sorted(list(dir_path.glob('**/*')))], for the files. *)
Fixpoint insert_path (x : string * string) (l : list (string * string))
    : list (string * string) :=
  match l with
  | [] => [x]
  | y :: rest => if path_le x.1 y.1 then x :: l else y :: insert_path x rest
  end.

Definition sorted_files (t : tree) : list (string * string) :=
  foldr insert_path [] (map_to_list t).

(** [s.replace('\\', '/')] *)
Fixpoint replace_backslash (s : string) : string :=
  match s with
  | EmptyString => EmptyString
  | String c rest =>
      String (if byte_is 92 c then "/"%char else c) (replace_backslash rest)
  end.

Definition is_metadata (p : string) : bool :=
  existsb (String.eqb (path_name p)) METADATA_FILENAMES.

(** What [read_text] hands over of a file's text: a carriage return with
    the line feed after it, or one on its own, is read as a line feed. *)
Fixpoint universal_newlines (s : string) : string :=
  match s with
  | EmptyString => EmptyString
  | String c rest =>
      if byte_is 13 c then
        match rest with
        | String c' rest' =>
            if byte_is 10 c' then String c' (universal_newlines rest')
            else String "010"%char (universal_newlines rest)
        | EmptyString => String "010"%char EmptyString
        end
      else String c (universal_newlines rest)
  end.

(** The ["files"] list of [_read_directory_to_json]; [None] is a path that
    is no directory.  A file whose bytes [read_text] does not decode is
    passed over, by the [except] clause of the loop. *)
Definition _read_directory_to_json (dir_path : option tree) : list file_info :=
  match dir_path with
  | None => []
  | Some t =>
      map (λ '(p, content), {| fi_path := Some (replace_backslash p);
                               fi_content := Some (universal_newlines content) |})
          (List.filter (λ '(p, content), negb (is_metadata p) && valid_utf8 content)
             (sorted_files t))
  end.

End Store.

(** ** [user_interaction.py]: what is asked at the terminal *)

Module Console.

Import PyStr.
#[local] Open Scope list_scope.

(** What the person at the terminal types, line by line.  [input()] takes
    the next line; at the end of the input it raises [EOFError], which is
    [None] below.  What is printed is left out. *)
Definition typed : Type := list string.

(** The loop [while True: line = input(); if line.strip().lower() ==
    'done': break; lines.append(line)]. *)
Fixpoint read_until_done (inputs : typed) (lines : list string)
    : option (list string * typed) :=
  match inputs with
  | [] => None
  | line :: rest =>
      if String.eqb (lower (strip line)) "done" then Some (lines, rest)
      else read_until_done rest (lines ++ [line])
  end.

Definition no_feedback_given : string :=
  "用户报告程序执行失败，但未提供具体的错误信息或描述。".

(** [prompt_for_manual_execution], from its first question on: its
    arguments only shape the instructions that are printed before (a usage
    guide that is no dictionary makes that fail, which is left out here);
    the answer depends on what is typed. *)
Fixpoint prompt_for_manual_execution (inputs : typed)
    : option ((string * option string) * typed) :=
  match inputs with
  | [] => None
  | line :: rest =>
      let choice := lower (strip line) in
      if String.eqb choice "a" then Some (("abort", None), rest)
      else if String.eqb choice "s" then Some (("skip", None), rest)
      else if String.eqb choice "y" then Some (("success", None), rest)
      else if String.eqb choice "n" then
        match read_until_done rest [] with
        | Some (lines, rest') =>
            let feedback := join newline lines in
            let feedback :=
              if String.eqb (strip feedback) "" then no_feedback_given
              else feedback in
            Some (("failure", Some feedback), rest')
        | None => None
        end
      else prompt_for_manual_execution rest
  end.

(** [get_confirmation] *)
Fixpoint get_confirmation (inputs : typed) : option (bool * typed) :=
  match inputs with
  | [] => None
  | line :: rest =>
      let response := lower (strip line) in
      if String.eqb response "y" then Some (true, rest)
      else if String.eqb response "n" then Some (false, rest)
      else get_confirmation rest
  end.

(** [get_feedback] and [get_initial_project_idea]: one line. *)
Definition get_feedback (inputs : typed) : option (string * typed) :=
  match inputs with
  | [] => None
  | line :: rest => Some (line, rest)
  end.

(** [prompt_environment_cleanup_choice] *)
Fixpoint prompt_environment_cleanup_choice (env_manager : string) (inputs : typed)
    : option ((string * option string) * typed) :=
  match inputs with
  | [] => None
  | line :: rest =>
      let choice := lower (strip line) in
      if String.eqb choice "k" then Some (("keep", None), rest)
      else if String.eqb choice "d" then Some (("delete", None), rest)
      else if String.eqb choice "r" && String.eqb env_manager "conda" then
        match rest with
        | [] => None
        | name :: rest' =>
            let new_name := strip name in
            if String.eqb new_name "" then
              prompt_environment_cleanup_choice env_manager rest'
            else Some (("rename", Some new_name), rest')
        end
      else prompt_environment_cleanup_choice env_manager rest
  end.

(** A line that [prompt_for_manual_execution] does not take for an
    answer. *)
Definition no_answer (line : string) : Prop :=
  lower (strip line) ∉ ["a"; "s"; "y"; "n"].

(** An answer of the manual gate. *)
Definition gate_answer (r : string * option string) : Prop :=
  r = ("abort", None) ∨ r = ("skip", None) ∨ r = ("success", None)
  ∨ ∃ feedback, r = ("failure", Some feedback) ∧ strip feedback ≠ "".

End Console.

(** ** Results of steps and runs, as properties *)

Module Runs.

(** A result at which the scheduling loop ends the run. *)
Definition stops (result : string) : Prop := result = "aborted" ∨ result = "skipped".

End Runs.

(** ** The log of a step, attempt by attempt *)

Module Traces.
Import PyStr Builder State Handler.
#[local] Open Scope list_scope.

(** What one attempt of step [n] adds to the log: the request to the
    generator, then the build if the answer is valid, then the two lines of
    the acceptance if the step is accepted with that tree. *)
Inductive attempt_trace (template : string) (n a : Z)
    : list event → option tree → Prop :=
| asked_only fb :
    attempt_trace template n a [GeneratorAsked template n a fb] None
| asked_and_built fb :
    attempt_trace template n a
      [GeneratorAsked template n a fb; BuildStarted n a] None
| asked_built_accepted fb tree :
    attempt_trace template n a
      [GeneratorAsked template n a fb; BuildStarted n a;
       SnapshotSaved n tree; LatestUpdated n tree] (Some tree).

(** The attempts of a step from number [a] on: how many there are, and the
    attempt and tree the step is accepted with, if it is. *)
Inductive step_trace (template : string) (n : Z)
    : Z → list event → nat → option (Z * tree) → Prop :=
| no_attempt a : step_trace template n a [] 0 None
| failed_attempt a l rest k acc :
    attempt_trace template n a l None →
    step_trace template n (a + 1) rest k acc →
    step_trace template n a (l ++ rest) (S k) acc
| accepted_attempt a l tree :
    attempt_trace template n a l (Some tree) →
    step_trace template n a l 1 (Some (a, tree)).

(** The feedback recorded for modification instructions that fail
    validation. *)
Definition modification_violation (m : string) : Prop :=
  ∃ resp, (_validate_modification_instructions_response resp).1 = false
          ∧ m = "JSON格式错误: " +:+ (_validate_modification_instructions_response resp).2.

Section WithHandler.
Context {E : Type} `{StepHandler E}.

(** Where a result of [_build_and_verify] for attempt [a] of step [n] comes
    from: it is a success, or a failure with feedback, or the action the
    manual gate answered without feedback. *)
Definition verify_result (n a : Z) (r : action_result) : Prop :=
  r.1 = "success"
  ∨ (r.1 = "failure" ∧ is_Some r.2)
  ∨ (r.2 = None
     ∧ ∃ d e feedback, (prompt_for_manual_execution n a d e).1.1 = (r.1, feedback)
                       ∧ truthy feedback = false).

(** Where a result of a step comes from. *)
Definition step_result (n : Z) (r : action_result) : Prop :=
  r.1 = "success"
  ∨ r = ("aborted", None)
  ∨ r = ("failure", Some "")
  ∨ (r.2 = None
     ∧ ∃ a d e feedback, (prompt_for_manual_execution n a d e).1.1 = (r.1, feedback)
                         ∧ truthy feedback = false).

(** What an attempt leaves behind, [L] being the log it started with. *)
Definition attempt_post (template : string) (n a : Z) (L : list event)
    (o : option flow) (w' : world E) : Prop :=
  ∃ l acc, log w' = L ++ l ∧ attempt_trace template n a l acc
    ∧ match acc with
      | Some tree =>
          (∃ p, o = Some (Return ("success", p)))
          ∧ latest_successful_code (dsk w') = Some tree
          ∧ attempts (dsk w') !! (n, a) = Some tree
      | None => ∀ p, o ≠ Some (Return ("success", p))
      end.

End WithHandler.

End Traces.

(** ** Entries that a build cannot write *)

Module Entries.
Import PyStr Builder.
#[local] Open Scope list_scope.

(** An entry of a file list that cannot be written: it has a path, and the
    path names the target directory itself. *)
Definition names_the_directory (f : file_info) : Prop :=
  truthy (fi_path f) = true ∧ path_parts (default "" (fi_path f)) = [].

(** An instruction that writes or edits, at the target directory itself. *)
Definition edits_the_directory (i : instruction) : Prop :=
  truthy (ins_path i) = true
  ∧ path_parts (default "" (ins_path i)) = []
  ∧ (ins_type i = Some "replace_file" ∨ ins_type i = Some "new_file"
     ∨ ins_type i = Some "line_diff").

End Entries.

(** ** Trees as the builder leaves them *)

Module Shapes.
Import PyStr Builder Paths Store.

(** A tree as a directory holds it: every file sits at a plain, normalised
    path below the directory, no file sits where another one needs a
    directory, and no name holds a backslash. *)
Definition normal_tree (t : tree) : Prop :=
  map_Forall (λ k _, names_a_file k = true ∧ norm_path k = k
                     ∧ replace_backslash k = k) t
  ∧ ∀ k k', is_Some (t !! k) → is_Some (t !! k') →
            above (path_parts k) (path_parts k') = false.

End Shapes.

(** ** Strings without line boundaries *)

Module Lines.
Import PyStr.

(** No line boundary starts at the head of [t]. *)
Definition clean_at (t : string) : bool :=
  match t with
  | EmptyString => true
  | String c rest =>
      negb (byte_is 13 c) && negb (is_line_break c)
      && negb (byte_is 194 c
               && match rest with
                  | String c2 _ => byte_is 133 c2
                  | EmptyString => false
                  end)
      && negb (byte_is 226 c
               && match rest with
                  | String c2 (String c3 _) =>
                      byte_is 128 c2 && (byte_is 168 c3 || byte_is 169 c3)
                  | _ => false
                  end)
  end.

(** A string without line boundary: one line, or the empty string. *)
Fixpoint plain (s : string) : bool :=
  match s with
  | EmptyString => true
  | String _ rest => clean_at s && plain rest
  end.

(** No line boundary starts at one of the first [n] places of [t]. *)
Fixpoint plain_upto (n : nat) (t : string) : bool :=
  match n, t with
  | S n', String _ rest => clean_at t && plain_upto n' rest
  | _, _ => true
  end.

(** The lines, each followed by a newline. *)
Fixpoint unlines (lines : list string) : string :=
  match lines with
  | [] => ""
  | l :: rest => l ++ newline ++ unlines rest
  end.

End Lines.

(** ** [llm_interface.py]: cleaning a reply *)

Module Cleaner.

Import PyStr.

(** The rest of a text that starts with a backtick. *)
Definition after_tick (s : string) : option string :=
  match s with
  | String c rest => if byte_is 96 c then Some rest else None
  | EmptyString => None
  end.

(** The rest of a text that starts with the fence, three backticks. *)
Definition after_fence (s : string) : option string :=
  (after_tick s ≫= after_tick) ≫= after_tick.

(** The first fence of a text: what stands before it, and what follows. *)
Fixpoint find_fence (s : string) : option (string * string) :=
  match after_fence s with
  | Some rest => Some ("", rest)
  | None =>
      match s with
      | EmptyString => None
      | String c s' =>
          match find_fence s' with
          | Some (before, rest) => Some (String c before, rest)
          | None => None
          end
      end
  end.

(** [(json)?]: the tag is taken when it is there. *)
Definition after_json (s : string) : string :=
  match s with
  | String a (String b (String c (String d rest))) =>
      if byte_is 106 a && byte_is 115 b && byte_is 111 c && byte_is 110 d
      then rest else s
  | _ => s
  end.

(** [re.search] for a fence, the optional tag, and the nearest fence after
    them: the text in between, which is [match.group(2)] with the white
    space around it.  The search starts at the first fence of the text; a
    fence cannot begin inside the tag, so that a closing fence is found
    after the tag whenever one is found without it, and no other start
    gives a match when the first fence gives none. *)
Definition fenced (text : string) : option string :=
  match find_fence text with
  | Some (_, rest) =>
      match find_fence (after_json rest) with
      | Some (inner, _) => Some inner
      | None => None
      end
  | None => None
  end.

(** The loop over the characters of the content. *)
Fixpoint escape (in_string is_escaped : bool) (content : string) : string :=
  match content with
  | EmptyString => EmptyString
  | String char rest =>
      if is_escaped then String char (escape in_string false rest)
      else if byte_is 92 char then String char (escape in_string true rest)
      else
        let in_string := if byte_is 34 char then negb in_string else in_string in
        if in_string && byte_is 10 char then
          String "\" (String "n" (escape in_string false rest))
        else if in_string && byte_is 9 char then
          String "\" (String "t" (escape in_string false rest))
        else String char (escape in_string false rest)
  end.

Definition _clean_json_response (text : string) : string :=
  let content :=
    match fenced text with
    | Some inner => strip inner
    | None => strip text
    end in
  escape false false content.

(** A text without a backtick. *)
Fixpoint no_tick (s : string) : bool :=
  match s with
  | EmptyString => true
  | String c rest => negb (byte_is 96 c) && no_tick rest
  end.

Definition fence : string := "```".

End Cleaner.

(** ** [workflow_controller.py]: confirming the project description *)

Module Planning.

Import PyStr Builder State Console.
#[local] Open Scope list_scope.

(** How [run_project_definition_iteration_phase] ends.  [Raised] is an
    exception that passes through the method: the end of the input, or a
    failure of the prompt template or of the provider. *)
Inductive ended :=
| NoDescription
| Confirmed (current_description : json)
| LeftAsItIs (current_description : json)
| Raised
| OutOfFuel.

(** What the method returns; [None] where it does not return. *)
Definition returns (r : ended) : option bool :=
  match r with
  | NoDescription => Some false
  | Confirmed _ | LeftAsItIs _ => Some true
  | Raised | OutOfFuel => None
  end.

(** The workspace, the lines still to be typed, and the surroundings of
    the language model. *)
Record desk {E : Type} := {
  store : disk;
  typed_ahead : typed;
  provider : E
}.
Arguments desk : clear implicits.

(** [save_refined_project_description] *)
Definition save_refined_project_description (description_json : json) (d : disk) : disk :=
  {| attempts := attempts d;
     successful_steps := successful_steps d;
     latest_successful_code := latest_successful_code d;
     project_definition := Some description_json |}.

Definition is_dict (r : json) : bool :=
  match r with
  | JObject _ => true
  | _ => false
  end.

(** [key in r], for a dictionary [r]. *)
Definition has_key (key : string) (r : json) : bool :=
  match r with
  | JObject fields => bool_decide (is_Some (field key fields))
  | _ => false
  end.

(** [llm_response and isinstance(llm_response, dict) and "error" not in
    llm_response] *)
Definition acceptable (llm_response : json) : bool :=
  json_truthy (Some llm_response) && is_dict llm_response
  && negb (has_key "error" llm_response).

Section Iteration.

Context {E : Type}.

(** The prompt [refinement_iteration], filled in with the description and
    the feedback, and the parsed reply of the model to it; [None] is an
    exception. *)
Variable revise : json → string → E → option json * E.

(** The loop [while True] of the method, one pass per unit of fuel. *)
Fixpoint iterate (fuel : nat) (current_description : json) (s : desk E)
    : ended * desk E :=
  match fuel with
  | O => (OutOfFuel, s)
  | S fuel =>
      match get_confirmation (typed_ahead s) with
      | None => (Raised, {| store := store s; typed_ahead := []; provider := provider s |})
      | Some (true, rest) =>
          (Confirmed current_description,
           {| store := save_refined_project_description current_description (store s);
              typed_ahead := rest; provider := provider s |})
      | Some (false, rest) =>
          match get_feedback rest with
          | None =>
              (Raised, {| store := store s; typed_ahead := []; provider := provider s |})
          | Some (feedback, rest) =>
              if String.eqb (strip feedback) "" then
                (LeftAsItIs current_description,
                 {| store := store s; typed_ahead := rest; provider := provider s |})
              else
                let '(llm_response, e) := revise current_description feedback (provider s) in
                let s := {| store := store s; typed_ahead := rest; provider := e |} in
                match llm_response with
                | None => (Raised, s)
                | Some r =>
                    iterate fuel (if acceptable r then r else current_description) s
                end
          end
      end
  end.

Definition run_project_definition_iteration_phase (s : desk E) : ended * desk E :=
  match project_definition (store s) with
  | Some current_description =>
      if json_truthy (Some current_description)
      then iterate (S (length (typed_ahead s))) current_description s
      else (NoDescription, s)
  | None => (NoDescription, s)
  end.

End Iteration.

End Planning.

(** ** The requests of a step *)

Module Feedback.

Import PyStr Builder State Handler.
#[local] Open Scope list_scope.

Definition is_request (ev : event) : bool :=
  match ev with
  | GeneratorAsked _ _ _ _ => true
  | _ => false
  end.

(** The requests to the generator among the lines of a log. *)
Definition requests (l : list event) : list event := List.filter is_request l.

Section WithHandler.
Context {E : Type} `{StepHandler E}.

(** What an attempt that starts with the feedback [fb] leaves behind, [L]
    being the log it started with: one request, which carries [fb], and, if
    the loop goes on, one more message of feedback. *)
Definition attempt_feedback (template header : string) (n a : Z) (fb : list string)
    (L : list event) (o : option flow) (w' : world E) : Prop :=
  ∃ rest,
    log w' = L ++ GeneratorAsked template n a (feedback_section_of header fb) :: rest
    ∧ requests rest = []
    ∧ ∀ fb', o = Some (Continue fb') → ∃ m, fb' = fb ++ [m] ∧ m ≠ "".

End WithHandler.

End Feedback.

(** ** [prompt_manager.py]: templates and their directives *)

Module Prompts.

Import PyStr.
#[local] Open Scope list_scope.

(** The rest of [s] after the prefix [p], when [s] starts with it. *)
Fixpoint after_prefix (p s : string) : option string :=
  match p, s with
  | EmptyString, _ => Some s
  | String a p', String b s' => if Ascii.eqb a b then after_prefix p' s' else None
  | String _ _, EmptyString => None
  end.

(** The longest prefix of characters that satisfy [f], and the rest. *)
Fixpoint span (f : ascii → bool) (s : string) : string * string :=
  match s with
  | EmptyString => ("", "")
  | String c rest =>
      if f c then let '(taken, remaining) := span f rest in (String c taken, remaining)
      else ("", s)
  end.

(** A match of [\{\{include\s+'([^']+)'\}\}] at the head of [s]: the key,
    and the number of characters of the match.  The white space and the key
    are taken as far as they go: what has to follow them, the quote, is
    neither white space nor part of a key, so that no shorter choice gives
    a match when the longest gives none. *)
Definition match_include (s : string) : option (string * nat) :=
  rest ← after_prefix "{{include" s;
  let '(spaces, rest) := span is_space rest in
  if String.eqb spaces "" then None
  else
    rest ← after_prefix "'" rest;
    let '(key, rest) := span (λ c, negb (byte_is 39 c)) rest in
    if String.eqb key "" then None
    else
      _ ← after_prefix "'}}" rest;
      Some (key, (9 + String.length spaces + 1 + String.length key + 3)%nat).

(** A template, cut at its directives. *)
Inductive segment :=
| Text (c : ascii)
| Include (included_key : string).

(** The matches [include_pattern.sub] finds, from left to right: after a
    match the search goes on behind it; [skip] counts the characters of the
    last match that are still to be passed over. *)
Fixpoint segments (skip : nat) (content : string) : list segment :=
  match content with
  | EmptyString => []
  | String c rest =>
      match skip with
      | S skip => segments skip rest
      | O =>
          match match_include content with
          | Some (included_key, matched) => Include included_key :: segments (matched - 1) rest
          | None => Text c :: segments 0 rest
          end
      end
  end.

Inductive resolved :=
| Resolved (text : string)
| FileNotFoundError (template_key : string)
| RecursionError (included_key : string)
| OutOfFuel.

(** [include_pattern.sub(replacer, content)], on the segments of the
    content: the replacer is called for one match after the other, and the
    first exception ends the substitution. *)
Fixpoint substitute (replacer : string → resolved) (l : list segment) : resolved :=
  match l with
  | [] => Resolved ""
  | Text c :: l =>
      match substitute replacer l with
      | Resolved text => Resolved (String c text)
      | failure => failure
      end
  | Include included_key :: l =>
      match replacer included_key with
      | Resolved replacement =>
          match substitute replacer l with
          | Resolved text => Resolved (replacement ++ text)
          | failure => failure
          end
      | failure => failure
      end
  end.

Section Templates.

(** The template directory: the text of [<key>.txt], for the keys that
    name a file there.  Keys are taken as they are written: two spellings
    of one file name are two keys. *)
Variable templates : gmap string string.

(** [_load_template_content] *)
Definition _load_template_content (template_key : string) : option string :=
  templates !! template_key.

(** [_resolve_includes_in_content], with one unit of fuel per level of
    inclusion.  The limit the interpreter sets to the depth of calls is
    left out. *)
Fixpoint resolve (fuel : nat) (seen_keys : gset string) (content : string) : resolved :=
  match fuel with
  | O => OutOfFuel
  | S fuel =>
      let replacer included_key :=
        if bool_decide (included_key ∈ seen_keys) then RecursionError included_key
        else
          match _load_template_content included_key with
          | None => FileNotFoundError included_key
          | Some included_content =>
              resolve fuel ({[included_key]} ∪ seen_keys) included_content
          end in
      substitute replacer (segments 0 content)
  end.

Definition _resolve_includes_in_content (content : string) (seen_keys : gset string)
    : resolved :=
  resolve (S (size (dom templates))) seen_keys content.

End Templates.

(** A text in which no directive can begin: it holds no opening brace. *)
Fixpoint no_brace (s : string) : bool :=
  match s with
  | EmptyString => true
  | String c rest => negb (byte_is 123 c) && no_brace rest
  end.

(** A key that can stand between the quotes of a directive. *)
Fixpoint no_quote (s : string) : bool :=
  match s with
  | EmptyString => true
  | String c rest => negb (byte_is 39 c) && no_quote rest
  end.

(** The directive for a key, as the templates write it. *)
Definition directive (key : string) : string := "{{include '" ++ key ++ "'}}".

End Prompts.

(** ** The accepted code, left alone *)

Module Keeping.

Import PyStr Builder Paths State Handler.
#[local] Open Scope list_scope.

(** An answer of the generator that names plain paths only: for its files,
    for its instructions and for its dependency manifest.  What is built
    from it, and the manifest that is sanitized, then lie below the
    directory of the attempt. *)
Definition plain_response (r : llm_response) : Prop :=
  Forall (λ p, plain_path p = true) (paths_of (response_get r_files [] r))
  ∧ Forall (λ p, plain_path p = true) (paths_named (response_get r_modifications [] r))
  ∧ plain_path (dependency_file_of r) = true.

(** From [d] to [d'] the accepted code is left alone: the latest tree and
    the snapshots are the same, and no attempt directory has gone. *)
Definition keeps (d d' : disk) : Prop :=
  latest_successful_code d' = latest_successful_code d
  ∧ successful_steps d' = successful_steps d
  ∧ ∀ p, is_Some (attempts d !! p) → is_Some (attempts d' !! p).

(** The snapshots of the steps other than [n] are the same. *)
Definition other_snapshots (n : Z) (d d' : disk) : Prop :=
  ∀ m, m ≠ n → successful_steps d' !! m = successful_steps d !! m.

Section WithHandler.
Context {E : Type} `{StepHandler E}.

(** Collaborators that leave the accepted code alone: the inspection, the
    installer, the tests and the manual gate. *)
Definition careful : Prop :=
  (∀ n a c d e, keeps d (_run_inspection n a c d e).1.2)
  ∧ (∀ n a name d e, keeps d (install_dependencies n a name d e).1.2)
  ∧ (∀ n a tests d e, keeps d (run_tests n a tests d e).1.2)
  ∧ (∀ n a d e, keeps d (prompt_for_manual_execution n a d e).1.2).

(** A generator all of whose answers name plain paths only. *)
Definition plain_answers : Prop :=
  ∀ template n a c fb d e r,
    (ask_generator template n a c fb d e).1 = Some r → plain_response r.

End WithHandler.

End Keeping.

(* ===================================================================== *)
(** * Part II: properties                                                 *)
(* ===================================================================== *)

#[local] Open Scope list_scope.

(** ** The tree builder *)

Section BuilderFacts.

Import PyStr Builder Paths Reference.
Context `{JsonParser}.

Lemma sanitize_other_name p c :
  path_name p ≠ "requirements.txt" → _sanitize_requirements_content p c = c.
Proof.
  intros Hp. unfold _sanitize_requirements_content.
  rewrite bool_decide_eq_true_2; done.
Qed.

Lemma write_files_app l1 l2 t :
  write_files (l1 ++ l2) t =
  match write_files l1 t with
  | (true, t1) => write_files l2 t1
  | (false, t1) => (false, t1)
  end.
Proof.
  revert t. induction l1 as [|f l1 IH]; intros t; simpl; [done|].
  destruct (truthy (fi_path f)); [|apply IH].
  destruct (write_text t _ _); [apply IH|done].
Qed.

Lemma write_text_Some t p c t' :
  write_text t p c = Some t' → t' = <[norm_path p := c]> t.
Proof. unfold write_text. destruct (path_parts p); congruence. Qed.

Lemma write_files_elsewhere k l t b t' :
  Forall (λ g, truthy (fi_path g) = true →
               norm_path (default "" (fi_path g)) ≠ k) l →
  write_files l t = (b, t') → t' !! k = t !! k.
Proof.
  intros Hl. revert t. induction Hl as [|g l Hg _ IH]; intros t; simpl.
  - congruence.
  - destruct (truthy (fi_path g)) eqn:Hp; [|apply IH].
    destruct (write_text t _ _) as [t1|] eqn:Hw; [|congruence].
    intros Hr. rewrite (IH _ Hr). apply write_text_Some in Hw. subst t1.
    apply lookup_insert_ne. auto.
Qed.

Lemma apply_instructions_app l1 l2 t :
  apply_instructions (l1 ++ l2) t =
  match apply_instructions l1 t with
  | (true, t1) => apply_instructions l2 t1
  | (false, t1) => (false, t1)
  end.
Proof.
  revert t. induction l1 as [|i l1 IH]; intros t; simpl; [done|].
  destruct (apply_instruction t i); [apply IH|done].
Qed.

Lemma apply_line_diffs_elsewhere t p diffs t' k :
  norm_path p ≠ k → _apply_line_diffs t p diffs = Some t' → t' !! k = t !! k.
Proof.
  intros Hk. unfold _apply_line_diffs.
  destruct (path_parts p); [congruence|].
  destruct (t !! norm_path p); intros [= <-]; by apply lookup_insert_ne.
Qed.

Lemma apply_instruction_elsewhere t i t' k :
  (truthy (ins_path i) = true → norm_path (default "" (ins_path i)) ≠ k) →
  apply_instruction t i = Some t' → t' !! k = t !! k.
Proof.
  intros Hk. unfold apply_instruction.
  destruct (truthy (ins_path i)); [|congruence].
  specialize (Hk eq_refl).
  repeat case_bool_decide.
  - intros Hw. apply write_text_Some in Hw. subst t'. by apply lookup_insert_ne.
  - by apply apply_line_diffs_elsewhere.
  - intros [= <-]. by apply lookup_delete_ne.
  - congruence.
Qed.

Lemma apply_instructions_elsewhere k l t b t' :
  Forall (λ j, truthy (ins_path j) = true →
               norm_path (default "" (ins_path j)) ≠ k) l →
  apply_instructions l t = (b, t') → t' !! k = t !! k.
Proof.
  intros Hl. revert t. induction Hl as [|j l Hj _ IH]; intros t; simpl.
  - congruence.
  - destruct (apply_instruction t j) as [t1|] eqn:Hi; [|congruence].
    intros Hr. rewrite (IH _ Hr). by eapply apply_instruction_elsewhere.
Qed.

Lemma write_files_succeeds files t0 :
  Forall (λ p, names_a_file p = true) (paths_of files) →
  ∃ t, write_files files t0 = (true, t).
Proof.
  revert t0. induction files as [|f files IH]; intros t0 Hall; simpl.
  - by eexists.
  - unfold paths_of in Hall. simpl in Hall.
    destruct (truthy (fi_path f)) eqn:Hp; [|by apply IH].
    destruct (fi_path f) as [p|] eqn:Hf; [|done]. simpl in *.
    apply Forall_cons in Hall as [Hp1 Hall].
    apply andb_true_iff in Hp1 as [_ Hparts%bool_decide_eq_true].
    unfold write_text. destruct (path_parts p); [done|]. by apply IH.
Qed.

Lemma build_is_write_files target files :
  build_project_structure target files = write_files files ∅.
Proof. unfold build_project_structure. by destruct files, target. Qed.

(** C8. The full-replace build is idempotent: building a file list into a
    target directory and then building the same list into that directory
    again gives the same outcome and the same tree as the first build. *)
Theorem build_project_structure_idempotent (target : option tree)
    (files : list file_info) :
  build_project_structure (Some (build_project_structure target files).2) files
  = build_project_structure target files.
Proof.
  unfold build_project_structure. by destruct target.
Qed.


End BuilderFacts.


(** ** The dependency-manifest sanitizer *)

Section SanitizerFacts.

Import PyStr Handler.

(** C9. What the sanitizer does to a manifest that declares [requests] and
    [flask]: the line [requests] is taken for a standard module, because it
    starts with [re], and is removed. *)
Theorem sanitizer_drops_requests :
  keeps_line "requests" = false
  ∧ sanitize_dependency_text ("requests" +:+ newline +:+ "flask" +:+ newline)
    = "flask" +:+ newline
  ∧ _sanitize_dependency_file
      {[ "requirements.txt" := "requests" +:+ newline +:+ "flask" +:+ newline ]}
      "requirements.txt" !! "requirements.txt"
    = Some ("flask" +:+ newline).
Proof. repeat split. Qed.

End SanitizerFacts.

(** ** Line-range edits *)

Section LineEdits.

Import PyStr Builder Reference Examples.

Lemma sort_key_le_first d : sort_key d ≤ first_line d.
Proof. unfold sort_key, first_line. destruct (start_line d); simpl; lia. Qed.

Lemma sort_key_first d : 1 < first_line d → sort_key d = first_line d.
Proof. unfold sort_key, first_line. destruct (start_line d); simpl; lia. Qed.

Lemma disjoint_ascending_above lo n ds :
  1 ≤ lo → disjoint_ascending lo n ds → Forall (λ y, lo < sort_key y) ds.
Proof.
  revert lo. induction ds as [|d ds IH]; intros lo Hlo; simpl; [constructor|].
  intros (H1 & H2 & H3 & H4). constructor.
  - rewrite sort_key_first; lia.
  - eapply Forall_impl; [apply (IH (last_line d)); [lia|done]|].
    simpl. intros; lia.
Qed.

Lemma disjoint_ascending_keys lo n ds :
  0 ≤ lo → disjoint_ascending lo n ds → StronglySorted key_lt ds.
Proof.
  revert lo. induction ds as [|d ds IH]; intros lo Hlo; simpl; [constructor|].
  intros (H1 & H2 & H3 & H4). constructor.
  - apply (IH (last_line d)); [lia|done].
  - eapply Forall_impl; [apply (disjoint_ascending_above (last_line d) n); [lia|done]|].
    unfold key_lt. simpl. intros y Hy. pose proof (sort_key_le_first d). lia.
Qed.

Lemma insert_desc_last x l :
  Forall (λ y, sort_key x < sort_key y) l → insert_desc x l = l ++ [x].
Proof.
  induction 1 as [|y l Hy _ IH]; simpl; [done|].
  destruct (Z.leb_spec (sort_key y) (sort_key x)); [lia|]. by rewrite IH.
Qed.

Lemma insert_desc_first x l :
  Forall (λ y, sort_key y < sort_key x) l → insert_desc x l = x :: l.
Proof.
  destruct 1 as [|y l Hy _]; simpl; [done|].
  destruct (Z.leb_spec (sort_key y) (sort_key x)); [done|lia].
Qed.

Lemma sorted_desc_ascending l :
  StronglySorted key_lt l → sorted_desc l = rev l.
Proof.
  induction 1 as [|x l _ IH Hx]; simpl; [done|].
  unfold sorted_desc in *. rewrite IH. apply insert_desc_last.
  apply Forall_rev, Hx.
Qed.

Lemma sorted_desc_descending l :
  StronglySorted (flip key_lt) l → sorted_desc l = l.
Proof.
  induction 1 as [|x l _ IH Hx]; simpl; [done|].
  unfold sorted_desc in *. rewrite IH. by apply insert_desc_first.
Qed.

Lemma StronglySorted_rev_flip l :
  StronglySorted key_lt l → StronglySorted (flip key_lt) (rev l).
Proof.
  induction 1 as [|x l _ IH Hx]; simpl; [constructor|].
  apply StronglySorted_app_2.
  - intros a b Ha Hb. apply list_elem_of_In, in_rev in Ha.
    apply list_elem_of_singleton in Hb. subst b.
    rewrite Forall_forall in Hx. apply Hx. by apply list_elem_of_In.
  - done.
  - repeat constructor.
Qed.

Lemma sorted_desc_Forall (P : line_diff → Prop) l :
  Forall P l → Forall P (sorted_desc l).
Proof.
  induction 1 as [|x l Hx _ IH]; simpl; [constructor|].
  unfold sorted_desc in *. revert IH. generalize (foldr insert_desc [] l).
  intros k. induction 1 as [|y k Hy Hk IH]; simpl; [by repeat constructor|].
  destruct (sort_key y <=? sort_key x); repeat constructor; done.
Qed.

(** A usable edit passes the builder's range check and does what
    [replace_range] says. *)
Lemma apply_diff_usable lines d :
  1 ≤ first_line d → first_line d ≤ last_line d →
  last_line d ≤ Z.of_nat (length lines) →
  apply_diff lines d = replace_range lines d.
Proof.
  intros H1 H2 H3. unfold apply_diff, replace_range.
  fold (first_line d).
  replace (default (first_line d - 1 + 1) (end_line d)) with (last_line d)
    by (unfold last_line; f_equal; lia).
  destruct (Z.ltb_spec (first_line d - 1) 0); [lia|].
  destruct (Z.gtb_spec (last_line d) (Z.of_nat (length lines))); [lia|].
  destruct (Z.geb_spec (first_line d - 1) (last_line d)); [lia|].
  done.
Qed.

(** An unusable edit is skipped. *)
Lemma apply_diff_unusable lines d :
  unusable (Z.of_nat (length lines)) d → apply_diff lines d = lines.
Proof.
  intros Hd. unfold apply_diff. fold (first_line d).
  replace (default (first_line d - 1 + 1) (end_line d)) with (last_line d)
    by (unfold last_line; f_equal; lia).
  destruct (Z.ltb_spec (first_line d - 1) 0); [done|].
  destruct (Z.gtb_spec (last_line d) (Z.of_nat (length lines))); [done|].
  destruct (Z.geb_spec (first_line d - 1) (last_line d)); [done|].
  destruct Hd as [?|[?|[?|?]]]; lia.
Qed.

Lemma length_replace_range lines d :
  0 ≤ first_line d - 1 ≤ Z.of_nat (length lines) →
  first_line d - 1 ≤ Z.of_nat (length (replace_range lines d)).
Proof.
  intros Hd. unfold replace_range. rewrite !List.length_app. rewrite length_take_le by lia. lia.
Qed.

(** Going through disjoint ascending edits from the last to the first,
    every edit is still in range when its turn comes. *)
Lemma descending_pass lo lines ds :
  0 ≤ lo ≤ Z.of_nat (length lines) →
  disjoint_ascending lo (Z.of_nat (length lines)) ds →
  fold_left apply_diff (rev ds) lines = one_at_a_time lines (rev ds)
  ∧ lo ≤ Z.of_nat (length (one_at_a_time lines (rev ds))).
Proof.
  unfold one_at_a_time. revert lo.
  induction ds as [|d ds IH]; intros lo Hlo; simpl.
  { intros _. split; [done|lia]. }
  intros (H1 & H2 & H3 & H4).
  destruct (IH (last_line d)) as [IH1 IH2]; [lia|done|].
  rewrite !fold_left_app. simpl. rewrite IH1. split.
  - apply apply_diff_usable; lia.
  - pose proof (length_replace_range (fold_left replace_range (rev ds) lines) d).
    lia.
Qed.



(** The same file when each edit is handed to the builder on its own, the
    later range first: the result is that of the single call. *)
Lemma line_edits_in_two_calls_example :
  let t : tree := {[ "notes.txt" := ten_lines ]} in
  (_apply_line_diffs t "notes.txt" [edit 6 7 "Y"]
     ≫= λ t1, _apply_line_diffs t1 "notes.txt" [edit 2 4 "X"])
  = _apply_line_diffs t "notes.txt" [edit 2 4 "X"; edit 6 7 "Y"].
Proof. reflexivity. Qed.




End LineEdits.

(** ** Dictionaries *)

Section DictFacts.

Import PyDict.
Context {V : Type}.
Implicit Types (d : dict V) (k : Z) (v : V).

Lemma get_set_eq k v d : get k (set k v d) = Some v.
Proof.
  induction d as [|[k' v'] d IH]; simpl.
  - by rewrite Z.eqb_refl.
  - destruct (Z.eqb_spec k k'); simpl.
    + subst. by rewrite Z.eqb_refl.
    + destruct (Z.eqb_spec k k'); [done|]. exact IH.
Qed.

Lemma get_set_ne k k' v d : k ≠ k' → get k' (set k v d) = get k' d.
Proof.
  intros Hne. induction d as [|[k0 v0] d IH]; simpl.
  - destruct (Z.eqb_spec k' k); [congruence|done].
  - destruct (Z.eqb_spec k k0); simpl.
    + subst k0. destruct (Z.eqb_spec k' k); [congruence|done].
    + destruct (Z.eqb_spec k' k0); [done|exact IH].
Qed.

Lemma get_Some_keys k v d : get k d = Some v → k ∈ keys d.
Proof.
  induction d as [|[k' v'] d IH]; simpl; [done|].
  destruct (Z.eqb_spec k k'); [subst; left|right; auto].
Qed.

Lemma keys_get k d : k ∈ keys d → is_Some (get k d).
Proof.
  induction d as [|[k' v'] d IH]; simpl.
  - by intros ?%elem_of_nil.
  - destruct (Z.eqb_spec k k'); [by eexists|].
    intros [?|?]%elem_of_cons; [done|auto].
Qed.

Lemma get_None_keys k d : get k d = None → k ∉ keys d.
Proof. intros Hn [v Hv]%keys_get. congruence. Qed.

Lemma keys_set_present k v d : k ∈ keys d → keys (set k v d) = keys d.
Proof.
  induction d as [|[k' v'] d IH]; simpl.
  - by intros ?%elem_of_nil.
  - destruct (Z.eqb_spec k k'); simpl; [done|].
    intros [?|?]%elem_of_cons; [done|]. f_equal. auto.
Qed.

Lemma get_elem_of k v d : NoDup (keys d) → (k, v) ∈ d → get k d = Some v.
Proof.
  induction d as [|[k' v'] d IH]; simpl.
  - by intros _ ?%elem_of_nil.
  - intros [Hk Hd]%NoDup_cons [Heq|Hin]%elem_of_cons.
    + injection Heq as -> ->. by rewrite Z.eqb_refl.
    + destruct (Z.eqb_spec k k'); [|auto]. subst k'.
      destruct Hk. apply list_elem_of_fmap. by exists (k, v).
Qed.

Lemma elem_of_get k v d : get k d = Some v → (k, v) ∈ d.
Proof.
  induction d as [|[k' v'] d IH]; simpl; [done|].
  destruct (Z.eqb_spec k k').
  - intros [= ->]. subst. left.
  - right. auto.
Qed.

(** Two dictionaries with the same keys in the same order and the same
    values are the same. *)
Lemma dict_ext d1 d2 :
  NoDup (keys d1) → keys d1 = keys d2 →
  (∀ k, k ∈ keys d1 → get k d1 = get k d2) → d1 = d2.
Proof.
  revert d2. induction d1 as [|[k v] d1 IH]; intros [|[k2 v2] d2]; simpl;
    try done.
  intros [Hk Hd]%NoDup_cons [= <- Hkeys] Hget. f_equal.
  - specialize (Hget k (list_elem_of_here _ _)). simpl in Hget.
    rewrite Z.eqb_refl in Hget. congruence.
  - apply IH; [done..|]. intros k' Hk'.
    specialize (Hget k' (list_elem_of_further _ _ _ Hk')). simpl in Hget.
    destruct (Z.eqb_spec k' k); [by subst|done].
Qed.

End DictFacts.

(** ** The dependency graph the scheduler builds *)

Section GraphFacts.

Import PyDict State Controller Graph.

Lemma keys_steps_dict_NoDup tasks : NoDup (keys (steps_dict tasks)).
Proof.
  unfold steps_dict.
  assert (∀ d : dict step, NoDup (keys d) →
            NoDup (keys (fold_left (λ d s, set (step_number s) s d) tasks d))) as Hgen.
  { induction tasks as [|s tasks IH]; intros d Hd; simpl; [done|].
    apply IH. clear IH. generalize (step_number s) as k. intros k.
    induction d as [|[k' v'] d IH]; simpl.
    - apply NoDup_singleton.
    - apply NoDup_cons in Hd as [Hk Hd].
      destruct (Z.eqb_spec k k'); simpl; apply NoDup_cons; split; try done.
      + intros Hin. apply Hk.
        destruct (keys_get _ _ Hin) as [v Hv].
        rewrite get_set_ne in Hv by done. by eapply get_Some_keys.
      + by apply IH. }
  apply Hgen. constructor.
Qed.

Lemma add_dependents_spec step_num deps (adj : dict (list Z)) :
  (∀ d, d ∈ deps → d ∈ keys adj) →
  ∃ adj', add_dependents step_num deps adj = inr adj'
          ∧ keys adj' = keys adj
          ∧ ∀ k L, get k adj = Some L →
              get k adj' = Some (L ++ repeat step_num (count_occ Z.eq_dec deps k)).
Proof.
  revert adj. induction deps as [|d deps IH]; intros adj Hdeps; simpl.
  - exists adj. repeat split. intros k L ->. by rewrite app_nil_r.
  - destruct (keys_get d adj) as [L0 HL0]; [apply Hdeps; left|]. rewrite HL0.
    assert (keys (set d (L0 ++ [step_num]) adj) = keys adj) as Hkeys.
    { apply keys_set_present. by eapply get_Some_keys. }
    destruct (IH (set d (L0 ++ [step_num]) adj)) as (adj' & Hadj & Hk & Hget).
    { intros x Hx. rewrite Hkeys. apply Hdeps. by right. }
    exists adj'. split; [done|]. split; [congruence|].
    intros k L HL. destruct (Z.eq_dec d k) as [->|Hne].
    + rewrite (Hget k (L0 ++ [step_num])) by apply get_set_eq.
      replace L0 with L by congruence. simpl. by rewrite <- app_assoc.
    + rewrite (Hget k L) by (by rewrite get_set_ne). done.
Qed.

Lemma add_dependents_dangling step_num deps (adj : dict (list Z)) dep :
  add_dependents step_num deps adj = inl dep → dep ∈ deps ∧ dep ∉ keys adj.
Proof.
  revert adj. induction deps as [|d deps IH]; intros adj; simpl; [done|].
  destruct (get d adj) as [L0|] eqn:HL0.
  - intros [Hin Hk]%IH. split; [by right|].
    rewrite keys_set_present in Hk; [done|by eapply get_Some_keys].
  - intros [= <-]. split; [left|by apply get_None_keys].
Qed.

Lemma build_graph_spec items (adj : dict (list Z)) (indeg : dict Z) :
  NoDup (keys items) →
  (∀ t task d, (t, task) ∈ items → d ∈ dependencies task → d ∈ keys adj) →
  (∀ t, t ∈ keys items → t ∈ keys indeg) →
  ∃ adj' indeg',
    build_graph items adj indeg = inr (adj', indeg')
    ∧ keys adj' = keys adj ∧ keys indeg' = keys indeg
    ∧ (∀ k L, get k adj = Some L → get k adj' = Some (L ++ dependents_of k items))
    ∧ (∀ k, get k indeg' =
            match get k items with
            | Some task => Some (Z.of_nat (length (dependencies task)))
            | None => get k indeg
            end).
Proof.
  revert adj indeg.
  induction items as [|[t task] items IH]; intros adj indeg Hnd Hdeps Hkeys; simpl.
  - exists adj, indeg. repeat split. intros k L ->. by rewrite app_nil_r.
  - apply NoDup_cons in Hnd as [Ht Hnd].
    destruct (add_dependents_spec t (dependencies task) adj) as (adj1 & -> & Hk1 & Hg1).
    { intros d Hd. eapply Hdeps; [left|done]. }
    set (indeg1 := set t (Z.of_nat (length (dependencies task))) indeg).
    assert (keys indeg1 = keys indeg) as Hki.
    { apply keys_set_present, Hkeys. left. }
    destruct (IH adj1 indeg1) as (adj' & indeg' & -> & Hk & Hi & Hga & Hgi); [done|..].
    { intros t' task' d Hin Hd. rewrite Hk1. eapply Hdeps; [by right|done]. }
    { intros t' Ht'. rewrite Hki. apply Hkeys. by right. }
    exists adj', indeg'. split; [done|]. split; [congruence|]. split; [congruence|].
    split.
    + intros k L HL. rewrite (Hga k _ (Hg1 k L HL)).
      unfold dependents_of. simpl. by rewrite <- app_assoc.
    + intros k. rewrite Hgi. destruct (Z.eqb_spec k t) as [->|Hne].
      * destruct (get t items) eqn:Hgt; [by apply get_Some_keys in Hgt|].
        apply get_set_eq.
      * destruct (get k items); [done|]. by apply get_set_ne.
Qed.

Lemma build_graph_dangling items (adj : dict (list Z)) (indeg : dict Z) step_num dep :
  build_graph items adj indeg = inl (step_num, dep) →
  ∃ task, (step_num, task) ∈ items ∧ dep ∈ dependencies task ∧ dep ∉ keys adj.
Proof.
  revert adj indeg. induction items as [|[t task] items IH]; intros adj indeg; simpl; [done|].
  destruct (add_dependents t (dependencies task) adj) as [d|adj1] eqn:Hadd.
  - intros [= <- <-]. apply add_dependents_dangling in Hadd as [? ?].
    exists task. split; [left|done].
  - intros (task' & Hin & Hd & Hk)%IH. exists task'. split; [by right|]. split; [done|].
    destruct (add_dependents_spec t (dependencies task) adj) as (adj2 & Heq & Hk2 & _).
    { intros d Hd'. destruct (decide (d ∈ keys adj)) as [|Hn]; [done|].
      exfalso. clear -Hadd Hd' Hn. revert adj adj1 Hadd Hn.
      induction (dependencies task) as [|x l IHl]; intros adj adj1 Hadd Hn.
      - by apply elem_of_nil in Hd'.
      - simpl in Hadd. destruct (get x adj) eqn:Hx; [|done].
        apply elem_of_cons in Hd' as [->|Hd'].
        + by apply get_Some_keys in Hx.
        + eapply (IHl Hd' _ _ Hadd). rewrite keys_set_present; [done|].
          by eapply get_Some_keys. }
    rewrite Hadd in Heq. injection Heq as <-. by rewrite <- Hk2.
Qed.

Lemma count_dependents_of k t items :
  NoDup (keys items) →
  count_occ Z.eq_dec (dependents_of k items) t =
  match get t items with
  | Some task => count_occ Z.eq_dec (dependencies task) k
  | None => O
  end.
Proof.
  induction items as [|[t' task'] items IH]; simpl; [done|].
  intros [Ht Hnd]%NoDup_cons. unfold dependents_of in *. simpl.
  rewrite count_occ_app, IH by done.
  destruct (Z.eqb_spec t t') as [->|Hne].
  - rewrite count_occ_repeat_eq by done.
    destruct (get t' items) eqn:Hg; [by apply get_Some_keys in Hg|lia].
  - rewrite count_occ_repeat_neq by done. done.
Qed.

End GraphFacts.

(** ** Counting unfinished dependencies *)

Section PendingFacts.

Import PyDict State Controller Graph.

Lemma pending_empty deps : pending ∅ deps = length deps.
Proof.
  unfold pending. induction deps as [|d deps IH]; [done|].
  rewrite filter_cons_True by set_solver. simpl. by rewrite IH.
Qed.

Lemma pending_zero completed deps :
  pending completed deps = O ↔ ∀ d, d ∈ deps → d ∈ completed.
Proof.
  unfold pending. induction deps as [|d deps IH].
  - split; [|done]. intros _ d Hd. by apply elem_of_nil in Hd.
  - destruct (decide (d ∈ completed)) as [Hd|Hd].
    + rewrite filter_cons_False by (intros Hn; by apply Hn). rewrite IH.
      split; [intros Hall x [->|?]%elem_of_cons; auto|].
      intros Hall x Hx. apply Hall. by right.
    + rewrite filter_cons_True by done. simpl. split; [done|].
      intros Hall. destruct Hd. apply Hall. left.
Qed.

Lemma pending_add n completed deps :
  n ∉ completed →
  (pending ({[n]} ∪ completed) deps + count_occ Z.eq_dec deps n)%nat
  = pending completed deps.
Proof.
  intros Hn. unfold pending. induction deps as [|d deps IH]; [done|].
  destruct (decide (d ∈ completed)) as [Hd|Hd].
  - rewrite !filter_cons_False by (intros Hx; apply Hx; set_solver).
    rewrite count_occ_cons_neq by (intros ->; done). exact IH.
  - rewrite (filter_cons_True (λ d, d ∉ completed)) by done.
    destruct (decide (d = n)) as [->|Hne].
    + rewrite filter_cons_False by (intros Hx; apply Hx; set_solver).
      rewrite count_occ_cons_eq by done. simpl. lia.
    + rewrite filter_cons_True
        by (intros [Hx%elem_of_singleton|Hx]%elem_of_union; done).
      rewrite count_occ_cons_neq by done. simpl. lia.
Qed.

Lemma release_spec dependents (indeg : dict Z) (q : list Z) :
  (∀ t, t ∈ dependents → t ∈ keys indeg) →
  (∀ t n, get t indeg = Some n →
          Z.of_nat (count_occ Z.eq_dec dependents t) ≤ n) →
  ∃ indeg' extra,
    release dependents indeg q = Some (indeg', q ++ extra)
    ∧ keys indeg' = keys indeg
    ∧ (∀ t n, get t indeg = Some n →
         get t indeg' = Some (n - Z.of_nat (count_occ Z.eq_dec dependents t)))
    ∧ NoDup extra
    ∧ (∀ t, t ∈ extra ↔
            ∃ n, get t indeg = Some n ∧ 1 ≤ n
                 ∧ n = Z.of_nat (count_occ Z.eq_dec dependents t)).
Proof.
  revert indeg q. induction dependents as [|d rest IH]; intros indeg q Hkeys Hle.
  - exists indeg, []. simpl. rewrite app_nil_r. repeat split.
    + intros t n ->. f_equal. lia.
    + constructor.
    + by intros ?%elem_of_nil.
    + intros (n & _ & ? & ?). lia.
  - cbn [release]. destruct (keys_get d indeg) as [n Hn]; [apply Hkeys; left|].
    rewrite Hn. pose proof (Hle d n Hn) as Hdn.
    rewrite count_occ_cons_eq in Hdn by done.
    set (indeg1 := set d (n - 1) indeg).
    assert (keys indeg1 = keys indeg) as Hk1.
    { apply keys_set_present. by eapply get_Some_keys. }
    assert (∀ t, t ∈ rest → t ∈ keys indeg1) as Hkeys1.
    { intros t Ht. rewrite Hk1. apply Hkeys. by right. }
    assert (∀ t m, get t indeg1 = Some m →
                   Z.of_nat (count_occ Z.eq_dec rest t) ≤ m) as Hle1.
    { intros t m. unfold indeg1. destruct (decide (d = t)) as [->|Hne].
      - rewrite get_set_eq. intros [= <-]. lia.
      - rewrite get_set_ne by done. intros Hm. specialize (Hle t m Hm).
        rewrite count_occ_cons_neq in Hle by done. done. }
    assert (∀ t m, get t indeg = Some m →
              ∀ indeg', (∀ t m, get t indeg1 = Some m →
                 get t indeg' = Some (m - Z.of_nat (count_occ Z.eq_dec rest t))) →
              get t indeg' = Some (m - Z.of_nat (count_occ Z.eq_dec (d :: rest) t)))
      as Hval.
    { intros t m Hm indeg' Hget. destruct (decide (d = t)) as [->|Hne].
      - rewrite (Hget t (n - 1)) by apply get_set_eq.
        rewrite count_occ_cons_eq by done. f_equal. replace m with n by congruence. lia.
      - rewrite (Hget t m) by (unfold indeg1; by rewrite get_set_ne).
        by rewrite count_occ_cons_neq. }
    destruct (Z.eqb_spec (n - 1) 0) as [Hz|Hz].
    + destruct (IH indeg1 (q ++ [d]) Hkeys1 Hle1)
        as (indeg' & extra & -> & Hk & Hget & Hnd & Hin).
      exists indeg', (d :: extra). rewrite <- app_assoc. cbn [app].
      split; [done|]. split; [congruence|]. split; [eauto|]. split.
      * apply NoDup_cons. split; [|done]. intros (m & Hm & ? & _)%Hin.
        unfold indeg1 in Hm. rewrite get_set_eq in Hm. injection Hm as <-. lia.
      * intros t. rewrite elem_of_cons, Hin. destruct (decide (d = t)) as [->|Hne].
        -- split; [intros _|by left]. exists n. rewrite count_occ_cons_eq by done.
           split; [done|]. lia.
        -- unfold indeg1. rewrite get_set_ne by done.
           rewrite count_occ_cons_neq by done. split; [intros [?|?]; [congruence|done]|].
           by right.
    + destruct (IH indeg1 q Hkeys1 Hle1)
        as (indeg' & extra & -> & Hk & Hget & Hnd & Hin).
      exists indeg', extra.
      split; [done|]. split; [congruence|]. split; [eauto|]. split; [done|].
      intros t. rewrite Hin. destruct (decide (d = t)) as [->|Hne].
      * unfold indeg1. rewrite get_set_eq, count_occ_cons_eq by done. split.
        -- intros (m & [= <-] & ? & ?). exists n. split; [done|]. lia.
        -- intros (m & Hm & ? & ?). exists (n - 1). split; [done|].
           replace m with n in * by congruence. lia.
      * unfold indeg1. rewrite get_set_ne by done.
        by rewrite count_occ_cons_neq.
Qed.

Lemma release_appends dependents (indeg : dict Z) (q : list Z) indeg' q' :
  release dependents indeg q = Some (indeg', q') → ∃ extra, q' = q ++ extra.
Proof.
  revert indeg q. induction dependents as [|d rest IH]; intros indeg q; simpl.
  - intros [= <- <-]. exists []. by rewrite app_nil_r.
  - destruct (get d indeg) as [n|]; [|done].
    destruct (n - 1 =? 0).
    + intros [extra ->]%IH. exists (d :: extra). by rewrite <- app_assoc.
    + apply IH.
Qed.

End PendingFacts.

(** ** The invariant of the scheduling loop *)

Section SchedulerInvariant.

Import PyDict State Controller Graph.
Context {W : Type}.
Variable execute_step : Z → step → gset Z → W → (string * option string) * W.
Variable steps : dict step.
Variable adj_list : dict (list Z).
Variable total_steps : nat.

Variable R : W → gset Z → Prop.

#[local] Abbreviation Inv := (Graph.Inv steps R).
#[local] Abbreviation Post := (Graph.Post steps total_steps R).

Hypothesis steps_NoDup : NoDup (keys steps).
Hypothesis adj_keys : keys adj_list = keys steps.
Hypothesis adj_count : ∀ k L t,
  get k adj_list = Some L →
  count_occ Z.eq_dec L t =
  match get t steps with
  | Some task => count_occ Z.eq_dec (dependencies task) k
  | None => O
  end.
Hypothesis R_step : ∀ n task c w,
  get n steps = Some task →
  (∀ d, d ∈ dependencies task → d ∈ c) →
  R w c →
  let r := execute_step n task c w in
  if String.eqb r.1.1 "success" then R r.2 ({[n]} ∪ c) else R r.2 c.

Lemma keys_after (st : list call) (c : call) (q : list Z) :
  (called <$> (st ++ [c])) ++ q = (called <$> st) ++ called c :: q.
Proof. by rewrite fmap_app, <- app_assoc. Qed.

Lemma inv_pop s n q :
  Inv s → queue s = n :: q →
  ∃ task, get n steps = Some task
          ∧ (∀ d, d ∈ dependencies task → d ∈ completed_steps s)
          ∧ n ∉ completed_steps s.
Proof.
  intros HI Hq.
  assert (n ∈ (called <$> started s) ++ queue s) as Hn.
  { rewrite Hq. apply elem_of_app. right. left. }
  destruct (keys_get n steps) as [task Htask]; [by apply (inv_known s HI)|].
  exists task. split; [done|]. split.
  - apply pending_zero. by apply (inv_ready s HI n task).
  - intros (c & Hc & Hcn & _)%(inv_completed s HI).
    pose proof (inv_nodup s HI) as Hnd. rewrite Hq in Hnd.
    apply NoDup_app in Hnd as (_ & Hdisj & _).
    apply (Hdisj n); [|left]. apply list_elem_of_fmap. by exists c.
Qed.

Lemma inv_before_snoc (st : list call) (new : call) :
  (∀ i c x, st !! i = Some c → x ∈ given c →
            ∃ j c', (j < i)%nat ∧ st !! j = Some c' ∧ called c' = x) →
  (∀ x, x ∈ given new → ∃ c', c' ∈ st ∧ called c' = x) →
  ∀ i c x, (st ++ [new]) !! i = Some c → x ∈ given c →
           ∃ j c', (j < i)%nat ∧ (st ++ [new]) !! j = Some c' ∧ called c' = x.
Proof.
  intros Hold Hnew i c x Hi Hx.
  apply lookup_app_Some in Hi as [Hi|[Hlen Hi]].
  - destruct (Hold i c x Hi Hx) as (j & c' & Hj & Hc' & Hcx).
    exists j, c'. split; [done|]. split; [|done]. by apply lookup_app_l_Some.
  - apply list_lookup_singleton_Some in Hi as [Hi <-].
    destruct (Hnew x Hx) as (c' & [j Hj]%list_elem_of_lookup & Hcx).
    exists j, c'. pose proof (lookup_lt_Some _ _ _ Hj).
    split; [lia|]. split; [|done]. by apply lookup_app_l_Some.
Qed.

(** A step that does not succeed leaves everything but the queue head. *)
Lemma inv_other s n q task result w :
  Inv s → queue s = n :: q → get n steps = Some task →
  result ≠ "success" → R w (completed_steps s) →
  Inv {| queue := q; completed_steps := completed_steps s;
         in_degree := in_degree s;
         last_main_executable := last_main_executable s;
         surroundings := w;
         started := started s ++ [{| called := n; given := completed_steps s;
                                     returned := result |}] |}.
Proof.
  intros HI Hq Htask Hres HR.
  destruct (inv_pop s n q HI Hq) as (task' & Htask' & Hdeps & Hnc).
  replace task' with task in * by congruence.
  split; simpl.
  - apply (inv_keys s HI).
  - apply (inv_degree s HI).
  - rewrite keys_after. simpl. rewrite <- Hq. apply (inv_nodup s HI).
  - rewrite keys_after. simpl. rewrite <- Hq. apply (inv_known s HI).
  - rewrite keys_after. simpl. rewrite <- Hq. apply (inv_ready s HI).
  - intros m. rewrite (inv_completed s HI). split.
    + intros (c & Hc & ?). exists c. split; [|done]. apply elem_of_app. by left.
    + intros (c & [Hc|Hc]%elem_of_app & Hcm & Hcr).
      * by exists c.
      * apply list_elem_of_singleton in Hc. subst c. simpl in Hcr. done.
  - intros c task0 [Hc|Hc]%elem_of_app Hg.
    + by apply (inv_deps s HI).
    + apply list_elem_of_singleton in Hc. subst c. simpl in *.
      replace task0 with task by congruence. done.
  - apply inv_before_snoc; [apply (inv_before s HI)|]. simpl.
    intros x (c & Hc & Hcx & _)%(inv_completed s HI). by exists c.
  - done.
Qed.

(** A step that succeeds releases its dependents. *)
Lemma inv_success s n q task w main :
  Inv s → queue s = n :: q → get n steps = Some task →
  R w ({[n]} ∪ completed_steps s) →
  ∃ dependents indeg' extra,
    get n adj_list = Some dependents
    ∧ release dependents (in_degree s) q = Some (indeg', q ++ extra)
    ∧ Inv {| queue := q ++ extra;
             completed_steps := {[n]} ∪ completed_steps s;
             in_degree := indeg';
             last_main_executable := main;
             surroundings := w;
             started := started s ++ [{| called := n; given := completed_steps s;
                                         returned := "success" |}] |}.
Proof.
  intros HI Hq Htask HR.
  destruct (inv_pop s n q HI Hq) as (tk & Htk & Hdeps & Hnc).
  replace tk with task in * by congruence. clear tk Htk.
  destruct (keys_get n adj_list) as [L HL].
  { rewrite adj_keys. by eapply get_Some_keys. }
  assert (∀ t task', get t steps = Some task' →
            count_occ Z.eq_dec L t = count_occ Z.eq_dec (dependencies task') n)
    as Hcount.
  { intros t task' Ht. rewrite (adj_count n L t HL). by rewrite Ht. }
  destruct (release_spec L (in_degree s) q)
    as (indeg' & extra & Hrel & Hk & Hget & Hnd & Hin).
  { intros t Ht. rewrite (inv_keys s HI).
    destruct (get t steps) as [task'|] eqn:Hgt; [by eapply get_Some_keys|].
    pose proof (adj_count n L t HL) as Hc. rewrite Hgt in Hc.
    apply list_elem_of_In in Ht.
    apply (count_occ_In Z.eq_dec) in Ht. lia. }
  { intros t m Hm.
    destruct (get t steps) as [task'|] eqn:Hgt.
    - rewrite (inv_degree s HI t task' Hgt) in Hm. injection Hm as <-.
      rewrite (Hcount t task' Hgt).
      pose proof (pending_add n (completed_steps s) (dependencies task') Hnc). lia.
    - apply get_Some_keys in Hm. rewrite (inv_keys s HI) in Hm.
      apply keys_get in Hm as [? ?]. congruence. }
  exists L, indeg', extra. split; [done|]. split; [done|].
  assert (∀ t task', get t steps = Some task' →
            get t indeg' = Some (Z.of_nat
              (pending ({[n]} ∪ completed_steps s) (dependencies task'))))
    as Hdeg.
  { intros t task' Ht.
    rewrite (Hget t _ (inv_degree s HI t task' Ht)), (Hcount t task' Ht).
    pose proof (pending_add n (completed_steps s) (dependencies task') Hnc).
    f_equal. lia. }
  assert (∀ t, t ∈ extra ↔
            ∃ task', get t steps = Some task'
              ∧ pending (completed_steps s) (dependencies task') ≠ O
              ∧ pending ({[n]} ∪ completed_steps s) (dependencies task') = O)
    as Hextra.
  { intros t. rewrite Hin. split.
    - intros (m & Hm & H1 & Hmc).
      destruct (get t steps) as [task'|] eqn:Hgt.
      + exists task'. split; [done|].
        rewrite (inv_degree s HI t task' Hgt) in Hm. injection Hm as <-.
        rewrite (Hcount t task' Hgt) in Hmc.
        pose proof (pending_add n (completed_steps s) (dependencies task') Hnc). lia.
      + apply get_Some_keys in Hm. rewrite (inv_keys s HI) in Hm.
        apply keys_get in Hm as [? ?]. congruence.
    - intros (task' & Ht & Hp & Hp').
      exists (Z.of_nat (pending (completed_steps s) (dependencies task'))).
      split; [by apply (inv_degree s HI)|]. rewrite (Hcount t task' Ht).
      pose proof (pending_add n (completed_steps s) (dependencies task') Hnc). lia. }
  split; simpl.
  - by rewrite Hk, (inv_keys s HI).
  - exact Hdeg.
  - rewrite keys_after. simpl. rewrite app_comm_cons, app_assoc, <- Hq.
    apply NoDup_app. split; [apply (inv_nodup s HI)|]. split; [|done].
    intros t Ht (task' & Hgt & Hp & _)%Hextra.
    by apply (inv_ready s HI t task' Hgt) in Ht.
  - rewrite keys_after. simpl. rewrite app_comm_cons, app_assoc, <- Hq.
    intros t [Ht|Ht]%elem_of_app; [by apply (inv_known s HI)|].
    apply Hextra in Ht as (task' & Hgt & _). by eapply get_Some_keys.
  - intros t task' Hgt. rewrite keys_after. simpl.
    rewrite app_comm_cons, app_assoc, <- Hq. rewrite elem_of_app.
    rewrite (inv_ready s HI t task' Hgt), Hextra.
    pose proof (pending_add n (completed_steps s) (dependencies task') Hnc).
    split.
    + intros [Hz|(task2 & Hg2 & _ & Hz)]; [lia|]. congruence.
    + intros Hz.
      destruct (decide (pending (completed_steps s) (dependencies task') = O));
        [by left|right]. by exists task'.
  - intros m. rewrite elem_of_union, elem_of_singleton, (inv_completed s HI). split.
    + intros [->|(c & Hc & ?)].
      * eexists. split; [apply elem_of_app; right; left|]. done.
      * exists c. split; [|done]. apply elem_of_app. by left.
    + intros (c & [Hc|Hc]%elem_of_app & Hcm & Hcr).
      * right. by exists c.
      * apply list_elem_of_singleton in Hc. subst c. simpl in Hcm. by left.
  - intros c task0 [Hc|Hc]%elem_of_app Hg.
    + by apply (inv_deps s HI).
    + apply list_elem_of_singleton in Hc. subst c. simpl in *.
      replace task0 with task by congruence. done.
  - apply inv_before_snoc; [apply (inv_before s HI)|]. simpl.
    intros x (c & Hc & Hcx & _)%(inv_completed s HI). by exists c.
  - done.
Qed.

Lemma inv_bound s :
  Inv s → (length (started s) + length (queue s) ≤ length (keys steps))%nat.
Proof.
  intros HI.
  pose proof (submseteq_length _ _
                (NoDup_submseteq _ _ (inv_nodup s HI) (inv_known s HI))) as Hlen.
  rewrite List.length_app, length_fmap in Hlen. done.
Qed.

(** The loop ends, with fuel to spare, in a state that satisfies the
    invariant. *)
Lemma run_queue_post fuel s :
  Inv s → (length (keys steps) < fuel + length (started s))%nat →
  Post (run_queue execute_step fuel steps adj_list total_steps s).1
       (run_queue execute_step fuel steps adj_list total_steps s).2.
Proof.
  revert s. induction fuel as [|fuel IH]; intros s HI Hfuel.
  { pose proof (inv_bound s HI). lia. }
  simpl. destruct (queue s) as [|n q] eqn:Hq.
  { case_bool_decide; simpl; (split; [done|]); repeat split; done. }
  destruct (inv_pop s n q HI Hq) as (task & Htask & Hdeps & Hnc).
  rewrite Htask.
  pose proof (R_step n task (completed_steps s) (surroundings s) Htask Hdeps
                (inv_world s HI)) as HR.
  destruct (execute_step n task (completed_steps s) (surroundings s))
    as [[result main] w] eqn:Hexec.
  simpl in HR.
  destruct (String.eqb_spec result "success") as [->|Hres].
  - destruct (inv_success s n q task w
                (if PyStr.truthy main then main else last_main_executable s)
                HI Hq Htask HR)
      as (L & indeg' & extra & HL & Hrel & HI').
    rewrite HL, Hrel. apply IH; [done|]. simpl. rewrite List.length_app. simpl. lia.
  - pose proof (inv_other s n q task result w HI Hq Htask Hres HR) as HI'.
    destruct (String.eqb result "aborted" || String.eqb result "skipped") eqn:Hstop.
    + simpl. split; [done|]. split.
      * eexists. split; [apply elem_of_app; right; left|]. done.
      * apply orb_true_iff in Hstop as [?%String.eqb_eq|?%String.eqb_eq]; auto.
    + apply IH; [done|]. simpl. rewrite List.length_app. simpl. lia.
Qed.

(** The queue is served first in, first out: what is executed from a
    state on starts with the queue of that state, or stops inside it. *)
Lemma run_queue_fifo fuel s :
  ∃ l, called <$> started (run_queue execute_step fuel steps adj_list total_steps s).2
       = (called <$> started s) ++ l
       ∧ (l `prefix_of` queue s ∨ queue s `prefix_of` l)
       ∧ (∀ o, (run_queue execute_step fuel steps adj_list total_steps s).1 = o →
               o = AllCompleted ∨ (∃ c t, o = ScheduleIncomplete c t) →
               queue s `prefix_of` l).
Proof.
  revert s. induction fuel as [|fuel IH]; intros s.
  { exists []. simpl. rewrite app_nil_r. split; [done|]. split.
    - left. apply prefix_nil.
    - intros o <- [?|(? & ? & ?)]; done. }
  simpl. destruct (queue s) as [|n q] eqn:Hq.
  { exists []. simpl. rewrite app_nil_r. split; [done|]. split; [by left|done]. }
  assert (∃ l, called <$> started s = (called <$> started s) ++ l
               ∧ (l `prefix_of` n :: q ∨ n :: q `prefix_of` l)
               ∧ (∀ o, KeyError = o →
                       o = AllCompleted ∨ (∃ c t, o = ScheduleIncomplete c t) →
                       n :: q `prefix_of` l)) as Hstop.
  { exists []. rewrite app_nil_r. split; [done|]. split.
    - left. apply prefix_nil.
    - intros o <- [?|(? & ? & ?)]; done. }
  destruct (get n steps) as [task|]; [|exact Hstop].
  destruct (execute_step n task (completed_steps s) (surroundings s))
    as [[result main] w].
  assert (∀ s' extra,
            called <$> started s' = (called <$> started s) ++ [n] →
            queue s' = q ++ extra →
            ∃ l, called <$> started
                   (run_queue execute_step fuel steps adj_list total_steps s').2
                 = (called <$> started s) ++ l
                 ∧ (l `prefix_of` n :: q ∨ n :: q `prefix_of` l)
                 ∧ (∀ o, (run_queue execute_step fuel steps adj_list total_steps s').1 = o →
                         o = AllCompleted ∨ (∃ c t, o = ScheduleIncomplete c t) →
                         n :: q `prefix_of` l)) as Hnext.
  { intros s' extra Hst Hqueue.
    destruct (IH s') as (l & Hl & Hpre & Hend).
    exists (n :: l). rewrite Hl, Hst, <- app_assoc. split; [done|]. split.
    - rewrite Hqueue in Hpre. destruct Hpre as [Hpre|Hpre].
      + destruct (prefix_weak_total l q (q ++ extra) Hpre (prefix_app_r q q extra (reflexivity _)))
          as [?|?]; [left|right]; by apply prefix_cons.
      + right. apply prefix_cons. by eapply prefix_app_l.
    - intros o Ho Hfin. apply prefix_cons.
      specialize (Hend o Ho Hfin). rewrite Hqueue in Hend. by eapply prefix_app_l. }
  destruct (String.eqb result "success").
  - destruct (get n adj_list) as [L|]; [|exact Hstop].
    destruct (release L (in_degree s) q) as [[indeg' q']|] eqn:Hrel; [|exact Hstop].
    destruct (release_appends _ _ _ _ _ Hrel) as [extra ->].
    apply (Hnext _ extra); [|done]. simpl. by rewrite fmap_app.
  - destruct (String.eqb result "aborted" || String.eqb result "skipped").
    + exists [n]. simpl. rewrite fmap_app. split; [done|]. split.
      * left. apply prefix_cons, prefix_nil.
      * intros o <- [?|(? & ? & ?)]; done.
    + apply (Hnext _ []); simpl.
      * by rewrite fmap_app.
      * by rewrite app_nil_r.
Qed.

(** *** Dependency cycles *)

Lemma started_before s a b :
  Inv s → tc (depends_on steps) a b →
  ∀ i c, started s !! i = Some c → called c = a →
         ∃ j c', (j < i)%nat ∧ started s !! j = Some c' ∧ called c' = b.
Proof.
  intros HI. induction 1 as [a b (task & Ha & Hb)|a y b (task & Ha & Hy) _ IH];
    intros i c Hi Hc.
  - apply (inv_before s HI i c b Hi).
    apply (inv_deps s HI c task); [by eapply list_elem_of_lookup_2|by rewrite Hc|done].
  - destruct (inv_before s HI i c y Hi) as (j & c' & Hj & Hc' & Hcy).
    { apply (inv_deps s HI c task);
        [by eapply list_elem_of_lookup_2|by rewrite Hc|done]. }
    destruct (IH j c' Hc' Hcy) as (j' & c'' & ? & ? & ?).
    exists j', c''. split; [lia|done].
Qed.

Lemma cycle_not_started s x :
  Inv s → on_cycle steps x → x ∉ called <$> started s.
Proof.
  intros HI Hx (c & Hcx & [i Hi]%list_elem_of_lookup)%list_elem_of_fmap.
  destruct (started_before s x x HI Hx i c Hi (eq_sym Hcx)) as (j & c' & Hj & Hc' & Hcx').
  pose proof (inv_nodup s HI) as Hnd. apply NoDup_app in Hnd as (Hnd & _).
  assert (i = j); [|lia].
  apply (NoDup_lookup _ i j x Hnd); rewrite list_lookup_fmap.
  - by rewrite Hi, Hcx.
  - by rewrite Hc', <- Hcx'.
Qed.

Lemma started_NoDup s : Inv s → NoDup (called <$> started s).
Proof.
  intros HI. pose proof (inv_nodup s HI) as Hnd.
  by apply NoDup_app in Hnd as (? & _).
Qed.

Lemma completed_started s n :
  Inv s → n ∈ completed_steps s → n ∈ called <$> started s.
Proof.
  intros HI (c & Hc & Hcn & _)%(inv_completed s HI).
  apply list_elem_of_fmap. by exists c.
Qed.

Lemma completed_lt s x :
  Inv s → x ∈ keys steps → x ∉ called <$> started s →
  (size (completed_steps s) < length (keys steps))%nat.
Proof.
  intros HI Hx Hns.
  assert (size (completed_steps s) ≤ length (called <$> started s))%nat as H1.
  { rewrite <- (size_list_to_set (C:=gset Z)) by by apply started_NoDup.
    apply subseteq_size. intros n Hn. apply elem_of_list_to_set.
    by apply completed_started. }
  assert (NoDup (x :: (called <$> started s))) as Hnd.
  { apply NoDup_cons. split; [done|by apply started_NoDup]. }
  pose proof (submseteq_length _ (keys steps) (NoDup_submseteq _ _ Hnd
    (λ t Ht, match proj1 (elem_of_cons _ _ _) Ht with
             | or_introl e => eq_ind_r (λ t, t ∈ keys steps) Hx e
             | or_intror Hin => inv_known s HI t (proj2 (elem_of_app _ _ _) (or_introl Hin))
             end))) as H2.
  simpl in H2. lia.
Qed.

(** If the loop has ended with an empty queue and every call succeeded,
    a step that was not started has a dependency that was not started. *)
Lemma unstarted_has_unstarted_dependency s u :
  Inv s → queue s = [] →
  (∀ c, c ∈ started s → returned c = "success") →
  no_dangling steps →
  u ∈ keys steps → u ∉ called <$> started s →
  ∃ v, depends_on steps u v ∧ v ∈ keys steps ∧ v ∉ called <$> started s.
Proof.
  intros HI Hq Hok Hdang Hu Hns.
  destruct (keys_get u steps Hu) as [task Htask].
  assert (pending (completed_steps s) (dependencies task) ≠ O) as Hp.
  { intros Hz. apply Hns. apply (inv_ready s HI u task Htask) in Hz.
    by rewrite Hq, app_nil_r in Hz. }
  unfold pending in Hp.
  destruct (filter (λ d, d ∉ completed_steps s) (dependencies task))
    as [|v rest] eqn:Hf; [done|].
  assert (v ∈ filter (λ d, d ∉ completed_steps s) (dependencies task)) as Hv.
  { rewrite Hf. left. }
  apply list_elem_of_filter in Hv as [Hvc Hvd].
  exists v. split; [by exists task|]. split; [by eapply Hdang|].
  intros (c & Hcv & Hc)%list_elem_of_fmap. apply Hvc.
  apply (inv_completed s HI). exists c. auto.
Qed.

End SchedulerInvariant.

(** ** Endless descent in a finite set closes a cycle *)

Section Descent.

Variable Rel : Z → Z → Prop.

#[local] Abbreviation walk := (Graph.walk Rel).

Lemma walk_suffix l1 l2 : walk (l1 ++ l2) → walk l2.
Proof.
  induction l1 as [|b l1 IH]; [done|]. simpl.
  destruct (l1 ++ l2) eqn:Heq; [|intros [_ ?]; auto].
  intros _. destruct l1; [|done]. simpl in Heq. by subst.
Qed.

Lemma walk_tc l b a rest : walk (b :: l ++ a :: rest) → tc Rel a b.
Proof.
  revert b. induction l as [|c l IH]; intros b; simpl.
  - intros [? _]. by apply tc_once.
  - intros [Hcb Hw]. eapply tc_r; [by apply IH|done].
Qed.

Lemma repeated_element (l : list Z) :
  NoDup l ∨ ∃ x l1 l2 l3, l = l1 ++ x :: l2 ++ x :: l3.
Proof.
  induction l as [|a l [IH|(x & l1 & l2 & l3 & ->)]].
  - left. constructor.
  - destruct (decide (a ∈ l)) as [Ha|Ha].
    + right. apply list_elem_of_split in Ha as (l2 & l3 & ->).
      by exists a, [], l2, l3.
    + left. by constructor.
  - right. by exists x, (a :: l1), l2, l3.
Qed.

Lemma finite_descent (P : Z → Prop) (universe : list Z) :
  (∀ u, P u → u ∈ universe) →
  (∀ u, P u → ∃ v, Rel u v ∧ P v) →
  ∀ u, P u → ∃ x, tc Rel x x.
Proof.
  intros Hfin Hnext u Hu.
  assert (∀ n : nat, ∃ l, length l = S n ∧ walk l ∧ Forall P l) as Hwalks.
  { induction n as [|n (l & Hlen & Hw & HP)].
    - exists [u]. repeat split. by constructor.
    - destruct l as [|b rest]; [done|].
      destruct (Hnext b) as (v & Hbv & Hv); [by inversion HP|].
      exists (v :: b :: rest). split; [simpl in *; lia|]. split; [done|].
      by constructor. }
  destruct (Hwalks (length universe)) as (l & Hlen & Hw & HP).
  destruct (repeated_element l) as [Hnd|(x & l1 & l2 & l3 & ->)].
  - assert (length l ≤ length universe)%nat; [|lia].
    apply submseteq_length, NoDup_submseteq; [done|].
    intros t Ht. apply Hfin. by eapply Forall_forall.
  - exists x. apply walk_suffix in Hw. by eapply walk_tc.
Qed.

End Descent.

(** ** From the task list to the loop *)

Section SchedulerSetup.

Import PyDict State Controller Graph.
Context {W : Type}.
Variable execute_step : Z → step → gset Z → W → (string * option string) * W.

Lemma keys_map_values {A B} (g : A → B) (d : dict A) :
  keys (map (λ '(k, v), (k, g v)) d) = keys d.
Proof. induction d as [|[k v] d IH]; simpl; [done|]. by rewrite IH. Qed.

Lemma get_map_values {A B} (g : A → B) (d : dict A) k :
  get k (map (λ '(k, v), (k, g v)) d) = g <$> get k d.
Proof.
  induction d as [|[k' v] d IH]; simpl; [done|].
  destruct (k =? k'); [done|exact IH].
Qed.

Lemma ready_elem (d : dict Z) t :
  NoDup (keys d) →
  t ∈ map fst (List.filter (λ '(_, degree), degree =? 0) d) ↔ get t d = Some 0.
Proof.
  induction d as [|[k n] d IH]; simpl.
  - intros _. split; [by intros ?%elem_of_nil|done].
  - intros [Hk Hd]%NoDup_cons. destruct (Z.eqb_spec t k) as [->|Hne].
    + destruct (Z.eqb_spec n 0) as [->|Hn]; simpl.
      * split; [done|]. intros _. left.
      * rewrite IH by done. split; [|congruence].
        intros Hg. by apply get_Some_keys in Hg.
    + destruct (n =? 0); simpl; rewrite ?elem_of_cons, IH by done; [|done].
      split; [intros [?|?]; [done|done]|by right].
Qed.

Lemma ready_NoDup (d : dict Z) :
  NoDup (keys d) → NoDup (map fst (List.filter (λ '(_, degree), degree =? 0) d)).
Proof.
  induction d as [|[k n] d IH]; simpl; [constructor|].
  intros [Hk Hd]%NoDup_cons. destruct (n =? 0); simpl; [|auto].
  apply NoDup_cons. split; [|auto].
  intros Hin. apply Hk. apply (ready_elem d k Hd) in Hin. by eapply get_Some_keys.
Qed.

(** Without dangling references the graph is built, and this is what it
    holds. *)
Lemma graph_ready tasks :
  let steps := steps_dict tasks in
  no_dangling steps →
  ∃ adj indeg,
    build_graph steps (map (λ '(step_num, _), (step_num, [])) steps)
      (map (λ '(step_num, _), (step_num, 0)) steps) = inr (adj, indeg)
    ∧ keys adj = keys steps
    ∧ (∀ k L t, get k adj = Some L →
         count_occ Z.eq_dec L t =
         match get t steps with
         | Some task => count_occ Z.eq_dec (dependencies task) k
         | None => O
         end)
    ∧ indeg = map (λ '(k, task), (k, Z.of_nat (length (dependencies task)))) steps.
Proof.
  intros steps Hdang.
  pose proof (keys_steps_dict_NoDup tasks) as Hnd. fold steps in Hnd.
  destruct (build_graph_spec steps
              (map (λ '(step_num, _), (step_num, [])) steps)
              (map (λ '(step_num, _), (step_num, 0)) steps))
    as (adj & indeg & Hbuild & Hka & Hki & Hga & Hgi); [done|..].
  { intros t task d Hin Hd. rewrite (keys_map_values (λ _, [])).
    eapply Hdang; [|done]. by apply get_elem_of. }
  { intros t Ht. by rewrite (keys_map_values (λ _, 0)). }
  rewrite (keys_map_values (λ _, [])) in Hka.
  rewrite (keys_map_values (λ _, 0)) in Hki.
  exists adj, indeg. split; [done|]. split; [done|]. split.
  - intros k L t HL.
    destruct (keys_get k steps) as [task Hk].
    { rewrite <- Hka. by eapply get_Some_keys. }
    specialize (Hga k []). rewrite (get_map_values (λ _, [])), Hk in Hga.
    rewrite (Hga eq_refl) in HL. injection HL as <-. simpl.
    by apply count_dependents_of.
  - apply dict_ext.
    + by rewrite Hki.
    + by rewrite Hki, (keys_map_values (λ task, Z.of_nat (length (dependencies task)))).
    + intros k Hk. rewrite Hgi.
      rewrite (get_map_values (λ task, Z.of_nat (length (dependencies task)))).
      rewrite Hki in Hk. destruct (keys_get k steps Hk) as [task ->]. done.
Qed.

Variable R : W → gset Z → Prop.

Lemma initial_inv (steps : dict step) w :
  NoDup (keys steps) → R w ∅ →
  Inv steps R
    (initial_sched
       (map (λ '(k, task), (k, Z.of_nat (length (dependencies task)))) steps) w).
Proof.
  intros Hnd HR.
  set (indeg := map (λ '(k, task), (k, Z.of_nat (length (dependencies task)))) steps).
  assert (keys indeg = keys steps) as Hk
    by apply (keys_map_values (λ task, Z.of_nat (length (dependencies task)))).
  assert (∀ t task, get t steps = Some task →
            get t indeg = Some (Z.of_nat (length (dependencies task)))) as Hget.
  { intros t task Ht. unfold indeg.
    rewrite (get_map_values (λ task, Z.of_nat (length (dependencies task)))).
    by rewrite Ht. }
  split; simpl.
  - done.
  - intros t task Ht. rewrite pending_empty. auto.
  - apply ready_NoDup. by rewrite Hk.
  - intros t Ht. apply ready_elem in Ht; [|by rewrite Hk].
    rewrite <- Hk. by eapply get_Some_keys.
  - intros t task Ht. rewrite ready_elem by (by rewrite Hk).
    rewrite (Hget t task Ht), pending_empty. split; [intros [= ?]; lia|].
    intros ->. done.
  - intros n. split; [set_solver|]. by intros (c & ?%elem_of_nil & _).
  - by intros c task ?%elem_of_nil.
  - intros i c x Hi. by rewrite lookup_nil in Hi.
  - done.
Qed.

(** The run of a non-empty task list without dangling references ends in
    a state that satisfies the invariant. *)
Lemma run_post tasks w :
  (∀ n task c w,
     get n (steps_dict tasks) = Some task →
     (∀ d, d ∈ dependencies task → d ∈ c) →
     R w c →
     let r := execute_step n task c w in
     if String.eqb r.1.1 "success" then R r.2 ({[n]} ∪ c) else R r.2 c) →
  tasks ≠ [] → no_dangling (steps_dict tasks) → R w ∅ →
  Post (steps_dict tasks) (length (steps_dict tasks)) R
       (run_steps_execution_phase execute_step tasks w).1
       (run_steps_execution_phase execute_step tasks w).2.
Proof.
  intros R_step Hne Hdang HR. unfold run_steps_execution_phase.
  destruct tasks as [|task0 tasks']; [done|].
  destruct (graph_ready (task0 :: tasks') Hdang) as (adj & indeg & -> & Hka & Hcount & ->).
  pose proof (keys_steps_dict_NoDup (task0 :: tasks')) as Hnd.
  apply (run_queue_post execute_step); try done.
  - by apply initial_inv.
  - simpl. unfold keys. rewrite length_map. lia.
Qed.

End SchedulerSetup.

(** ** Checks that compute *)

Section Checks.

Import PyDict State Controller Graph.

Lemma no_dangling_b_correct steps : no_dangling_b steps = true → no_dangling steps.
Proof.
  unfold no_dangling_b. rewrite forallb_forall. intros Hall t task d Ht Hd.
  apply elem_of_get, list_elem_of_In in Ht. specialize (Hall _ Ht). simpl in Hall.
  rewrite forallb_forall in Hall. apply list_elem_of_In in Hd.
  specialize (Hall _ Hd). apply existsb_exists in Hall as (k & Hk & ->%Z.eqb_eq).
  by apply list_elem_of_In.
Qed.

Lemma dependencies_below_acyclic steps :
  dependencies_below_b steps = true → ∀ x, ¬ on_cycle steps x.
Proof.
  unfold dependencies_below_b. rewrite forallb_forall. intros Hall x Hx.
  assert (∀ a b, tc (depends_on steps) a b → b < a) as Hlt.
  { induction 1 as [a b (task & Ha & Hb)|a y b (task & Ha & Hy) _ IH].
    - apply elem_of_get, list_elem_of_In in Ha. specialize (Hall _ Ha). simpl in Hall.
      rewrite forallb_forall in Hall. apply list_elem_of_In in Hb.
      specialize (Hall _ Hb). lia.
    - apply elem_of_get, list_elem_of_In in Ha. specialize (Hall _ Ha). simpl in Hall.
      rewrite forallb_forall in Hall. apply list_elem_of_In in Hy.
      specialize (Hall _ Hy). lia. }
  specialize (Hlt x x Hx). lia.
Qed.

End Checks.

(** ** The scheduler *)

Section SchedulerClaims.

Import PyDict State Controller Graph Examples.
Context {W : Type}.
Variable execute_step : Z → step → gset Z → W → (string * option string) * W.

Lemma run_post_plain tasks w :
  tasks ≠ [] → no_dangling (steps_dict tasks) →
  Post (steps_dict tasks) (length (steps_dict tasks)) anything
       (run_steps_execution_phase execute_step tasks w).1
       (run_steps_execution_phase execute_step tasks w).2.
Proof.
  intros Hne Hdang. apply run_post; try done.
  intros n task c w' _ _ _. simpl. by destruct (String.eqb _ _).
Qed.

Lemma on_cycle_key steps x : on_cycle steps x → x ∈ keys steps.
Proof.
  unfold on_cycle. inversion 1 as [? ? (task & Hx & _)|? ? ? (task & Hx & _)];
    by eapply get_Some_keys.
Qed.

(** C1, amended.  For a task mapping without dangling references, the loop
    starts each task at most once, and only with a completed set that holds
    every dependency of the task.  If moreover the mapping has no
    dependency cycle and every started task returns success, every task of
    the mapping is started exactly once. *)
Theorem each_task_once_after_its_dependencies tasks w :
  no_dangling (steps_dict tasks) →
  let r := run_steps_execution_phase execute_step tasks w in
  NoDup (ids r.2)
  ∧ (∀ c task, c ∈ started r.2 →
       get (called c) (steps_dict tasks) = Some task →
       ∀ d, d ∈ dependencies task → d ∈ given c)
  ∧ ((∀ c, c ∈ started r.2 → returned c = "success") →
     (∀ x, ¬ on_cycle (steps_dict tasks) x) →
     ids r.2 ≡ₚ keys (steps_dict tasks)).
Proof.
  intros Hdang r. unfold ids.
  destruct (decide (tasks = [])) as [->|Hne].
  { subst r. simpl. repeat split; try constructor.
    by intros c task ?%elem_of_nil. }
  destruct (run_post_plain tasks w Hne Hdang) as [HI Hout]. fold r in HI, Hout.
  pose proof (keys_steps_dict_NoDup tasks) as Hnd.
  split; [by eapply started_NoDup|]. split; [apply (inv_deps _ HI)|].
  intros Hok Hacyclic.
  assert (queue r.2 = []) as Hq.
  { destruct r.1; try done; try (by destruct Hout as [? _]).
    destruct Hout as [(c & Hc & _ & Hr) [Hs|Hs]]; rewrite (Hok c Hc) in Hr;
      by subst. }
  apply NoDup_Permutation; [by eapply started_NoDup|done|].
  intros u. split.
  - intros Hu. apply (inv_known _ HI). apply elem_of_app. by left.
  - intros Hu. destruct (decide (u ∈ called <$> started r.2)) as [|Hns]; [done|].
    exfalso.
    destruct (finite_descent (depends_on (steps_dict tasks))
                (λ v, v ∈ keys (steps_dict tasks) ∧ v ∉ called <$> started r.2)
                (keys (steps_dict tasks))) with (u := u) as [x Hx].
    + by intros v [? _].
    + intros v [Hv Hvn].
      destruct (unstarted_has_unstarted_dependency _ _ _ v HI Hq Hok Hdang Hv Hvn)
        as (v' & ? & ? & ?).
      by exists v'.
    + done.
    + by apply (Hacyclic x).
Qed.

(** C3, amended.  For a task mapping without dangling references, a task
    on a dependency cycle is never started and the number of completed tasks
    stays below the number of tasks.  Unless a started task returns
    [aborted] or [skipped], which ends the run on the spot, the queue runs
    empty and the run reports that the schedule is incomplete. *)
Theorem cycle_is_never_started tasks w x :
  no_dangling (steps_dict tasks) → on_cycle (steps_dict tasks) x →
  let r := run_steps_execution_phase execute_step tasks w in
  (x ∉ ids r.2)
  ∧ (size (completed_steps r.2) < length (steps_dict tasks))%nat
  ∧ ((∀ c, c ∈ started r.2 → returned c ≠ "aborted" ∧ returned c ≠ "skipped") →
     queue r.2 = []
     ∧ r.1 = ScheduleIncomplete (size (completed_steps r.2))
               (length (steps_dict tasks))).
Proof.
  intros Hdang Hx r. unfold ids.
  pose proof (on_cycle_key _ _ Hx) as Hkey.
  assert (tasks ≠ []) as Hne by (intros ->; by apply elem_of_nil in Hkey).
  destruct (run_post_plain tasks w Hne Hdang) as [HI Hout]. fold r in HI, Hout.
  pose proof (cycle_not_started _ _ _ x HI Hx) as Hns.
  pose proof (completed_lt _ _ _ x HI Hkey Hns) as Hlt.
  unfold keys in Hlt. rewrite length_map in Hlt.
  split; [done|]. split; [done|]. intros Hgo.
  destruct r.1; try done.
  - destruct Hout as [(c & Hc & _ & Hr) Hs]. destruct (Hgo c Hc) as [? ?].
    destruct Hs; congruence.
  - destruct Hout as [_ Hsize]. lia.
  - destruct Hout as (? & -> & -> & _). done.
Qed.

Lemma build_graph_in_degree items (adj : dict (list Z)) (indeg : dict Z) adj' indeg' :
  NoDup (keys items) → (∀ t, t ∈ keys items → t ∈ keys indeg) →
  build_graph items adj indeg = inr (adj', indeg') →
  keys indeg' = keys indeg
  ∧ ∀ k, get k indeg' =
         match get k items with
         | Some task => Some (Z.of_nat (length (dependencies task)))
         | None => get k indeg
         end.
Proof.
  revert adj indeg. induction items as [|[t task] items IH]; intros adj indeg; simpl.
  - intros _ _ [= <- <-]. done.
  - intros [Ht Hnd]%NoDup_cons Hkeys.
    destruct (add_dependents t (dependencies task) adj) as [|adj1]; [done|].
    assert (keys (set t (Z.of_nat (length (dependencies task))) indeg) = keys indeg)
      as Hki by (apply keys_set_present, Hkeys; left).
    intros Hb. apply IH in Hb as [Hk Hg]; [|done|].
    + split; [congruence|]. intros k. rewrite Hg.
      destruct (Z.eqb_spec k t) as [->|Hne].
      * destruct (get t items) eqn:Hgt; [by apply get_Some_keys in Hgt|].
        apply get_set_eq.
      * destruct (get k items); [done|]. by apply get_set_ne.
    + intros t' Ht'. rewrite Hki. apply Hkeys. by right.
Qed.

Lemma ready_without_dependencies (steps : dict step) :
  map fst (List.filter (λ '(_, degree), degree =? 0)
             (map (λ '(k, task), (k, Z.of_nat (length (dependencies task)))) steps))
  = map fst (List.filter (λ '(_, task), bool_decide (dependencies task = [])) steps).
Proof.
  induction steps as [|[k task] steps IH]; simpl; [done|].
  destruct (dependencies task) as [|d deps] eqn:Hd; simpl; by rewrite IH.
Qed.

(** C4, amended.  Ready tasks are executed in the order in which they
    entered the queue, not in the order of their numbers.  From any state
    of the loop on, what is executed next is the queue of that state from
    its head, and a task that becomes ready only then comes after it.  At
    the start the queue holds the tasks without dependencies in the order
    of the input mapping.  In the mapping that lists 1 (no dependencies),
    2 (after 1), 3 (after 1) in this order, task 2 is processed before
    task 3. *)
Theorem ready_tasks_first_in_first_out :
  (∀ fuel steps adj_list total_steps s,
     let r := run_queue execute_step fuel steps adj_list total_steps s in
     ∃ l, ids r.2 = ids s ++ l
          ∧ (l `prefix_of` queue s ∨ queue s `prefix_of` l)
          ∧ (r.1 = AllCompleted ∨ (∃ c t, r.1 = ScheduleIncomplete c t) →
             queue s `prefix_of` l))
  ∧ (∀ tasks w,
       let ready := map fst (List.filter
                      (λ '(_, task), bool_decide (dependencies task = []))
                      (steps_dict tasks)) in
       let r := run_steps_execution_phase execute_step tasks w in
       (ids r.2 `prefix_of` ready ∨ ready `prefix_of` ids r.2)
       ∧ (r.1 = AllCompleted ∨ (∃ c t, r.1 = ScheduleIncomplete c t) →
          ready `prefix_of` ids r.2))
  ∧ ids (run_steps_execution_phase (always "success")
           [task 1 []; task 2 [1]; task 3 [1]] ()).2 = [1; 2; 3].
Proof.
  split; [|split; [|done]].
  - intros fuel steps adj_list total_steps s r. unfold ids.
    destruct (run_queue_fifo execute_step steps adj_list total_steps fuel s)
      as (l & Hl & Hpre & Hend).
    exists l. split; [done|]. split; [done|]. by apply Hend.
  - intros tasks w ready r. subst r. unfold run_steps_execution_phase, ids.
    destruct tasks as [|task0 tasks'].
    { simpl. split; [left; apply prefix_nil|]. intros _. apply prefix_nil. }
    pose proof (keys_steps_dict_NoDup (task0 :: tasks')) as Hnd.
    destruct (build_graph _ _ _) as [[step_num dep_num]|[adj indeg]] eqn:Hbuild.
    { simpl. split; [left; apply prefix_nil|]. intros [?|(? & ? & ?)]; done. }
    apply build_graph_in_degree in Hbuild as [Hk Hg]; [|done|]; cycle 1.
    { intros t Ht. by rewrite (keys_map_values (λ _, 0)). }
    rewrite (keys_map_values (λ _, 0)) in Hk.
    assert (indeg = map (λ '(k, task), (k, Z.of_nat (length (dependencies task))))
                      (steps_dict (task0 :: tasks'))) as ->.
    { apply dict_ext.
      - by rewrite Hk.
      - by rewrite Hk, (keys_map_values (λ task, Z.of_nat (length (dependencies task)))).
      - intros k Hkk. rewrite Hg.
        rewrite (get_map_values (λ task, Z.of_nat (length (dependencies task)))).
        rewrite Hk in Hkk. destruct (keys_get k _ Hkk) as [task ->]. done. }
    destruct (run_queue_fifo execute_step (steps_dict (task0 :: tasks')) adj
                (length (steps_dict (task0 :: tasks')))
                (S (length (steps_dict (task0 :: tasks'))))
                (initial_sched
                   (map (λ '(k, task), (k, Z.of_nat (length (dependencies task))))
                      (steps_dict (task0 :: tasks'))) w))
      as (l & Hl & Hpre & Hend).
    rewrite Hl. cbn [initial_sched started queue fmap list_fmap app] in *.
    subst ready. rewrite ready_without_dependencies in Hpre, Hend.
    split; [done|]. intros Hfin. by eapply Hend.
Qed.

(** C4 as stated fails: two tasks that are ready from the start run in
    the order of the mapping, 3 before 1; and of two tasks released
    together by task 1, the one listed first runs first, 3 before 2. *)
Lemma ready_tasks_not_by_number :
  ids (run_steps_execution_phase (always "success")
         [task 3 []; task 1 []] ()).2 = [3; 1]
  ∧ ids (run_steps_execution_phase (always "success")
           [task 1 []; task 3 [1]; task 2 [1]] ()).2 = [1; 3; 2].
Proof. split; reflexivity. Qed.

End SchedulerClaims.

Section SchedulerExamples.

Import PyDict State Controller Graph Examples.

Lemma each_task_once_example :
  ids (run_steps_execution_phase (always "success")
         [task 1 []; task 2 [1]; task 3 [1]] ()).2 ≡ₚ [1; 2; 3].
Proof.
  apply (proj2 (proj2 (each_task_once_after_its_dependencies (always "success")
                         [task 1 []; task 2 [1]; task 3 [1]] ()
                         (no_dangling_b_correct
                            (steps_dict [task 1 []; task 2 [1]; task 3 [1]])
                            eq_refl)))).
  - apply Forall_forall. vm_compute. repeat constructor.
  - apply dependencies_below_acyclic. reflexivity.
Defined.

(** C1 as stated fails without the proviso on cycles: two tasks that
    depend on each other refer to existing tasks only, no started task
    fails, and yet neither is ever started. *)
Lemma cycle_without_dangling_never_starts :
  let tasks := [task 1 [2]; task 2 [1]] in
  let r := run_steps_execution_phase (always "success") tasks () in
  no_dangling (steps_dict tasks)
  ∧ (∀ c, c ∈ started r.2 → returned c = "success")
  ∧ started r.2 = []
  ∧ ¬ (ids r.2 ≡ₚ keys (steps_dict tasks)).
Proof.
  intros tasks r. split; [by apply no_dangling_b_correct|].
  split; [by intros c ?%elem_of_nil|]. split; [done|].
  intros Hp. apply Permutation_length in Hp. done.
Qed.

Lemma one_depends_on_two_and_back : on_cycle (steps_dict [task 1 [2]; task 2 [1]; task 3 []]) 1.
Proof.
  apply (tc_l _ 1 2 1).
  - exists (task 1 [2]). split; [reflexivity|left].
  - apply tc_once. exists (task 2 [1]). split; [reflexivity|left].
Defined.

Lemma cycle_is_never_started_example :
  let tasks := [task 1 [2]; task 2 [1]; task 3 []] in
  let r := run_steps_execution_phase (always "success") tasks () in
  (1 ∉ ids r.2)
  ∧ (size (completed_steps r.2) < length (steps_dict tasks))%nat
  ∧ ((∀ c, c ∈ started r.2 → returned c ≠ "aborted" ∧ returned c ≠ "skipped") →
     queue r.2 = []
     ∧ r.1 = ScheduleIncomplete (size (completed_steps r.2))
               (length (steps_dict tasks))).
Proof.
  apply (cycle_is_never_started (always "success")
           [task 1 [2]; task 2 [1]; task 3 []] () 1).
  - apply no_dangling_b_correct. reflexivity.
  - exact one_depends_on_two_and_back.
Defined.

(** C3 as stated fails when a task outside the cycle is aborted: the run
    ends there, with the abort report and not the schedule-incomplete one. *)
Lemma aborted_run_with_cycle :
  let tasks := [task 1 []; task 2 [3]; task 3 [2]] in
  let r := run_steps_execution_phase (always "aborted") tasks () in
  no_dangling (steps_dict tasks)
  ∧ on_cycle (steps_dict tasks) 2
  ∧ r.1 = Terminated "aborted" 1 false
  ∧ ∀ c t, r.1 ≠ ScheduleIncomplete c t.
Proof.
  intros tasks r. split; [by apply no_dangling_b_correct|]. split; [|done].
  apply (tc_l _ 2 3 2).
  - exists (task 2 [3]). split; [reflexivity|left].
  - apply tc_once. exists (task 3 [2]). split; [reflexivity|left].
Qed.

End SchedulerExamples.

(** ** The step handler *)

Section HandlerFacts.

Import PyStr Builder State Handler Logs.
Context {E : Type} `{JsonParser} `{StepHandler E}.
#[local] Existing Instances M_ret M_bind.
#[local] Abbreviation wp := (Logs.wp (E:=E)).
#[local] Abbreviation silent := (Logs.silent (E:=E)).
#[local] Abbreviation verified := (Logs.verified (E:=E)).
#[local] Abbreviation attempt_logged := (Logs.attempt_logged (E:=E)).

Lemma wp_ret {A} (a : A) w Ψ : Ψ (Some a) w → wp (ret a) w Ψ.
Proof. done. Qed.

Lemma wp_bind {A B} (m : M A) (k : A → M B) w Ψ :
  wp m w (λ oa w1, match oa with
                   | Some a => wp (k a) w1 Ψ
                   | None => Ψ None w1
                   end) →
  wp (m ≫= k) w Ψ.
Proof. unfold wp, mbind, M_bind. destruct (m w) as [[a|] w1]; simpl; intros HΨ; exact HΨ. Qed.

Lemma wp_call {A} (f : disk → E → A * disk * E) w Ψ :
  (∀ a d e, Ψ (Some a) {| dsk := d; log := log w; ext := e |}) →
  wp (call f) w Ψ.
Proof. intros HΨ. unfold wp, call. destruct (f _ _) as [[a d] e]. apply HΨ. Qed.

Lemma wp_call_result {A} (f : disk → E → A * disk * E) w Ψ :
  (∀ a d e, f (dsk w) (ext w) = (a, d, e) →
            Ψ (Some a) {| dsk := d; log := log w; ext := e |}) →
  wp (call f) w Ψ.
Proof.
  intros HΨ. unfold wp, call. destruct (f _ _) as [[a d] e] eqn:Hf. by apply HΨ.
Qed.

Lemma wp_on_disk f w (Ψ : option () → world E → Prop) :
  Ψ (Some ()) {| dsk := f (dsk w); log := log w; ext := ext w |} →
  wp (on_disk f) w Ψ.
Proof. done. Qed.

Lemma wp_read_disk w (Ψ : option disk → world E → Prop) :
  Ψ (Some (dsk w)) w → wp read_disk w Ψ.
Proof. done. Qed.

Lemma wp_emit e w (Ψ : option () → world E → Prop) :
  Ψ (Some ()) {| dsk := dsk w; log := log w ++ [e]; ext := ext w |} →
  wp (emit e) w Ψ.
Proof. done. Qed.

Lemma wp_wand {A} (m : M A) w (Ψ Φ : option A → world E → Prop) :
  wp m w Ψ → (∀ o w', Ψ o w' → Φ o w') → wp m w Φ.
Proof. unfold wp. auto. Qed.

Lemma wp_silent {A} (m : M A) w Ψ :
  silent m → (∀ o w', log w' = log w → Ψ o w') → wp m w Ψ.
Proof. intros Hm HΨ. apply HΨ, Hm. Qed.

Lemma silent_install_gate n a resp : silent (install_gate n a resp).
Proof.
  intros w. change (wp (install_gate n a resp) w (λ _ w', log w' = log w)).
  unfold install_gate. apply wp_bind, wp_read_disk.
  destruct (attempts (dsk w) !! (n, a) ≫= _) as [text|]; [|by apply wp_ret].
  apply wp_bind, wp_on_disk. case_bool_decide; [|by apply wp_ret].
  apply wp_bind, wp_call. intros [ok stderr] d e.
  destruct ok; by apply wp_ret.
Qed.

Lemma silent_run_unit_tests n a tests : silent (_run_unit_tests n a tests).
Proof.
  intros w. change (wp (_run_unit_tests n a tests) w (λ _ w', log w' = log w)).
  unfold _run_unit_tests. destruct tests; [by apply wp_ret|]. by apply wp_call.
Qed.

Lemma accept_spec n a resp w : wp (accept n a resp) w (verified n a (log w)).
Proof.
  unfold accept, wp, mbind, M_bind, mark_successful, mark_step_as_successful,
    _summarize_successful_step.
  destruct (attempts (dsk w) !! (n, a)) as [tree|] eqn:Ht; simpl.
  - destruct (ask_summary n _ (ext w)) as [[summary|] e]; simpl.
    + right. exists tree. eexists. split; [done|]. split; [done|]. split; [done|].
      split; [done|]. right. exists summary. simpl.
      rewrite lookup_insert_eq. simpl. by rewrite lookup_insert_eq.
    + right. exists tree. eexists. split; [done|]. split; [done|]. split; [done|].
      split; [done|]. left. simpl. by rewrite lookup_insert_eq.
  - left. split; [done|]. intros p. discriminate.
Qed.

Lemma build_and_verify_spec n a resp c w :
  wp (_build_and_verify n a resp c) w (verified n a (log w)).
Proof.
  assert (∀ w' (r : action_result), r.1 ≠ "success" → log w' = log w →
            verified n a (log w) (Some r) w') as Hfail.
  { intros w' [action p] Hr Hl. left. split; [done|]. intros p' [= -> _]. done. }
  unfold _build_and_verify. apply wp_bind, wp_call. intros [approved fb] d e.
  destruct approved; simpl; [|by apply wp_ret, Hfail].
  apply wp_bind, wp_silent; [apply silent_install_gate|]. simpl.
  intros [[feedback|]|] w1 Hw1; [by apply wp_ret, Hfail| |by left].
  apply wp_bind, wp_silent; [apply silent_run_unit_tests|].
  intros [[passed test_feedback]|] w2 Hw2; [|left; split; [congruence|done]].
  destruct passed; simpl; [|apply wp_ret, Hfail; [done|congruence]].
  apply wp_bind, wp_call. intros [action feedback] d3 e3.
  destruct (String.eqb_spec action "success") as [->|Hne].
  - eapply wp_wand; [apply accept_spec|]. simpl. intros o w'.
    by rewrite Hw2, Hw1.
  - destruct (truthy feedback).
    + apply wp_bind, wp_on_disk, wp_ret, Hfail; [done|simpl; congruence].
    + apply wp_ret, Hfail; [done|simpl; congruence].
Qed.

(** *** The log of a step *)

Lemma accepted_app_r n l k : accepted n l → accepted n (l ++ k).
Proof. intros (tree & ? & ?). exists tree. rewrite !elem_of_app. auto. Qed.

Lemma accepted_app_l n l k : accepted n k → accepted n (l ++ k).
Proof. intros (tree & ? & ?). exists tree. rewrite !elem_of_app. auto. Qed.

Lemma no_start_app l k : no_start l → no_start k → no_start (l ++ k).
Proof. intros Hl Hk d c [?|?]%elem_of_app; [by eapply Hl|by eapply Hk]. Qed.

Lemma wp_ask template n a c fb w Ψ :
  (∀ r e, Ψ r {| dsk := dsk w; log := log w; ext := e |}) →
  wp (ask template n a c fb) w Ψ.
Proof. intros HΨ. unfold wp, ask. destruct (ask_generator _ _ _ _ _ _ _). apply HΨ. Qed.

Lemma after_verify_success fb r p :
  after_verify fb r = Return ("success", p) → r.1 = "success".
Proof.
  destruct r as [action payload]. unfold after_verify. simpl.
  destruct (String.eqb_spec action "success"); [done|].
  destruct (_ && _); [done|]. by intros [= ? _].
Qed.

Lemma verified_attempt_logged n a fb L0 pre o w' :
  no_start pre →
  verified n a (L0 ++ pre) o w' →
  match o with
  | Some r => attempt_logged n L0 (Some (after_verify fb r)) w'
  | None => attempt_logged n L0 None w'
  end.
Proof.
  intros Hpre [[Hlog Hns]|(tree & p & -> & Hlog & _)].
  - assert (∀ o', (∀ p, o' = Some (Return ("success", p)) → False) →
              attempt_logged n L0 o' w') as Hno.
    { intros o' Ho'. exists pre. split; [done|]. split; [done|].
      intros p Hp. by destruct (Ho' p). }
    destruct o as [r|]; apply Hno; [|done].
    intros p [= Hp]. apply after_verify_success in Hp.
    destruct r as [action payload]. simpl in Hp. subst. by destruct (Hns payload).
  - exists (pre ++ [SnapshotSaved n tree; LatestUpdated n tree]).
    split; [by rewrite Hlog, <- app_assoc|]. split.
    + apply no_start_app; [done|].
      intros d c [?|[?|?%elem_of_nil]%elem_of_cons]%elem_of_cons; done.
    + intros _ _. apply accepted_app_l. exists tree. split; [left|right; left].
Qed.

Lemma initial_attempt_logged n a fb w :
  wp (initial_attempt n a fb) w (attempt_logged n (log w)).
Proof.
  set (asked := GeneratorAsked "code_generation_step1" n a
                  (feedback_section_of initial_feedback_header fb)).
  assert (no_start [asked]) as Hasked.
  { intros d c [?|?%elem_of_nil]%elem_of_cons; done. }
  assert (no_start [asked; BuildStarted n a]) as Hbuilt.
  { intros d c [?|[?|?%elem_of_nil]%elem_of_cons]%elem_of_cons; done. }
  unfold initial_attempt, generate.
  apply wp_bind, wp_bind, wp_emit, wp_ask. intros [resp|] e.
  2: { exists [asked]. split; [done|]. split; [done|]. done. }
  destruct (_validate_initial_code_response resp) as [[] msg]; simpl.
  2: { apply wp_ret. exists [asked]. split; [done|]. split; [done|]. done. }
  apply wp_bind, wp_on_disk, wp_bind, wp_on_disk, wp_bind, wp_emit, wp_bind,
    wp_read_disk.
  simpl. destruct (build_project_structure _ _) as [[] built].
  2: { apply wp_bind, wp_on_disk, wp_ret. exists [asked; BuildStarted n a].
       split; [by rewrite <- app_assoc|]. split; [done|]. done. }
  apply wp_bind, wp_on_disk. simpl. apply wp_bind.
  eapply wp_wand; [apply build_and_verify_spec|]. simpl. intros o w' Hv.
  rewrite <- app_assoc in Hv. simpl in Hv.
  apply (verified_attempt_logged n a fb (log w) [asked; BuildStarted n a]) in Hv;
    [|done].
  destruct o; [by apply wp_ret|done].
Qed.

Lemma modification_attempt_logged n c a fb w :
  wp (modification_attempt n c a fb) w (attempt_logged n (log w)).
Proof.
  set (asked := GeneratorAsked "code_modification" n a
                  (feedback_section_of modification_feedback_header fb)).
  assert (no_start [asked]) as Hasked.
  { intros d c' [?|?%elem_of_nil]%elem_of_cons; done. }
  assert (no_start [asked; BuildStarted n a]) as Hbuilt.
  { intros d c' [?|[?|?%elem_of_nil]%elem_of_cons]%elem_of_cons; done. }
  unfold modification_attempt, generate.
  apply wp_bind, wp_bind, wp_emit, wp_ask. intros [resp|] e.
  2: { exists [asked]. split; [done|]. split; [done|]. done. }
  destruct (_validate_modification_instructions_response resp) as [[] msg]; simpl.
  2: { apply wp_ret. exists [asked]. split; [done|]. split; [done|]. done. }
  apply wp_bind, wp_on_disk, wp_bind, wp_on_disk, wp_bind, wp_emit, wp_bind,
    wp_read_disk.
  simpl. destruct (apply_modifications _ _ _) as [[] built].
  2: { apply wp_bind, wp_on_disk, wp_ret. exists [asked; BuildStarted n a].
       split; [by rewrite <- app_assoc|]. split; [done|]. done. }
  apply wp_bind, wp_on_disk. simpl. apply wp_bind.
  eapply wp_wand; [apply build_and_verify_spec|]. simpl. intros o w' Hv.
  rewrite <- app_assoc in Hv. simpl in Hv.
  apply (verified_attempt_logged n a fb (log w) [asked; BuildStarted n a]) in Hv;
    [|done].
  destruct o; [by apply wp_ret|done].
Qed.

Lemma attempt_loop_logged n body :
  (∀ a fb w, wp (body a fb) w (attempt_logged n (log w))) →
  ∀ remaining a fb w,
    ∃ more, log (attempt_loop body remaining a fb w).2 = log w ++ more
            ∧ no_start more
            ∧ ((attempt_loop body remaining a fb w).1.1 = "success" →
               accepted n more).
Proof.
  intros Hbody. induction remaining as [|remaining IH]; intros a fb w; simpl.
  { exists []. rewrite app_nil_r. split; [done|]. split; [|done].
    by intros d c ?%elem_of_nil. }
  destruct (Hbody (a + 1) fb w) as (more & Hlog & Hns & Hacc).
  destruct (body (a + 1) fb w) as [[[fb'|r]|] w1]; simpl in *.
  - destruct (IH (a + 1) fb' w1) as (more2 & Hlog2 & Hns2 & Hacc2).
    exists (more ++ more2). rewrite Hlog2, Hlog, <- app_assoc.
    split; [done|]. split; [by apply no_start_app|].
    intros Hs. by apply accepted_app_l, Hacc2.
  - exists more. split; [done|]. split; [done|].
    destruct r as [action p]. simpl. intros ->. by apply (Hacc p).
  - exists more. split; [done|]. split; [done|]. done.
Qed.

(** What a step adds to the log: its start, then no other start, and the
    two lines of its acceptance if it returns success. *)
Lemma execute_step_logged n task c w :
  ∃ more, log (execute_step n task c w).2 = log w ++ StepStarted n c :: more
          ∧ no_start more
          ∧ ((execute_step n task c w).1.1 = "success" → accepted n more).
Proof.
  unfold execute_step.
  set (w1 := {| dsk := dsk w; log := log w ++ [StepStarted n c]; ext := ext w |}).
  assert (∀ r : action_result * world E,
            (∃ more, log r.2 = log w1 ++ more ∧ no_start more
                     ∧ (r.1.1 = "success" → accepted n more)) →
            ∃ more, log r.2 = log w ++ StepStarted n c :: more ∧ no_start more
                    ∧ (r.1.1 = "success" → accepted n more)) as Hshift.
  { intros r (more & Hlog & ?). exists more. split; [|done].
    rewrite Hlog. simpl. by rewrite <- app_assoc. }
  assert (∃ more, log w1 = log w1 ++ more ∧ no_start more
                  ∧ (("aborted", @None string).1 = "success" → accepted n more))
    as Habort.
  { exists []. rewrite app_nil_r. split; [done|]. split; [|done].
    by intros d c' ?%elem_of_nil. }
  destruct (_ && _); apply Hshift.
  - unfold _execute_initial_generation_step.
    destruct (negb _); [exact Habort|].
    apply attempt_loop_logged. apply initial_attempt_logged.
  - unfold _execute_modification_step.
    destruct (negb _); [exact Habort|].
    apply attempt_loop_logged. apply modification_attempt_logged.
Qed.

(** *** Attempts that fail validation *)

Lemma initial_attempt_invalid n a fb w :
  (∃ r, (ask_generator "code_generation_step1" n a ∅
           (feedback_section_of initial_feedback_header fb) (dsk w) (ext w)).1 = Some r
        ∧ (_validate_initial_code_response r).1 = false) →
  ∃ m e, violation m
    ∧ initial_attempt n a fb w
      = (Some (Continue (fb ++ [m])),
         {| dsk := dsk w;
            log := log w ++ [GeneratorAsked "code_generation_step1" n a
                               (feedback_section_of initial_feedback_header fb)];
            ext := e |}).
Proof.
  intros (r & Hr & Hinvalid).
  unfold initial_attempt, generate, ask, emit, mbind, M_bind. simpl.
  destruct (ask_generator _ _ _ _ _ _ _) as [o e]. simpl in Hr. subst o.
  exists ("JSON格式错误: " +:+ (_validate_initial_code_response r).2), e.
  split; [by exists r|].
  destruct (_validate_initial_code_response r) as [[] msg]; simpl in *; done.
Qed.

Lemma invalid_loop n :
  (∀ a c fb d e, ∃ r,
     (ask_generator "code_generation_step1" n a c fb d e).1 = Some r
     ∧ (_validate_initial_code_response r).1 = false) →
  ∀ remaining a fb w,
    ∃ msgs, length msgs = remaining
      ∧ Forall violation msgs
      ∧ (attempt_loop (initial_attempt n) remaining a fb w).1 = ("aborted", None)
      ∧ dsk (attempt_loop (initial_attempt n) remaining a fb w).2 = dsk w
      ∧ log (attempt_loop (initial_attempt n) remaining a fb w).2
        = log w ++ imap (λ i _, GeneratorAsked "code_generation_step1" n
                                  (a + Z.of_nat i + 1)
                                  (feedback_section_of initial_feedback_header
                                     (fb ++ take i msgs))) msgs.
Proof.
  intros Hgen. induction remaining as [|remaining IH]; intros a fb w.
  { exists []. simpl. by rewrite app_nil_r. }
  cbn [attempt_loop].
  destruct (initial_attempt_invalid n (a + 1) fb w (Hgen _ _ _ _ _))
    as (m & e & Hm & ->).
  destruct (IH (a + 1) (fb ++ [m])
              {| dsk := dsk w;
                 log := log w ++ [GeneratorAsked "code_generation_step1" n (a + 1)
                                    (feedback_section_of initial_feedback_header fb)];
                 ext := e |})
    as (msgs & Hlen & Hall & Hres & Hdsk & Hlog).
  exists (m :: msgs). split; [simpl; by rewrite Hlen|]. split; [by constructor|].
  split; [done|]. split; [done|].
  rewrite Hlog. cbn [log imap]. rewrite <- app_assoc. cbn [app].
  f_equal. f_equal.
  - f_equal; [lia|]. by rewrite take_0, app_nil_r.
  - apply imap_ext. intros i x _. simpl. f_equal; [lia|].
    by rewrite <- app_assoc.
Qed.

(** C2.  If the project definition is there and every answer of the
    generator fails validation, the initial-generation loop asks the
    generator exactly [max_attempts] times, attempt [k] with a feedback
    section that is empty for [k = 1] and otherwise the header followed by
    the feedback of attempts [1 .. k-1], verbatim and in order, joined by
    the delimiter; nothing is built (the log holds the requests only and the
    disk is untouched), and the step ends as aborted. *)
Theorem failed_validation_exhausts_attempts n task w :
  json_truthy (project_definition (dsk w)) = true →
  (∀ a c fb d e, ∃ r,
     (ask_generator "code_generation_step1" n a c fb d e).1 = Some r
     ∧ (_validate_initial_code_response r).1 = false) →
  let r := _execute_initial_generation_step n task w in
  ∃ msgs,
    length msgs = Z.to_nat max_attempts
    ∧ Forall violation msgs
    ∧ log r.2
      = log w ++ imap (λ i _, GeneratorAsked "code_generation_step1" n
                                (Z.of_nat i + 1)
                                match i with
                                | O => ""
                                | S _ => initial_feedback_header
                                         +:+ join feedback_delimiter (take i msgs)
                                end) msgs
    ∧ dsk r.2 = dsk w
    ∧ r.1 = ("aborted", None).
Proof.
  intros Hpd Hgen r. subst r. unfold _execute_initial_generation_step.
  rewrite Hpd. simpl.
  destruct (invalid_loop n Hgen (Z.to_nat max_attempts) 0 [] w)
    as (msgs & Hlen & Hall & Hres & Hdsk & Hlog).
  exists msgs. split; [done|]. split; [done|]. split; [|done].
  rewrite Hlog. f_equal. apply imap_ext. intros i x Hi. simpl.
  f_equal. destruct i as [|i]; [done|].
  apply lookup_lt_Some in Hi. destruct msgs as [|m msgs]; [simpl in Hi; lia|].
  done.
Qed.

End HandlerFacts.

(** ** Acceptance comes before the dependents *)

Section RunFacts.

Import PyDict PyStr Builder State Handler Controller Graph Logs Accepting.
Context {E : Type} `{JsonParser} `{StepHandler E}.
#[local] Existing Instances M_ret M_bind.
#[local] Abbreviation wp := (Logs.wp (E:=E)).

Lemma leaves_result {A} n a (f : disk → E → A * disk * E) d e r d' e' :
  leaves_attempt n a f → f d e = (r, d', e') →
  is_Some (attempts d !! (n, a)) → is_Some (attempts d' !! (n, a)).
Proof. intros Hf Heq Hd. specialize (Hf d e Hd). by rewrite Heq in Hf. Qed.

Lemma first_result {A B} (f : disk → E → (A * B) * disk * E) (v : A) d e r fb d' e' :
  (∀ d e, (f d e).1.1.1 = v) → f d e = ((r, fb), d', e') → r = v.
Proof. intros Hf Heq. specialize (Hf d e). by rewrite Heq in Hf. Qed.

Lemma install_gate_passes n a resp c w :
  gets_through n a c → is_Some (attempts (dsk w) !! (n, a)) →
  wp (install_gate n a resp) w
     (λ o w', o = Some None ∧ is_Some (attempts (dsk w') !! (n, a))).
Proof.
  intros (_ & Hinstall & _ & _ & _ & Hleaves & _) Hthere.
  unfold install_gate. apply wp_bind, wp_read_disk.
  destruct (attempts (dsk w) !! (n, a) ≫= _) as [text|]; [|by apply wp_ret].
  apply wp_bind, wp_on_disk.
  assert (is_Some (attempts (with_attempts
                      (λ a0, match a0 !! (n, a) with
                             | Some t => <[(n, a) := _sanitize_dependency_file t
                                                       (dependency_file_of resp)]> a0
                             | None => a0
                             end) (dsk w)) !! (n, a))) as Hthere1.
  { simpl. destruct (attempts (dsk w) !! (n, a)); [|done].
    by rewrite lookup_insert_eq. }
  case_bool_decide; [|by apply wp_ret].
  apply wp_bind, wp_call_result. intros [ok stderr] d e Hf.
  simpl in Hf. apply (first_result _ true) in Hf as Hok; [|apply Hinstall].
  subst ok. simpl. apply wp_ret. split; [done|].
  eapply leaves_result; [apply Hleaves|exact Hf|done].
Qed.

Lemma run_unit_tests_pass n a tests c w :
  gets_through n a c → is_Some (attempts (dsk w) !! (n, a)) →
  wp (_run_unit_tests n a tests) w
     (λ o w', (∃ fb, o = Some (true, fb)) ∧ is_Some (attempts (dsk w') !! (n, a))).
Proof.
  intros (_ & _ & Htests & _ & _ & _ & Hleaves & _) Hthere.
  unfold _run_unit_tests. destruct tests as [|t tests].
  { apply wp_ret. split; [by eexists|done]. }
  apply wp_call_result. intros [ok fb] d e Hf.
  simpl in Hf. apply (first_result _ true) in Hf as Hok; [|apply Htests].
  subst ok. split; [by eexists|].
  eapply leaves_result; [apply Hleaves|exact Hf|done].
Qed.

Lemma accept_succeeds n a resp w :
  is_Some (attempts (dsk w) !! (n, a)) →
  (accept n a resp w).1
  = Some ("success", response_get (λ d, Some (r_main_executable d)) None resp).
Proof.
  intros [tree Ht].
  unfold accept, mbind, M_bind, mark_successful, mark_step_as_successful,
    _summarize_successful_step.
  rewrite Ht. simpl.
  destruct (ask_summary n _ (ext w)) as [[summary|] e]; by destruct resp.
Qed.

Lemma build_and_verify_succeeds n a resp c w :
  gets_through n a c → is_Some (attempts (dsk w) !! (n, a)) →
  (_build_and_verify n a resp c w).1
  = Some ("success", response_get (λ d, Some (r_main_executable d)) None resp).
Proof.
  intros Hthrough Hthere.
  change (wp (_build_and_verify n a resp c) w
            (λ o _, o = Some ("success",
                              response_get (λ d, Some (r_main_executable d)) None resp))).
  pose proof Hthrough as (Hinspect & _ & _ & Hgate & Hl1 & _ & _ & Hl4).
  unfold _build_and_verify. apply wp_bind, wp_call_result.
  intros [approved fb] d e Hf.
  apply (first_result _ true) in Hf as Hok; [|apply Hinspect].
  subst approved. simpl.
  assert (is_Some (attempts d !! (n, a))) as Hthere1.
  { eapply leaves_result; [exact Hl1|exact Hf|done]. }
  apply wp_bind. eapply wp_wand; [by eapply install_gate_passes|].
  intros o w1 [-> Hthere2]. simpl.
  apply wp_bind. eapply wp_wand; [by eapply run_unit_tests_pass|].
  intros o w2 [[tfb ->] Hthere3]. simpl.
  apply wp_bind, wp_call_result. intros [action feedback] d3 e3 Hf3.
  apply (first_result _ "success") in Hf3 as Hok; [|apply Hgate].
  subst action. simpl. apply accept_succeeds. simpl.
  eapply leaves_result; [exact Hl4|exact Hf3|done].
Qed.

Lemma split_at_start (more more2 l1 l2 : list event) n c d c' :
  no_start more2 →
  more ++ StepStarted n c :: more2 = l1 ++ StepStarted d c' :: l2 →
  (∃ k, more = l1 ++ StepStarted d c' :: k) ∨ (l1 = more ∧ d = n ∧ c' = c).
Proof.
  intros Hns. revert l1. induction more as [|y more IH]; intros [|x l1]; simpl.
  - intros [= <- <- _]. by right.
  - intros [= _ ->]. destruct (Hns d c'). apply elem_of_app. right. left.
  - intros [= -> _]. left. by exists more.
  - intros [= <- Heq]. destruct (IH l1 Heq) as [[k ->]|(-> & -> & ->)].
    + left. by exists k.
    + by right.
Qed.

Lemma log_ok_step w0 steps n task c w :
  get n steps = Some task →
  (∀ d, d ∈ dependencies task → d ∈ c) →
  log_ok w0 steps w c →
  let r := execute_step n task c w in
  if String.eqb r.1.1 "success" then log_ok w0 steps r.2 ({[n]} ∪ c)
  else log_ok w0 steps r.2 c.
Proof.
  intros Htask Hdeps (more & Hlog & Hord & Hacc). simpl.
  destruct (execute_step_logged n task c w) as (more2 & Hlog2 & Hns & Hacc2).
  assert (ordered steps (more ++ StepStarted n c :: more2)) as Hord'.
  { intros l1 d c' l2 task' t Heq Hd Ht.
    destruct (split_at_start _ _ _ _ _ _ _ _ Hns Heq) as [[k ->]|(-> & -> & ->)].
    - by eapply Hord.
    - apply Hacc, Hdeps. by replace task with task' by congruence. }
  destruct (String.eqb_spec (execute_step n task c w).1.1 "success") as [Hs|Hs].
  - exists (more ++ StepStarted n c :: more2).
    split; [by rewrite Hlog2, Hlog, <- app_assoc|]. split; [done|].
    intros t [->%elem_of_singleton|Ht]%elem_of_union.
    + apply accepted_app_l.
      destruct (Hacc2 Hs) as (tree & ? & ?). exists tree. split; by right.
    + by apply accepted_app_r, Hacc.
  - exists (more ++ StepStarted n c :: more2).
    split; [by rewrite Hlog2, Hlog, <- app_assoc|]. split; [done|].
    intros t Ht. by apply accepted_app_r, Hacc.
Qed.


End RunFacts.

(** ** Two small runs *)

Section HandlerExamples.

Import PyDict PyStr Builder State Handler Controller Graph Logs Examples.

Lemma failed_validation_example :
  let r := @_execute_initial_generation_step unit never_parses (agreeable NotADict)
             1 (task 1 []) fresh_world in
  ∃ msgs,
    length msgs = 3%nat
    ∧ Forall violation msgs
    ∧ log r.2
      = [] ++ imap (λ i _, GeneratorAsked "code_generation_step1" 1
                             (Z.of_nat i + 1)
                             match i with
                             | O => ""
                             | S _ => initial_feedback_header
                                      +:+ join feedback_delimiter (take i msgs)
                             end) msgs
    ∧ dsk r.2 = dsk fresh_world
    ∧ r.1 = ("aborted", None).
Proof.
  apply (@failed_validation_exhausts_attempts unit never_parses (agreeable NotADict)
           1 (task 1 []) fresh_world).
  - reflexivity.
  - intros a c fb d e. exists NotADict. split; reflexivity.
Defined.



(** The log of that run, in full. *)
Lemma acceptance_before_dependents_log :
  let tasks := [task 1 []; task 2 [1]] in
  let r := run_steps_execution_phase
             (@execute_step unit never_parses (agreeable hello)) tasks fresh_world in
  let built : gmap string string := {[ "main.py" := "print('hello')" ]} in
  r.1 = AllCompleted
  ∧ log (surroundings r.2)
    = [ StepStarted 1 ∅;
        GeneratorAsked "code_generation_step1" 1 1 "";
        BuildStarted 1 1;
        SnapshotSaved 1 built; LatestUpdated 1 built;
        StepStarted 2 {[1]};
        GeneratorAsked "code_modification" 2 1 "";
        BuildStarted 2 1;
        SnapshotSaved 2 built; LatestUpdated 2 built ].
Proof. split; vm_compute; reflexivity. Qed.

End HandlerExamples.

(** ** More on the scheduler *)

Section SchedulerMore.

Import PyDict State Controller Graph Runs Store.
Context {W : Type}.
Variable execute_step : Z → step → gset Z → W → (string * option string) * W.

Lemma add_dependents_inr step_num deps (adj adj' : dict (list Z)) :
  add_dependents step_num deps adj = inr adj' →
  keys adj' = keys adj ∧ ∀ d, d ∈ deps → d ∈ keys adj.
Proof.
  revert adj. induction deps as [|d deps IH]; intros adj; simpl.
  - intros [= <-]. split; [done|]. by intros d ?%elem_of_nil.
  - destruct (get d adj) as [L0|] eqn:HL0; [|done].
    intros [Hk Hin]%IH.
    rewrite keys_set_present in Hk, Hin by by eapply get_Some_keys.
    split; [done|]. intros x [->|Hx]%elem_of_cons; [by eapply get_Some_keys|auto].
Qed.

Lemma build_graph_inr items (adj adj' : dict (list Z)) (indeg indeg' : dict Z) :
  build_graph items adj indeg = inr (adj', indeg') →
  ∀ t task d, (t, task) ∈ items → d ∈ dependencies task → d ∈ keys adj.
Proof.
  revert adj indeg. induction items as [|[t0 task0] items IH]; intros adj indeg; simpl.
  - intros _ t task d ?%elem_of_nil. done.
  - destruct (add_dependents t0 (dependencies task0) adj) as [|adj1] eqn:Hadd; [done|].
    apply add_dependents_inr in Hadd as [Hk Hin].
    intros Hb t task d [[= -> ->]|Ht]%elem_of_cons Hd; [by apply Hin|].
    rewrite <- Hk. by eapply (IH _ _ Hb).
Qed.

Lemma run_queue_not_dangling fuel steps adj total (s : @sched W) n d :
  (run_queue execute_step fuel steps adj total s).1 ≠ DanglingDependency n d.
Proof.
  revert s. induction fuel as [|fuel IH]; intros s; simpl; [done|].
  destruct (queue s) as [|k q]; [by case_bool_decide|].
  destruct (get k steps) as [task|]; [|done].
  destruct (execute_step _ _ _ _) as [[result main] w].
  destruct (String.eqb result "success").
  - destruct (get k adj); [|done]. destruct (release _ _ _) as [[? ?]|]; [|done].
    apply IH.
  - destruct (orb _ _); [done|]. apply IH.
Qed.

(** X1.  The run ends with the report of a missing dependency exactly when the
    mapping has one; it names a step and a dependency of it that is no
    step, and no step has been executed by then. *)
Theorem missing_dependency_ends_the_run_first tasks w :
  let r := run_steps_execution_phase execute_step tasks w in
  (no_dangling (steps_dict tasks) ↔ ∀ n d, r.1 ≠ DanglingDependency n d)
  ∧ ∀ n d, r.1 = DanglingDependency n d →
      (∃ task, get n (steps_dict tasks) = Some task ∧ d ∈ dependencies task)
      ∧ (d ∉ keys (steps_dict tasks))
      ∧ started r.2 = [] ∧ surroundings r.2 = w ∧ returns r.1 = false.
Proof.
  intros r. subst r. unfold run_steps_execution_phase.
  destruct tasks as [|task0 tasks'].
  { simpl. split; [|done]. split; [done|]. intros _ t task d. done. }
  pose proof (keys_steps_dict_NoDup (task0 :: tasks')) as Hnd.
  destruct (build_graph _ _ _) as [[step_num dep_num]|[adj indeg]] eqn:Hbuild.
  - apply build_graph_dangling in Hbuild as (task & Hin & Hd & Hk).
    rewrite (keys_map_values (λ _, [])) in Hk.
    apply get_elem_of in Hin; [|done]. simpl. split.
    + split.
      * intros Hdang. destruct Hk. by eapply Hdang.
      * intros Hno. by destruct (Hno step_num dep_num).
    + intros n d [= <- <-]. split; [by exists task|done].
  - pose proof (build_graph_inr _ _ _ _ _ Hbuild) as Hin.
    rewrite (keys_map_values (λ _, [])) in Hin.
    split.
    + split.
      * intros _ n d. apply run_queue_not_dangling.
      * intros _ t task d Ht Hd. eapply Hin; [|done]. by apply elem_of_get.
    + intros n d Hr. by apply run_queue_not_dangling in Hr.
Qed.


(** Every call so far was given a subset of what is completed now, and
    that stays so. *)
Lemma run_queue_given fuel steps adj total (s : @sched W) :
  (∀ c, c ∈ started s → given c ⊆ completed_steps s) →
  let r := run_queue execute_step fuel steps adj total s in
  ∀ c, c ∈ started r.2 → given c ⊆ completed_steps r.2.
Proof.
  revert s. induction fuel as [|fuel IH]; intros s Hs; simpl; [done|].
  destruct (queue s) as [|k q]; [done|].
  destruct (get k steps) as [task|]; [|done].
  destruct (execute_step _ _ _ _) as [[result main] w].
  destruct (String.eqb result "success").
  - destruct (get k adj); [|done]. destruct (release _ _ _) as [[? ?]|]; [|done].
    apply IH. simpl. intros c [Hc|Hc%list_elem_of_singleton]%elem_of_app.
    + specialize (Hs c Hc). set_solver.
    + subst c. simpl. set_solver.
  - assert (∀ c, c ∈ started s ++ [{| called := k; given := completed_steps s;
                                      returned := result |}] →
                 given c ⊆ completed_steps s) as Hs'.
    { intros c [Hc|Hc%list_elem_of_singleton]%elem_of_app; [by apply Hs|by subst c]. }
    destruct (orb _ _); [done|]. by apply IH.
Qed.

(** The loop stops early at the first call that returns [aborted] or
    [skipped], and only there. *)
Lemma run_queue_stops fuel steps adj total (s : @sched W) :
  Forall (λ c, ¬ stops (returned c)) (started s) →
  let r := run_queue execute_step fuel steps adj total s in
  match r.1 with
  | Terminated result n some_completed =>
      ∃ earlier,
        started r.2 = earlier ++ [{| called := n; given := completed_steps r.2;
                                     returned := result |}]
        ∧ stops result
        ∧ Forall (λ c, ¬ stops (returned c)) earlier
        ∧ some_completed = bool_decide (0 < size (completed_steps r.2))%nat
  | _ => Forall (λ c, ¬ stops (returned c)) (started r.2)
  end.
Proof.
  revert s. induction fuel as [|fuel IH]; intros s Hs; simpl; [done|].
  destruct (queue s) as [|k q]; [by case_bool_decide|].
  destruct (get k steps) as [task|]; [|done].
  destruct (execute_step _ _ _ _) as [[result main] w].
  destruct (String.eqb_spec result "success") as [->|Hres].
  - destruct (get k adj); [|done]. destruct (release _ _ _) as [[? ?]|]; [|done].
    apply IH. simpl. apply Forall_app. split; [done|].
    apply Forall_singleton. simpl. by intros [?|?].
  - destruct (String.eqb_spec result "aborted") as [->|Hab]; simpl.
    { exists (started s). split; [done|]. split; [by left|done]. }
    destruct (String.eqb_spec result "skipped") as [->|Hsk]; simpl.
    { exists (started s). split; [done|]. split; [by right|done]. }
    apply IH. simpl. apply Forall_app. split; [done|].
    apply Forall_singleton. simpl. by intros [?|?].
Qed.

(** Either the mapping has no dangling reference, or the run ends with the
    report of one before it has started a step. *)
Lemma dangling_or_not tasks w :
  let r := run_steps_execution_phase execute_step tasks w in
  no_dangling (steps_dict tasks)
  ∨ ∃ n d, r.1 = DanglingDependency n d ∧ started r.2 = [] ∧ completed_steps r.2 = ∅.
Proof.
  intros r. subst r. unfold run_steps_execution_phase.
  destruct tasks as [|task0 tasks']; [by left|].
  destruct (build_graph _ _ _) as [[step_num dep_num]|[adj indeg]] eqn:Hbuild.
  - right. by exists step_num, dep_num.
  - left. pose proof (build_graph_inr _ _ _ _ _ Hbuild) as Hin.
    rewrite (keys_map_values (λ _, [])) in Hin.
    intros t task d Ht Hd. eapply Hin; [|done]. by apply elem_of_get.
Qed.

(** X2.  The loop needs no more passes than there are steps, and no lookup in
    its dictionaries fails: the run never ends for one of these reasons,
    whatever the steps return, and executes at most as many calls as there
    are steps. *)
Theorem run_never_fails_a_lookup tasks w :
  let r := run_steps_execution_phase execute_step tasks w in
  r.1 ≠ KeyError ∧ r.1 ≠ OutOfFuel
  ∧ (length (started r.2) ≤ length (steps_dict tasks))%nat.
Proof.
  intros r. destruct (dangling_or_not tasks w) as [Hdang|(n & d & Hr & Hs & _)].
  - destruct (decide (tasks = [])) as [->|Hne]; [done|].
    destruct (run_post_plain execute_step tasks w Hne Hdang) as [HI Hout].
    fold r in HI, Hout.
    pose proof (inv_bound _ _ _ HI) as Hb. unfold keys in Hb. rewrite length_map in Hb.
    split; [by destruct r.1|]. split; [by destruct r.1|]. lia.
  - fold r in Hr, Hs. rewrite Hr, Hs. simpl. split; [done|]. split; [done|]. lia.
Qed.

(** X3.  The run ends early only when a call returns [aborted] or [skipped]:
    this call is then the last one, no earlier call returned either, and
    the method returns whether a step had been completed.  A run that ends
    otherwise has met neither result. *)
Theorem run_stops_at_the_first_abort tasks w :
  let r := run_steps_execution_phase execute_step tasks w in
  match r.1 with
  | Terminated result n some_completed =>
      ∃ earlier,
        started r.2 = earlier ++ [{| called := n; given := completed_steps r.2;
                                     returned := result |}]
        ∧ stops result
        ∧ Forall (λ c, ¬ stops (returned c)) earlier
        ∧ returns r.1 = bool_decide (0 < size (completed_steps r.2))%nat
  | _ => Forall (λ c, ¬ stops (returned c)) (started r.2)
  end.
Proof.
  intros r. subst r. unfold run_steps_execution_phase.
  destruct tasks as [|task0 tasks']; [by simpl|].
  destruct (build_graph _ _ _) as [[step_num dep_num]|[adj indeg]]; [by simpl|].
  match goal with |- context [run_queue ?e ?f ?st ?a ?t ?s] =>
    pose proof (run_queue_stops f st a t s (Forall_nil_2 _)) as Hstop;
    cbv zeta in Hstop; destruct (run_queue e f st a t s) as [o sf] end.
  by destruct o.
Qed.

(** All keys are completed once their number is. *)
Lemma completed_all steps R (s : @sched W) :
  Inv steps R s → NoDup (keys steps) →
  size (completed_steps s) = length (keys steps) →
  completed_steps s = list_to_set (keys steps).
Proof.
  intros HI Hnd Hsize. apply set_subseteq_size_eq.
  - intros n Hn. apply elem_of_list_to_set. apply (inv_known _ HI).
    apply elem_of_app. left. by eapply completed_started.
  - rewrite size_list_to_set by done. lia.
Qed.

(** X4.  Full completion is reported only when every step of the mapping was
    executed, once, and returned [success]; the completed set is then the
    set of all step numbers. *)
Theorem all_completed_means_every_step_succeeded tasks w :
  let r := run_steps_execution_phase execute_step tasks w in
  r.1 = AllCompleted →
  ids r.2 ≡ₚ keys (steps_dict tasks)
  ∧ Forall (λ c, returned c = "success") (started r.2)
  ∧ completed_steps r.2 = list_to_set (keys (steps_dict tasks))
  ∧ queue r.2 = [].
Proof.
  intros r Hr. destruct (dangling_or_not tasks w) as [Hdang|(n & d & Hr' & _)];
    [|fold r in Hr'; congruence].
  destruct (decide (tasks = [])) as [->|Hne]; [done|].
  destruct (run_post_plain execute_step tasks w Hne Hdang) as [HI Hout].
  fold r in HI, Hout. rewrite Hr in Hout. destruct Hout as [Hq Hsize].
  pose proof (keys_steps_dict_NoDup tasks) as Hnd.
  assert (completed_steps r.2 = list_to_set (keys (steps_dict tasks))) as Hall.
  { eapply completed_all; [done..|]. unfold keys. by rewrite length_map. }
  assert (ids r.2 ≡ₚ keys (steps_dict tasks)) as Hperm.
  { apply NoDup_Permutation; [by eapply started_NoDup|done|]. intros k. split.
    - intros Hk. apply (inv_known _ HI). apply elem_of_app. by left.
    - intros Hk. eapply completed_started; [done|]. rewrite Hall.
      by apply elem_of_list_to_set. }
  split; [done|]. split; [|done].
  apply Forall_forall. intros c Hc.
  assert (called c ∈ completed_steps r.2) as Hcc.
  { rewrite Hall. apply elem_of_list_to_set. apply (inv_known _ HI).
    apply elem_of_app. left. apply list_elem_of_fmap. by exists c. }
  apply (inv_completed _ HI) in Hcc as (c' & Hc' & Heq & Hok).
  assert (c' = c) as <-; [|done].
  pose proof (started_NoDup _ _ _ HI) as Hnds.
  apply list_elem_of_lookup in Hc as [i Hi]. apply list_elem_of_lookup in Hc' as [j Hj].
  assert (i = j) as ->.
  { eapply (NoDup_lookup _ _ _ (called c) Hnds); rewrite list_lookup_fmap.
    - by rewrite Hi.
    - by rewrite Hj, <- Heq. }
  congruence.
Qed.

(** X5.  A step is executed only after each of its dependencies was executed
    and returned [success]. *)
Theorem dependencies_succeeded_before tasks w :
  let r := run_steps_execution_phase execute_step tasks w in
  ∀ i c task d,
    started r.2 !! i = Some c →
    get (called c) (steps_dict tasks) = Some task → d ∈ dependencies task →
    ∃ j c', (j < i)%nat ∧ started r.2 !! j = Some c'
            ∧ called c' = d ∧ returned c' = "success".
Proof.
  intros r i c task d Hi Htask Hd.
  destruct (dangling_or_not tasks w) as [Hdang|(n & d' & _ & Hs & _)];
    [|fold r in Hs; by rewrite Hs in Hi].
  destruct (decide (tasks = [])) as [->|Hne]; [done|].
  destruct (run_post_plain execute_step tasks w Hne Hdang) as [HI _]. fold r in HI.
  assert (d ∈ given c) as Hg.
  { eapply (inv_deps _ HI); [by eapply list_elem_of_lookup_2|done..]. }
  destruct (inv_before _ HI i c d Hi Hg) as (j & c' & Hj & Hc' & Hcd).
  exists j, c'. split; [done|]. split; [done|]. split; [done|].
  assert (d ∈ completed_steps r.2) as Hdc.
  { assert (∀ c, c ∈ started r.2 → given c ⊆ completed_steps r.2) as Hgiven.
    { subst r. unfold run_steps_execution_phase. destruct tasks as [|t0 ts]; [done|].
      destruct (build_graph _ _ _) as [[? ?]|[adj indeg]]; [by intros ? ?%elem_of_nil|].
      apply run_queue_given. by intros ? ?%elem_of_nil. }
    specialize (Hgiven c (list_elem_of_lookup_2 _ _ _ Hi)). set_solver. }
  apply (inv_completed _ HI) in Hdc as (c'' & Hc'' & Heq & Hok).
  assert (c'' = c') as <-; [|done].
  pose proof (started_NoDup _ _ _ HI) as Hnds.
  apply list_elem_of_lookup in Hc'' as [k Hk].
  assert (k = j) as ->.
  { eapply (NoDup_lookup _ _ _ d Hnds); rewrite list_lookup_fmap.
    - by rewrite Hk, <- Heq.
    - by rewrite Hc', <- Hcd. }
  congruence.
Qed.

End SchedulerMore.

(** ** More on the step handler *)

Section HandlerMore.

Import PyStr Builder State Handler Logs Traces.
Context {E : Type} `{JsonParser} `{StepHandler E}.
#[local] Existing Instances M_ret M_bind.
#[local] Abbreviation wp := (Logs.wp (E:=E)).
#[local] Abbreviation verified := (Logs.verified (E:=E)).
#[local] Abbreviation attempt_post := (Traces.attempt_post (E:=E)).

Lemma verified_attempt_post template n a fb cumulative L0 o w' :
  verified n a (L0 ++ [GeneratorAsked template n a fb; BuildStarted n a]) o w' →
  attempt_post template n a L0 (after_verify cumulative <$> o) w'.
Proof.
  intros [[Hlog Hns]|(tree & p & -> & Hlog & Hlatest & Hattempt & _)].
  - exists [GeneratorAsked template n a fb; BuildStarted n a], None.
    split; [done|]. split; [constructor|].
    intros p Hp. destruct o as [r0|]; [|done].
    assert (after_verify cumulative r0 = Return ("success", p)) as Hp'
      by (by injection Hp).
    apply after_verify_success in Hp'. destruct r0 as [action payload].
    simpl in Hp'. subst. by destruct (Hns payload).
  - exists [GeneratorAsked template n a fb; BuildStarted n a;
            SnapshotSaved n tree; LatestUpdated n tree], (Some tree).
    split; [by rewrite Hlog, <- app_assoc|]. split; [constructor|].
    split; [by exists p|done].
Qed.

Lemma initial_attempt_post n a fb w :
  wp (initial_attempt n a fb) w
     (attempt_post "code_generation_step1" n a (log w)).
Proof.
  set (section := feedback_section_of initial_feedback_header fb).
  assert (∀ o w', (∀ p, o ≠ Some (Return ("success", p))) →
            log w' = log w ++ [GeneratorAsked "code_generation_step1" n a section] →
            attempt_post "code_generation_step1" n a (log w) o w') as Hasked.
  { intros o w' Ho Hl. eexists _, None. split; [done|]. split; [constructor|done]. }
  assert (∀ o w', (∀ p, o ≠ Some (Return ("success", p))) →
            log w' = log w ++ [GeneratorAsked "code_generation_step1" n a section;
                               BuildStarted n a] →
            attempt_post "code_generation_step1" n a (log w) o w') as Hbuilt.
  { intros o w' Ho Hl. eexists _, None. split; [done|]. split; [constructor|done]. }
  unfold initial_attempt, generate.
  apply wp_bind, wp_bind, wp_emit, wp_ask. intros [resp|] e; [|by apply Hasked].
  destruct (_validate_initial_code_response resp) as [[] msg]; simpl.
  2: { apply wp_ret. by apply Hasked. }
  apply wp_bind, wp_on_disk, wp_bind, wp_on_disk, wp_bind, wp_emit, wp_bind,
    wp_read_disk.
  simpl. destruct (build_project_structure _ _) as [[] built].
  2: { apply wp_bind, wp_on_disk, wp_ret. apply Hbuilt; [done|].
       simpl. by rewrite <- app_assoc. }
  apply wp_bind, wp_on_disk. simpl. apply wp_bind.
  eapply wp_wand; [apply build_and_verify_spec|]. simpl. intros o w' Hv.
  rewrite <- app_assoc in Hv. simpl in Hv.
  apply (verified_attempt_post _ n a section fb (log w)) in Hv.
  destruct o; [by apply wp_ret|done].
Qed.

Lemma modification_attempt_post n c a fb w :
  wp (modification_attempt n c a fb) w
     (attempt_post "code_modification" n a (log w)).
Proof.
  set (section := feedback_section_of modification_feedback_header fb).
  assert (∀ o w', (∀ p, o ≠ Some (Return ("success", p))) →
            log w' = log w ++ [GeneratorAsked "code_modification" n a section] →
            attempt_post "code_modification" n a (log w) o w') as Hasked.
  { intros o w' Ho Hl. eexists _, None. split; [done|]. split; [constructor|done]. }
  assert (∀ o w', (∀ p, o ≠ Some (Return ("success", p))) →
            log w' = log w ++ [GeneratorAsked "code_modification" n a section;
                               BuildStarted n a] →
            attempt_post "code_modification" n a (log w) o w') as Hbuilt.
  { intros o w' Ho Hl. eexists _, None. split; [done|]. split; [constructor|done]. }
  unfold modification_attempt, generate.
  apply wp_bind, wp_bind, wp_emit, wp_ask. intros [resp|] e; [|by apply Hasked].
  destruct (_validate_modification_instructions_response resp) as [[] msg]; simpl.
  2: { apply wp_ret. by apply Hasked. }
  apply wp_bind, wp_on_disk, wp_bind, wp_on_disk, wp_bind, wp_emit, wp_bind,
    wp_read_disk.
  simpl. destruct (apply_modifications _ _ _) as [[] built].
  2: { apply wp_bind, wp_on_disk, wp_ret. apply Hbuilt; [done|].
       simpl. by rewrite <- app_assoc. }
  apply wp_bind, wp_on_disk. simpl. apply wp_bind.
  eapply wp_wand; [apply build_and_verify_spec|]. simpl. intros o w' Hv.
  rewrite <- app_assoc in Hv. simpl in Hv.
  apply (verified_attempt_post _ n a section fb (log w)) in Hv.
  destruct o; [by apply wp_ret|done].
Qed.

Lemma attempt_loop_trace template n body :
  (∀ a fb w, wp (body a fb) w (attempt_post template n a (log w))) →
  ∀ remaining a fb w,
    let r := attempt_loop body remaining a fb w in
    ∃ more k acc,
      log r.2 = log w ++ more
      ∧ step_trace template n (a + 1) more k acc
      ∧ (k ≤ remaining)%nat
      ∧ match acc with
        | Some (a', tree) =>
            r.1.1 = "success"
            ∧ a < a' ≤ a + Z.of_nat remaining
            ∧ latest_successful_code (dsk r.2) = Some tree
            ∧ attempts (dsk r.2) !! (n, a') = Some tree
        | None => r.1.1 ≠ "success"
        end.
Proof.
  intros Hbody. induction remaining as [|remaining IH]; intros a fb w; simpl.
  { exists [], O, None. rewrite app_nil_r. split; [done|]. split; [constructor|].
    split; [done|]. done. }
  destruct (Hbody (a + 1) fb w) as (l & acc & Hlog & Htrace & Hacc).
  destruct (body (a + 1) fb w) as [[[fb'|r]|] w1]; simpl in *.
  - destruct acc as [tree|]; [by destruct Hacc as [[p ?] _]|].
    destruct (IH (a + 1) fb' w1) as (more & k & acc & Hlog2 & Htrace2 & Hk & Hacc2).
    exists (l ++ more), (S k), acc. rewrite Hlog2, Hlog, <- app_assoc.
    split; [done|]. split; [by econstructor|]. split; [lia|].
    destruct acc as [[a' tree]|]; [|done].
    destruct Hacc2 as (? & ? & ? & ?). repeat split; try done; lia.
  - destruct acc as [tree|].
    + destruct Hacc as ([p [= ->]] & ? & ?).
      exists l, 1%nat, (Some (a + 1, tree)). split; [done|].
      split; [by constructor|]. split; [lia|]. repeat split; try done; lia.
    + exists (l ++ []), 1%nat, None. rewrite app_nil_r. split; [done|].
      split; [rewrite <- (app_nil_r l); econstructor; [done|constructor]|].
      split; [lia|]. destruct r as [action p]. simpl. intros ->. by destruct (Hacc p).
  - destruct acc as [tree|]; [by destruct Hacc as [[p ?] _]|].
    exists (l ++ []), 1%nat, None. rewrite app_nil_r. split; [done|].
    split; [rewrite <- (app_nil_r l); econstructor; [done|constructor]|].
    split; [lia|]. done.
Qed.

(** X6.  What a step adds to the log, whatever its collaborators do: its
    start, then at most [max_attempts] attempts, numbered from 1 on, each
    of them a request to the generator that may be followed by a build;
    the two lines of an acceptance come only at the end of the last attempt,
    and they do exactly when the step returns [success].  The accepted tree
    is then the latest tree, and the tree of that attempt. *)
Theorem step_log_is_a_row_of_attempts n task c w :
  let r := execute_step n task c w in
  ∃ template more k acc,
    (template = "code_generation_step1" ∨ template = "code_modification")
    ∧ log r.2 = log w ++ StepStarted n c :: more
    ∧ step_trace template n 1 more k acc
    ∧ (k ≤ Z.to_nat max_attempts)%nat
    ∧ match acc with
      | Some (a, tree) =>
          r.1.1 = "success"
          ∧ 1 ≤ a ≤ max_attempts
          ∧ latest_successful_code (dsk r.2) = Some tree
          ∧ attempts (dsk r.2) !! (n, a) = Some tree
      | None => r.1.1 ≠ "success"
      end.
Proof.
  intros r. subst r. unfold execute_step.
  set (w1 := {| dsk := dsk w; log := log w ++ [StepStarted n c]; ext := ext w |}).
  assert (∀ template (r : action_result * world E),
            (template = "code_generation_step1" ∨ template = "code_modification") →
            (∃ more k acc,
               log r.2 = log w1 ++ more
               ∧ step_trace template n (0 + 1) more k acc
               ∧ (k ≤ Z.to_nat max_attempts)%nat
               ∧ match acc with
                 | Some (a', tree) =>
                     r.1.1 = "success"
                     ∧ 0 < a' ≤ 0 + Z.of_nat (Z.to_nat max_attempts)
                     ∧ latest_successful_code (dsk r.2) = Some tree
                     ∧ attempts (dsk r.2) !! (n, a') = Some tree
                 | None => r.1.1 ≠ "success"
                 end) →
            ∃ template more k acc,
              (template = "code_generation_step1" ∨ template = "code_modification")
              ∧ log r.2 = log w ++ StepStarted n c :: more
              ∧ step_trace template n 1 more k acc
              ∧ (k ≤ Z.to_nat max_attempts)%nat
              ∧ match acc with
                | Some (a, tree) =>
                    r.1.1 = "success"
                    ∧ 1 ≤ a ≤ max_attempts
                    ∧ latest_successful_code (dsk r.2) = Some tree
                    ∧ attempts (dsk r.2) !! (n, a) = Some tree
                | None => r.1.1 ≠ "success"
                end) as Hshift.
  { intros template r Ht (more & k & acc & Hlog & Htrace & Hk & Hacc).
    exists template, more, k, acc. split; [done|].
    split; [rewrite Hlog; simpl; by rewrite <- app_assoc|]. split; [done|].
    split; [done|]. destruct acc as [[a tree]|]; [|done].
    destruct Hacc as (? & ? & ? & ?). repeat split; try done; lia. }
  assert (∀ template, ∃ more k acc,
            log w1 = log w1 ++ more
            ∧ step_trace template n (0 + 1) more k acc
            ∧ (k ≤ Z.to_nat max_attempts)%nat
            ∧ match acc with
              | Some (a', tree) =>
                  ("aborted", @None string).1 = "success"
                  ∧ 0 < a' ≤ 0 + Z.of_nat (Z.to_nat max_attempts)
                  ∧ latest_successful_code (dsk w1) = Some tree
                  ∧ attempts (dsk w1) !! (n, a') = Some tree
              | None => ("aborted", @None string).1 ≠ "success"
              end) as Habort.
  { intros template. exists [], O, None. rewrite app_nil_r. split; [done|].
    split; [constructor|]. split; [lia|done]. }
  destruct (_ && _).
  - apply (Hshift "code_generation_step1"); [by left|].
    unfold _execute_initial_generation_step.
    destruct (negb _); [apply Habort|].
    apply (attempt_loop_trace "code_generation_step1" n (initial_attempt n)).
    apply initial_attempt_post.
  - apply (Hshift "code_modification"); [by right|].
    unfold _execute_modification_step.
    destruct (negb _); [apply Habort|].
    apply (attempt_loop_trace "code_modification" n (modification_attempt n c)).
    apply modification_attempt_post.
Qed.

(** *** Where the result of a step comes from *)

Lemma accept_result n a resp w :
  wp (accept n a resp) w
     (λ o _, match o with Some r => r.1 = "success" | None => True end).
Proof.
  unfold accept, wp, mbind, M_bind.
  destruct (mark_successful n (n, a) w) as [[[]|] w1]; [|done].
  by destruct (_summarize_successful_step n w1) as [[b|] w2].
Qed.

Lemma build_and_verify_result n a resp c w :
  wp (_build_and_verify n a resp c) w
     (λ o _, match o with Some r => verify_result n a r | None => True end).
Proof.
  assert (∀ fb, verify_result n a ("failure", Some fb)) as Hfail.
  { intros fb. right. left. by split. }
  unfold _build_and_verify. apply wp_bind, wp_call. intros [approved fb] d e.
  destruct approved; simpl; [|by apply wp_ret].
  apply wp_bind. unfold wp at 1.
  destruct (install_gate n a resp _) as [[[feedback|]|] w1]; simpl;
    [by apply wp_ret| |done].
  apply wp_bind. unfold wp at 1.
  destruct (_run_unit_tests n a _ w1) as [[[passed test_feedback]|] w2]; simpl;
    [|done].
  destruct passed; simpl; [|by apply wp_ret].
  apply wp_bind. unfold wp at 1, call.
  destruct (prompt_for_manual_execution n a (dsk w2) (ext w2))
    as [[[action feedback] d3] e3] eqn:Hgate.
  simpl. destruct (String.eqb_spec action "success") as [->|Hne].
  - eapply wp_wand; [apply accept_result|]. simpl. intros [r|] _; [|done].
    intros Hr. by left.
  - destruct (truthy feedback) eqn:Hfb.
    + by apply wp_bind, wp_on_disk, wp_ret.
    + apply wp_ret. right. right. split; [done|].
      exists (dsk w2), (ext w2), feedback. by rewrite Hgate.
Qed.

Lemma after_verify_result n a fb r :
  verify_result n a r →
  match after_verify fb r with
  | Return r' => step_result n r'
  | Continue _ => True
  end.
Proof.
  destruct r as [action payload]. unfold after_verify, verify_result. simpl.
  destruct (String.eqb_spec action "success") as [->|Hne]; [by left|].
  intros [?|[[-> [fb' ->]]|[-> Hgate]]]; [done| |].
  - simpl. destruct fb'; simpl; [|done]. right. right. by left.
  - assert (step_result n (action, None)) as Hr.
    { right. right. right. split; [done|].
      destruct Hgate as (d & e & feedback & ? & ?). by exists a, d, e, feedback. }
    destruct (String.eqb action "failure"); simpl; done.
Qed.

Lemma initial_attempt_result n a fb w :
  wp (initial_attempt n a fb) w
     (λ o _, match o with Some (Return r) => step_result n r | _ => True end).
Proof.
  unfold initial_attempt, generate.
  apply wp_bind, wp_bind, wp_emit, wp_ask. intros [resp|] e; [|done].
  destruct (_validate_initial_code_response resp) as [[] msg]; simpl;
    [|by apply wp_ret].
  apply wp_bind, wp_on_disk, wp_bind, wp_on_disk, wp_bind, wp_emit, wp_bind,
    wp_read_disk.
  simpl. destruct (build_project_structure _ _) as [[] built];
    [|by apply wp_bind, wp_on_disk, wp_ret].
  apply wp_bind, wp_on_disk. simpl. apply wp_bind.
  eapply wp_wand; [apply build_and_verify_result|]. simpl. intros [r|] w'; [|done].
  intros Hr. apply wp_ret. by apply (after_verify_result n a fb).
Qed.

Lemma modification_attempt_result n c a fb w :
  wp (modification_attempt n c a fb) w
     (λ o _, match o with Some (Return r) => step_result n r | _ => True end).
Proof.
  unfold modification_attempt, generate.
  apply wp_bind, wp_bind, wp_emit, wp_ask. intros [resp|] e; [|done].
  destruct (_validate_modification_instructions_response resp) as [[] msg]; simpl;
    [|by apply wp_ret].
  apply wp_bind, wp_on_disk, wp_bind, wp_on_disk, wp_bind, wp_emit, wp_bind,
    wp_read_disk.
  simpl. destruct (apply_modifications _ _ _) as [[] built];
    [|by apply wp_bind, wp_on_disk, wp_ret].
  apply wp_bind, wp_on_disk. simpl. apply wp_bind.
  eapply wp_wand; [apply build_and_verify_result|]. simpl. intros [r|] w'; [|done].
  intros Hr. apply wp_ret. by apply (after_verify_result n a fb).
Qed.

Lemma attempt_loop_result n body :
  (∀ a fb w, wp (body a fb) w
     (λ o _, match o with Some (Return r) => step_result n r | _ => True end)) →
  ∀ remaining a fb w, step_result n (attempt_loop body remaining a fb w).1.
Proof.
  intros Hbody. induction remaining as [|remaining IH]; intros a fb w; simpl.
  { right. by left. }
  specialize (Hbody (a + 1) fb w). unfold wp in Hbody.
  destruct (body (a + 1) fb w) as [[[fb'|r]|] w1]; simpl in *.
  - apply IH.
  - done.
  - right. by left.
Qed.

Lemma execute_step_result n task c w : step_result n (execute_step n task c w).1.
Proof.
  unfold execute_step. destruct (_ && _).
  - unfold _execute_initial_generation_step.
    destruct (negb _); [right; by left|].
    apply attempt_loop_result. apply initial_attempt_result.
  - unfold _execute_modification_step.
    destruct (negb _); [right; by left|].
    apply attempt_loop_result. apply modification_attempt_result.
Qed.

(** X7.  A step returns [success]; or [aborted] without payload; or the action
    that the manual gate answered without feedback to one of its attempts,
    as it is and without payload; or, when the tests of an attempt fail
    with no feedback at all, [failure] with the empty feedback. *)
Theorem step_result_comes_from_the_gate n task c w :
  step_result n (execute_step n task c w).1.
Proof. apply execute_step_result. Qed.

(** *** Modification instructions that fail validation *)

Lemma modification_attempt_invalid n c a fb w :
  (∃ r, (ask_generator "code_modification" n a c
           (feedback_section_of modification_feedback_header fb) (dsk w) (ext w)).1
        = Some r
        ∧ (_validate_modification_instructions_response r).1 = false) →
  ∃ m e, modification_violation m
    ∧ modification_attempt n c a fb w
      = (Some (Continue (fb ++ [m])),
         {| dsk := dsk w;
            log := log w ++ [GeneratorAsked "code_modification" n a
                               (feedback_section_of modification_feedback_header fb)];
            ext := e |}).
Proof.
  intros (r & Hr & Hinvalid).
  unfold modification_attempt, generate, ask, emit, mbind, M_bind. simpl.
  destruct (ask_generator _ _ _ _ _ _ _) as [o e]. simpl in Hr. subst o.
  exists ("JSON格式错误: " +:+ (_validate_modification_instructions_response r).2), e.
  split; [by exists r|].
  destruct (_validate_modification_instructions_response r) as [[] msg];
    simpl in *; done.
Qed.

Lemma invalid_modification_loop n c :
  (∀ a fb d e, ∃ r,
     (ask_generator "code_modification" n a c fb d e).1 = Some r
     ∧ (_validate_modification_instructions_response r).1 = false) →
  ∀ remaining a fb w,
    ∃ msgs, length msgs = remaining
      ∧ Forall modification_violation msgs
      ∧ (attempt_loop (modification_attempt n c) remaining a fb w).1 = ("aborted", None)
      ∧ dsk (attempt_loop (modification_attempt n c) remaining a fb w).2 = dsk w
      ∧ log (attempt_loop (modification_attempt n c) remaining a fb w).2
        = log w ++ imap (λ i _, GeneratorAsked "code_modification" n
                                  (a + Z.of_nat i + 1)
                                  (feedback_section_of modification_feedback_header
                                     (fb ++ take i msgs))) msgs.
Proof.
  intros Hgen. induction remaining as [|remaining IH]; intros a fb w.
  { exists []. simpl. by rewrite app_nil_r. }
  cbn [attempt_loop].
  destruct (modification_attempt_invalid n c (a + 1) fb w (Hgen _ _ _ _))
    as (m & e & Hm & ->).
  destruct (IH (a + 1) (fb ++ [m])
              {| dsk := dsk w;
                 log := log w ++ [GeneratorAsked "code_modification" n (a + 1)
                                    (feedback_section_of modification_feedback_header fb)];
                 ext := e |})
    as (msgs & Hlen & Hall & Hres & Hdsk & Hlog).
  exists (m :: msgs). split; [simpl; by rewrite Hlen|]. split; [by constructor|].
  split; [done|]. split; [done|].
  rewrite Hlog. cbn [log imap]. rewrite <- app_assoc. cbn [app].
  f_equal. f_equal.
  - f_equal; [lia|]. by rewrite take_0, app_nil_r.
  - apply imap_ext. intros i x _. simpl. f_equal; [lia|].
    by rewrite <- app_assoc.
Qed.

(** X8.  The modification loop under answers that all fail validation: with
    the project definition and a latest tree in place, it asks the
    generator [max_attempts] times, each time with the feedback of all
    earlier attempts in order, builds nothing, and ends as aborted. *)
Theorem invalid_modifications_exhaust_attempts n task c w :
  json_truthy (project_definition (dsk w)) = true →
  is_Some (latest_successful_code (dsk w)) →
  (∀ a fb d e, ∃ r,
     (ask_generator "code_modification" n a c fb d e).1 = Some r
     ∧ (_validate_modification_instructions_response r).1 = false) →
  let r := _execute_modification_step n task c w in
  ∃ msgs,
    length msgs = Z.to_nat max_attempts
    ∧ Forall modification_violation msgs
    ∧ log r.2
      = log w ++ imap (λ i _, GeneratorAsked "code_modification" n
                                (Z.of_nat i + 1)
                                (feedback_section_of modification_feedback_header
                                   (take i msgs))) msgs
    ∧ dsk r.2 = dsk w
    ∧ r.1 = ("aborted", None).
Proof.
  intros Hpd Hlatest Hgen r. subst r. unfold _execute_modification_step.
  rewrite Hpd, bool_decide_eq_true_2 by done. simpl.
  destruct (invalid_modification_loop n c Hgen (Z.to_nat max_attempts) 0 [] w)
    as (msgs & Hlen & Hall & Hres & Hdsk & Hlog).
  exists msgs. split; [done|]. split; [done|]. split; [|done].
  rewrite Hlog. f_equal.
Qed.

End HandlerMore.

(** ** More on the builder *)

Section BuilderMore.

Import PyStr Builder Paths Reference Entries.
Context `{JsonParser}.

Lemma write_files_content files t0 t :
  write_files files t0 = (true, t) →
  (∀ k, is_Some (t0 !! k) → is_Some (t !! k))
  ∧ (∀ f, f ∈ files → truthy (fi_path f) = true →
          is_Some (t !! norm_path (default "" (fi_path f))))
  ∧ (∀ k c, t !! k = Some c →
       t0 !! k = Some c
       ∨ ∃ f, f ∈ files ∧ truthy (fi_path f) = true
              ∧ norm_path (default "" (fi_path f)) = k
              ∧ c = _sanitize_requirements_content (default "" (fi_path f))
                      (default "" (fi_content f))).
Proof.
  revert t0. induction files as [|f files IH]; intros t0; simpl.
  - intros [= <-]. split; [done|]. split; [by intros f ?%elem_of_nil|]. auto.
  - destruct (truthy (fi_path f)) eqn:Hp.
    + destruct (write_text t0 _ _) as [t1|] eqn:Hw; [|done].
      apply write_text_Some in Hw. subst t1.
      intros (Hmono & Hin & Hfrom)%IH. split; [|split].
      * intros k Hk. apply Hmono.
        destruct (decide (norm_path (default "" (fi_path f)) = k)) as [<-|Hne].
        -- by rewrite lookup_insert_eq.
        -- by rewrite lookup_insert_ne.
      * intros g [->|Hg]%elem_of_cons Hgp; [|by apply Hin].
        apply Hmono. by rewrite lookup_insert_eq.
      * intros k c Hk. destruct (Hfrom k c Hk) as [Hk0|(g & Hg & ?)].
        -- destruct (decide (norm_path (default "" (fi_path f)) = k)) as [<-|Hne].
           ++ rewrite lookup_insert_eq in Hk0. injection Hk0 as <-.
              right. exists f. split; [left|done].
           ++ rewrite lookup_insert_ne in Hk0 by done. by left.
        -- right. exists g. split; [by right|done].
    + intros (Hmono & Hin & Hfrom)%IH. split; [done|]. split.
      * intros g [->|Hg]%elem_of_cons Hgp; [congruence|by apply Hin].
      * intros k c Hk. destruct (Hfrom k c Hk) as [?|(g & Hg & ?)]; [by left|].
        right. exists g. split; [by right|done].
Qed.


(** X10.  An entry that names the target directory itself ends the build as
    failed: the target is left with what the entries before it gave, and
    the entries after it are not looked at.  In the modification build this
    holds for an instruction that writes or edits there. *)
Theorem entry_for_the_directory_ends_the_build :
  (∀ target pre f post t,
     build_project_structure target pre = (true, t) →
     names_the_directory f →
     build_project_structure target (pre ++ f :: post) = (false, t))
  ∧ (∀ base target pre i post t,
       apply_modifications base target pre = (true, t) →
       edits_the_directory i →
       apply_modifications base target (pre ++ i :: post) = (false, t)).
Proof.
  split.
  - intros target pre f post t Hpre [Hp Hparts].
    assert (write_files pre ∅ = (true, t)) as Hw.
    { unfold build_project_structure in Hpre.
      destruct pre; [|by destruct target]. destruct target; simpl in *; congruence. }
    assert (build_project_structure target (pre ++ f :: post)
            = write_files (pre ++ f :: post) ∅) as ->.
    { unfold build_project_structure. destruct (pre ++ f :: post) eqn:Hl.
      - by destruct pre.
      - by destruct target. }
    rewrite write_files_app, Hw. simpl. rewrite Hp. unfold write_text.
    by rewrite Hparts.
  - intros base target pre i post t Hpre (Hp & Hparts & Hty).
    unfold apply_modifications in *. rewrite apply_instructions_app, Hpre. simpl.
    unfold apply_instruction. rewrite Hp. unfold write_text, _apply_line_diffs.
    rewrite Hparts. repeat case_bool_decide; try done; tauto.
Qed.

(** X11.  The modification build changes only what its instructions name:
    when the paths of the instructions are plain, a location that none of
    them names holds in the result what it holds in the base tree, whether
    the build succeeds or not. *)
Theorem modifications_leave_other_files_alone base target instructions k :
  Forall (λ p, plain_path p = true ∧ norm_path p ≠ k) (paths_named instructions) →
  (apply_modifications base target instructions).2 !! k = default ∅ base !! k.
Proof.
  intros Hk. unfold apply_modifications.
  eapply apply_instructions_elsewhere; [|apply surjective_pairing].
  clear -Hk. induction instructions as [|j l IH]; [done|].
  unfold paths_named in Hk. simpl in Hk. constructor.
  - intros Hp. rewrite Hp in Hk. destruct (ins_path j) as [p|]; [|done].
    simpl in *. by apply Forall_cons in Hk as [[_ ?] _].
  - apply IH. destruct (truthy (ins_path j)); [|done].
    destruct (ins_path j); [|done]. simpl in Hk. by apply Forall_cons in Hk as [_ ?].
Qed.

End BuilderMore.

(** ** Reading lines back *)

Section LineFacts.

Import PyStr Lines.
#[local] Open Scope list_scope.

Lemma string_app_assoc (a b c : string) : (a +:+ b) +:+ c = a +:+ (b +:+ c).
Proof.
  induction a as [|x a IH]; [done|].
  change (String x ((a +:+ b) +:+ c) = String x (a +:+ (b +:+ c))). by rewrite IH.
Qed.

Lemma string_app_nil_r (a : string) : a +:+ "" = a.
Proof.
  induction a as [|x a IH]; [done|].
  change (String x (a +:+ "") = String x a). by rewrite IH.
Qed.

Lemma push_app cur c rest : push cur c +:+ rest = cur +:+ String c rest.
Proof. unfold push. by rewrite string_app_assoc. Qed.

Lemma splitlines_from_cons cur c rest :
  splitlines_from cur (String c rest) =
  if byte_is 13 c then
    match rest with
    | String c2 rest2 =>
        if byte_is 10 c2 then cur :: splitlines_from "" rest2
        else cur :: splitlines_from "" rest
    | EmptyString => cur :: splitlines_from "" rest
    end
  else if is_line_break c then cur :: splitlines_from "" rest
  else if byte_is 194 c then
    match rest with
    | String c2 rest2 =>
        if byte_is 133 c2 then cur :: splitlines_from "" rest2
        else splitlines_from (push cur c) rest
    | EmptyString => splitlines_from (push cur c) rest
    end
  else if byte_is 226 c then
    match rest with
    | String c2 (String c3 rest3) =>
        if byte_is 128 c2 && (byte_is 168 c3 || byte_is 169 c3)
        then cur :: splitlines_from "" rest3
        else splitlines_from (push cur c) rest
    | _ => splitlines_from (push cur c) rest
    end
  else splitlines_from (push cur c) rest.
Proof. done. Qed.

Lemma byte_is_other n m c : byte_is n c = true → n ≠ m → byte_is m c = false.
Proof.
  unfold byte_is. intros ->%Nat.eqb_eq Hne. by apply Nat.eqb_neq.
Qed.

(** Where no boundary starts, the scan takes the character into the
    pending line. *)
Lemma scan_clean cur c rest :
  clean_at (String c rest) = true →
  splitlines_from cur (String c rest) = splitlines_from (push cur c) rest.
Proof.
  rewrite splitlines_from_cons. unfold clean_at.
  destruct (byte_is 13 c); [done|]. destruct (is_line_break c); [done|].
  destruct (byte_is 194 c); simpl.
  { destruct rest as [|c2 rest2]; [done|]. by destruct (byte_is 133 c2). }
  destruct (byte_is 226 c); simpl; [|done].
  destruct rest as [|c2 [|c3 rest3]]; try done.
  by destruct (byte_is 128 c2 && (byte_is 168 c3 || byte_is 169 c3)).
Qed.

(** Where a boundary starts, the scan closes the pending line and goes on
    behind the boundary. *)
Lemma scan_break cur c rest :
  clean_at (String c rest) = false →
  ∃ rest', (String.length rest' ≤ String.length rest)%nat
           ∧ splitlines_from cur (String c rest) = cur :: splitlines_from "" rest'.
Proof.
  rewrite splitlines_from_cons. unfold clean_at.
  destruct (byte_is 13 c).
  { intros _. destruct rest as [|c2 rest2]; [by exists ""|].
    destruct (byte_is 10 c2); [exists rest2|exists (String c2 rest2)];
      (split; [simpl; lia|done]). }
  destruct (is_line_break c); [intros _; by exists rest|].
  destruct (byte_is 194 c) eqn:H194; simpl.
  { rewrite (byte_is_other 194 226 c H194) by done. simpl.
    destruct rest as [|c2 rest2]; [done|].
    destruct (byte_is 133 c2); [|done]. intros _. exists rest2.
    split; [simpl; lia|done]. }
  destruct (byte_is 226 c); simpl; [|done].
  destruct rest as [|c2 [|c3 rest3]]; try done.
  destruct (byte_is 128 c2 && (byte_is 168 c3 || byte_is 169 c3)); [|done].
  intros _. exists rest3. split; [simpl; lia|done].
Qed.

(** Looking at a shorter string cannot reveal a boundary. *)
Lemma clean_at_prefix c x s :
  clean_at (String c (x +:+ s)) = true → clean_at (String c x) = true.
Proof.
  unfold clean_at. destruct (byte_is 13 c); [done|].
  destruct (is_line_break c); [done|]. simpl.
  destruct (byte_is 194 c) eqn:H194; simpl.
  { rewrite (byte_is_other 194 226 c H194) by done. simpl.
    destruct x as [|c2 x]; [done|].
    change (String c2 x +:+ s) with (String c2 (x +:+ s)).
    by destruct (byte_is 133 c2). }
  destruct (byte_is 226 c); simpl; [|done].
  destruct x as [|c2 [|c3 x]]; try done.
Qed.

(** Nor can a newline that follows. *)
Lemma clean_at_newline c x s :
  clean_at (String c x) = true → clean_at (String c (x +:+ newline +:+ s)) = true.
Proof.
  unfold clean_at. destruct (byte_is 13 c); [done|].
  destruct (is_line_break c); [done|]. simpl.
  destruct (byte_is 194 c) eqn:H194; simpl.
  { rewrite (byte_is_other 194 226 c H194) by done. simpl.
    destruct x as [|c2 x]; [done|].
    change (String c2 x +:+ newline +:+ s) with (String c2 (x +:+ newline +:+ s)).
    by destruct (byte_is 133 c2). }
  destruct (byte_is 226 c); simpl; [|done].
  destruct x as [|c2 [|c3 x]].
  - intros _. change ("" +:+ newline +:+ s) with (String "010"%char s).
    by destruct s.
  - intros _.
    change (String c2 "" +:+ newline +:+ s) with (String c2 (String "010"%char s)).
    change (negb (byte_is 128 c2 && false) = true). by rewrite andb_false_r.
  - done.
Qed.

Lemma plain_scan_newline l cur s :
  plain l = true →
  splitlines_from cur (l +:+ newline +:+ s) = (cur +:+ l) :: splitlines_from "" s.
Proof.
  revert cur. induction l as [|c l IH]; intros cur Hl.
  - by rewrite string_app_nil_r.
  - simpl in Hl. apply andb_true_iff in Hl as [Hc Hl].
    change (String c l +:+ newline +:+ s) with (String c (l +:+ newline +:+ s)).
    rewrite scan_clean by by apply clean_at_newline.
    rewrite IH by done. by rewrite push_app.
Qed.

Lemma plain_scan_end l cur :
  plain l = true → splitlines_from cur l = flush (cur +:+ l).
Proof.
  revert cur. induction l as [|c l IH]; intros cur Hl.
  - by rewrite string_app_nil_r.
  - simpl in Hl. apply andb_true_iff in Hl as [Hc Hl].
    rewrite scan_clean by done. rewrite IH by done. by rewrite push_app.
Qed.

(** Lines that are written out, each with a newline, are read back as
    they were. *)
Lemma splitlines_unlines lines :
  Forall (λ l, plain l = true) lines → splitlines (unlines lines) = lines.
Proof.
  unfold splitlines. induction 1 as [|l lines Hl _ IH]; [done|].
  simpl. rewrite plain_scan_newline by done. by rewrite IH.
Qed.

Lemma join_unlines l lines :
  join newline (l :: lines) +:+ newline = unlines (l :: lines).
Proof.
  revert l. induction lines as [|l2 lines IH]; intros l; [done|].
  change (join newline (l :: l2 :: lines))
    with (l +:+ newline +:+ join newline (l2 :: lines)).
  rewrite !string_app_assoc, IH. done.
Qed.

(** Lines that are joined by newlines are read back as they were, unless
    the last one is empty. *)
Lemma splitlines_join lines :
  Forall (λ l, plain l = true) lines → last lines ≠ Some "" →
  splitlines (join newline lines) = lines.
Proof.
  unfold splitlines. induction 1 as [|l lines Hl Hall IH]; [done|].
  destruct lines as [|l2 lines].
  - intros Hlast. simpl. rewrite plain_scan_end by done.
    destruct l; [done|done].
  - intros Hlast.
    change (join newline (l :: l2 :: lines))
      with (l +:+ newline +:+ join newline (l2 :: lines)).
    rewrite plain_scan_newline by done. by rewrite IH.
Qed.

Lemma plain_upto_push cur c rest :
  plain_upto (String.length cur) (cur +:+ String c rest) = true →
  clean_at (String c rest) = true →
  plain_upto (String.length (push cur c)) (push cur c +:+ rest) = true.
Proof.
  induction cur as [|a cur IH]; intros Hq Hc.
  - change (clean_at (String c rest) && true = true). by rewrite Hc.
  - change (plain_upto _ _) with
      (clean_at (String a (cur +:+ String c rest))
       && plain_upto (String.length cur) (cur +:+ String c rest)) in Hq.
    apply andb_true_iff in Hq as [Ha Hq].
    change (plain_upto _ _) with
      (clean_at (String a (push cur c +:+ rest))
       && plain_upto (String.length (push cur c)) (push cur c +:+ rest)).
    rewrite IH by done. by rewrite push_app, Ha.
Qed.

Lemma plain_upto_plain cur s :
  plain_upto (String.length cur) (cur +:+ s) = true → plain cur = true.
Proof.
  induction cur as [|a cur IH]; [done|].
  change (plain_upto _ _) with
    (clean_at (String a (cur +:+ s)) && plain_upto (String.length cur) (cur +:+ s)).
  intros [Ha Hq]%andb_true_iff. simpl.
  change (clean_at (String a cur) && plain cur = true).
  rewrite IH by done. by rewrite (clean_at_prefix a cur s).
Qed.

Lemma splitlines_from_plain n s cur :
  (String.length s ≤ n)%nat →
  plain_upto (String.length cur) (cur +:+ s) = true →
  Forall (λ l, plain l = true) (splitlines_from cur s).
Proof.
  revert s cur. induction n as [|n IH]; intros s cur Hn Hq.
  - destruct s; [|simpl in Hn; lia]. rewrite string_app_nil_r in Hq.
    simpl. destruct cur as [|a cur]; [constructor|].
    constructor; [|constructor]. apply (plain_upto_plain _ ""). by rewrite string_app_nil_r.
  - destruct s as [|c rest].
    { rewrite string_app_nil_r in Hq. simpl.
      destruct cur as [|a cur]; [constructor|]. constructor; [|constructor].
      apply (plain_upto_plain _ ""). by rewrite string_app_nil_r. }
    simpl in Hn. destruct (clean_at (String c rest)) eqn:Hc.
    + rewrite scan_clean by done. apply IH; [lia|]. by apply plain_upto_push.
    + destruct (scan_break cur c rest Hc) as (rest' & Hlen & ->).
      constructor; [by eapply plain_upto_plain|]. apply IH; [lia|done].
Qed.

(** Every line that [splitlines] gives is free of line boundaries. *)
Lemma splitlines_plain s : Forall (λ l, plain l = true) (splitlines s).
Proof. by apply (splitlines_from_plain (String.length s)). Qed.

End LineFacts.

(** ** The dependency-manifest sanitizer, and edits in a row *)

Section SanitizerMore.

Import PyStr Builder Handler Lines.
#[local] Open Scope list_scope.

Lemma filter_length_le {A} (P : A → bool) (l : list A) :
  (length (List.filter P l) ≤ length l)%nat.
Proof. induction l as [|x l IH]; simpl; [done|]. destruct (P x); simpl; lia. Qed.

Lemma filter_nothing_removed {A} (P : A → bool) (l : list A) :
  (length l ≤ length (List.filter P l))%nat → List.filter P l = l.
Proof.
  induction l as [|x l IH]; simpl; [done|].
  pose proof (filter_length_le P l). destruct (P x); simpl; intros Hlen.
  - f_equal. apply IH. lia.
  - lia.
Qed.

Lemma filter_filter_same {A} (P : A → bool) (l : list A) :
  List.filter P (List.filter P l) = List.filter P l.
Proof.
  induction l as [|x l IH]; simpl; [done|].
  destruct (P x) eqn:HP; simpl; [|done]. by rewrite HP, IH.
Qed.

Lemma filter_plain (P : string → bool) (l : list string) :
  Forall (λ l, plain l = true) l → Forall (λ l, plain l = true) (List.filter P l).
Proof.
  induction 1 as [|x l Hx _ IH]; simpl; [done|]. destruct (P x); [by constructor|done].
Qed.

Lemma app_newline_not_empty s : s +:+ newline ≠ "".
Proof. by destruct s. Qed.

Lemma sanitize_removed text :
  (length (List.filter keeps_line (splitlines text)) < length (splitlines text))%nat →
  sanitize_dependency_text text
  = join newline (List.filter keeps_line (splitlines text)) +:+ newline.
Proof.
  intros Hlt. unfold sanitize_dependency_text.
  by rewrite (proj2 (Nat.ltb_lt _ _) Hlt).
Qed.

Lemma sanitize_untouched text :
  ¬ (length (List.filter keeps_line (splitlines text)) < length (splitlines text))%nat →
  sanitize_dependency_text text = text
  ∧ List.filter keeps_line (splitlines text) = splitlines text.
Proof.
  intros Hge. unfold sanitize_dependency_text.
  rewrite (proj2 (Nat.ltb_ge _ _)) by lia. split; [done|].
  apply filter_nothing_removed. lia.
Qed.

Lemma sanitize_lines text :
  List.filter keeps_line (splitlines text) ≠ [] →
  splitlines (sanitize_dependency_text text)
  = List.filter keeps_line (splitlines text).
Proof.
  intros Hne.
  destruct (decide (length (List.filter keeps_line (splitlines text))
                    < length (splitlines text))%nat) as [Hlt|Hge].
  - rewrite sanitize_removed by done.
    assert (Forall (λ l, plain l = true) (List.filter keeps_line (splitlines text)))
      as Hplain by apply filter_plain, splitlines_plain.
    destruct (List.filter keeps_line (splitlines text)) as [|l rest]; [done|].
    rewrite join_unlines. by apply splitlines_unlines.
  - destruct (sanitize_untouched text Hge) as [Heq1 Heq2]. by rewrite Heq1, Heq2.
Qed.

Lemma sanitize_idempotent text :
  sanitize_dependency_text (sanitize_dependency_text text)
  = sanitize_dependency_text text.
Proof.
  destruct (decide (length (List.filter keeps_line (splitlines text))
                    < length (splitlines text))%nat) as [Hlt|Hge].
  - destruct (decide (List.filter keeps_line (splitlines text) = [])) as [Hnil|Hne].
    + rewrite (sanitize_removed text) by done. rewrite Hnil. reflexivity.
    + pose proof (sanitize_lines text Hne) as Hlines.
      apply sanitize_untouched. rewrite Hlines, filter_filter_same. lia.
  - destruct (sanitize_untouched text Hge) as [Heq _]. by rewrite !Heq.
Qed.

(** X12.  What the sanitizer leaves in a manifest of the ASCII range: its
    lines are the lines of the original that are not blank and do not start
    with the name of a listed standard module, in their order; if there is
    no such line but there were lines, a single newline is left.  Only an
    empty manifest comes out empty, so every other one still goes to the
    installer. *)
Theorem sanitized_manifest_holds_the_kept_lines text :
  is_ascii text = true →
  let kept := List.filter keeps_line (splitlines text) in
  (kept ≠ [] → splitlines (sanitize_dependency_text text) = kept)
  ∧ (kept = [] → splitlines text ≠ [] → sanitize_dependency_text text = newline)
  ∧ (sanitize_dependency_text text = "" ↔ text = "").
Proof.
  intros _. simpl. split; [apply sanitize_lines|]. split.
  - intros Hnil Hlines. rewrite sanitize_removed; rewrite Hnil; [done|].
    destruct (splitlines text); [done|simpl; lia].
  - split; [|by intros ->].
    destruct (decide (length (List.filter keeps_line (splitlines text))
                      < length (splitlines text))%nat) as [Hlt|Hge].
    + rewrite sanitize_removed by done. by intros ?%app_newline_not_empty.
    + destruct (sanitize_untouched text Hge) as [Heq _]. by rewrite Heq.
Qed.

(** X13.  Sanitizing a manifest a second time changes nothing. *)
Theorem sanitizing_twice_is_sanitizing_once attempt name :
  _sanitize_dependency_file (_sanitize_dependency_file attempt name) name
  = _sanitize_dependency_file attempt name.
Proof.
  unfold _sanitize_dependency_file.
  destruct (attempt !! norm_path name) as [text|] eqn:Ht.
  - rewrite lookup_insert_eq, insert_insert_eq. by rewrite sanitize_idempotent.
  - by rewrite Ht.
Qed.

(** *** Reading back what the builder wrote *)

Lemma apply_diff_plain lines d :
  Forall (λ l, plain l = true) lines →
  Forall (λ l, plain l = true) (apply_diff lines d).
Proof.
  intros Hl. unfold apply_diff. destruct (_ || _); [done|].
  apply Forall_app. split; [by apply Forall_take|].
  apply Forall_app. split; [apply splitlines_plain|by apply Forall_drop].
Qed.

Lemma apply_diffs_plain lines diffs :
  Forall (λ l, plain l = true) lines →
  Forall (λ l, plain l = true) (apply_diffs lines diffs).
Proof.
  unfold apply_diffs. generalize (sorted_desc diffs). intros l. revert lines.
  induction l as [|d l IH]; intros lines Hl; simpl; [done|].
  by apply IH, apply_diff_plain.
Qed.


End SanitizerMore.

(** ** Listings, and the task of a step *)

Section StoreFacts.

Import PyStr PyDict Builder Paths State Controller Store Shapes.
Context `{JsonParser}.

Lemma insert_path_perm x l : insert_path x l ≡ₚ x :: l.
Proof.
  induction l as [|y l IH]; simpl; [done|].
  destruct (path_le x.1 y.1); [done|]. rewrite IH. apply Permutation_swap.
Qed.

Lemma sorted_files_perm t : sorted_files t ≡ₚ map_to_list t.
Proof.
  unfold sorted_files. induction (map_to_list t) as [|x l IH]; simpl; [done|].
  by rewrite insert_path_perm, IH.
Qed.

Lemma filter_sublist {A} (P : A → bool) (l : list A) : List.filter P l `sublist_of` l.
Proof.
  induction l as [|x l IH]; simpl; [done|].
  destruct (P x); [by apply sublist_skip|by apply sublist_cons].
Qed.

Lemma write_listing (entries : list (string * string)) (t0 : tree) :
  Forall (λ '(k, c), path_parts k ≠ [] ∧ norm_path k = k ∧ replace_backslash k = k
                     ∧ _sanitize_requirements_content k c = c) entries →
  NoDup entries.*1 →
  ∃ t', write_files
          (map (λ '(p, content), {| fi_path := Some (replace_backslash p);
                                    fi_content := Some content |}) entries) t0
        = (true, t')
        ∧ ∀ k, t' !! k = match (list_to_map entries : tree) !! k with
                         | Some c => Some c
                         | None => t0 !! k
                         end.
Proof.
  revert t0. induction entries as [|[k0 c0] entries IH]; intros t0 Hwf Hnd.
  - exists t0. split; [done|]. intros k. simpl. by rewrite lookup_empty.
  - apply Forall_cons in Hwf as [(Hparts & Hnorm & Hback & Hsan) Hwf].
    rewrite fmap_cons in Hnd. apply NoDup_cons in Hnd as [Hk0 Hnd].
    cbn [map write_files]. cbv zeta. cbn [fi_path fi_content default]. rewrite Hback.
    assert (truthy (Some k0) = true) as ->.
    { destruct k0; [|done]. by destruct Hparts. }
    unfold id. rewrite Hsan. unfold write_text.
    destruct (path_parts k0) as [|x parts] eqn:Hp; [done|].
    rewrite Hnorm.
    destruct (IH (<[k0 := c0]> t0) Hwf Hnd) as (t' & Hw & Hlook).
    exists t'. split; [done|]. intros k. rewrite Hlook.
    cbn [list_to_map foldr uncurry]. simpl.
    destruct (decide (k = k0)) as [->|Hne].
    + rewrite lookup_insert_eq.
      rewrite (not_elem_of_list_to_map_1 (M:=gmap string)) by done.
      by rewrite lookup_insert_eq.
    + by rewrite !lookup_insert_ne.
Qed.


(** *** The task of a step *)

Lemma get_task_for_step_app l1 l2 n :
  get_task_for_step (l1 ++ l2) n =
  match get_task_for_step l1 n with
  | Some t => Some t
  | None => get_task_for_step l2 n
  end.
Proof.
  induction l1 as [|t l1 IH]; simpl; [done|].
  by destruct (step_number t =? n).
Qed.

Lemma get_fold_steps tasks (d0 : dict step) n :
  get n (fold_left (λ d s, set (step_number s) s d) tasks d0) =
  match get_task_for_step (rev tasks) n with
  | Some t => Some t
  | None => get n d0
  end.
Proof.
  revert d0. induction tasks as [|s tasks IH]; intros d0; simpl; [done|].
  rewrite IH, get_task_for_step_app. simpl.
  destruct (get_task_for_step (rev tasks) n); [done|].
  destruct (Z.eqb_spec (step_number s) n) as [<-|Hne].
  - apply get_set_eq.
  - by apply get_set_ne.
Qed.

Lemma get_task_for_step_Some l n t :
  get_task_for_step l n = Some t → t ∈ l ∧ step_number t = n.
Proof.
  induction l as [|t0 l IH]; simpl; [done|].
  destruct (Z.eqb_spec (step_number t0) n) as [<-|Hne].
  - intros [= ->]. split; [left|done].
  - intros [? ?]%IH. split; [by right|done].
Qed.

Lemma get_task_for_step_unique l t :
  NoDup (step_number <$> l) → t ∈ l → get_task_for_step l (step_number t) = Some t.
Proof.
  induction l as [|t0 l IH]; simpl; [by intros _ ?%elem_of_nil|].
  intros [Ht0 Hnd]%NoDup_cons [->|Ht]%elem_of_cons.
  - by rewrite Z.eqb_refl.
  - destruct (Z.eqb_spec (step_number t0) (step_number t)) as [Heq|Hne]; [|by apply IH].
    destruct Ht0. rewrite Heq. apply list_elem_of_fmap. by exists t.
Qed.

(** X16.  When two steps of the task list carry the same number, the scheduler
    works with the one that comes last, while [get_task_for_step], which
    the inspection and the manual gate go by, gives the first.  For a task
    list with distinct numbers the two agree. *)
Theorem same_number_last_definition_runs tasks n :
  get n (steps_dict tasks) = get_task_for_step (rev tasks) n
  ∧ (NoDup (step_number <$> tasks) →
     get n (steps_dict tasks) = get_task_for_step tasks n).
Proof.
  assert (get n (steps_dict tasks) = get_task_for_step (rev tasks) n) as Hlast.
  { unfold steps_dict. rewrite get_fold_steps. by destruct (get_task_for_step _ _). }
  split; [done|]. intros Hnd. rewrite Hlast.
  assert (rev tasks = reverse tasks) as Hrev by (unfold reverse; apply rev_alt).
  rewrite Hrev.
  assert (NoDup (step_number <$> reverse tasks)) as Hnd'.
  { by rewrite fmap_reverse, reverse_Permutation. }
  destruct (get_task_for_step tasks n) as [t|] eqn:Hfirst.
  - apply get_task_for_step_Some in Hfirst as [Ht <-].
    apply get_task_for_step_unique; [done|]. exact (proj2 (elem_of_reverse _ _) Ht).
  - destruct (get_task_for_step (reverse tasks) n) as [t|] eqn:Hr; [|done].
    apply get_task_for_step_Some in Hr as [Ht <-].
    rewrite get_task_for_step_unique in Hfirst; [done..|].
    exact (proj1 (elem_of_reverse _ _) Ht).
Qed.

End StoreFacts.

(** ** The manual gate *)

Section ConsoleFacts.

Import PyStr Console.

Lemma read_until_done_suffix inputs lines result rest :
  read_until_done inputs lines = Some (result, rest) → rest `suffix_of` inputs.
Proof.
  revert lines. induction inputs as [|line inputs IH]; intros lines; simpl; [done|].
  destruct (String.eqb _ _).
  - intros [= _ <-]. by apply suffix_cons_r.
  - intros Hr%IH. by apply suffix_cons_r.
Qed.

Lemma gate_answers inputs r rest :
  prompt_for_manual_execution inputs = Some (r, rest) →
  gate_answer r ∧ rest `suffix_of` inputs ∧ rest ≠ inputs.
Proof.
  assert (∀ (l : typed) x, l `suffix_of` x :: l ∧ l ≠ x :: l) as Hcons.
  { intros l x. split; [by apply suffix_cons_r|]. intros Heq.
    apply (f_equal length) in Heq. simpl in Heq. lia. }
  assert (∀ (l m : typed) x, l `suffix_of` m → l `suffix_of` x :: m ∧ l ≠ x :: m)
    as Hlater.
  { intros l m x Hs. split; [by apply suffix_cons_r|]. intros ->.
    apply suffix_length in Hs. simpl in Hs. lia. }
  induction inputs as [|line inputs IH]; simpl; [done|].
  destruct (String.eqb _ "a"); [intros [= <- <-]; split; [by left|apply Hcons]|].
  destruct (String.eqb _ "s");
    [intros [= <- <-]; split; [right; by left|apply Hcons]|].
  destruct (String.eqb _ "y");
    [intros [= <- <-]; split; [right; right; by left|apply Hcons]|].
  destruct (String.eqb _ "n").
  - destruct (read_until_done inputs []) as [[lines rest']|] eqn:Hread; [|done].
    intros [= <- <-]. split.
    + right. right. right. eexists. split; [done|].
      destruct (String.eqb_spec (strip (join newline lines)) ""); [|done].
      by vm_compute.
    + apply Hlater. by eapply read_until_done_suffix.
  - intros [Hr [Hs _]]%IH. split; [done|]. by apply Hlater.
Qed.

(** X17.  The manual gate answers [abort], [skip] or [success] without
    feedback, or [failure] with a feedback that is not blank; it never
    answers [aborted] or [skipped].  Lines of the ASCII range that are no
    answer are passed over, and the lines it has read are used up. *)
Theorem manual_gate_answers :
  (∀ inputs r rest,
     prompt_for_manual_execution inputs = Some (r, rest) →
     gate_answer r ∧ rest `suffix_of` inputs ∧ rest ≠ inputs)
  ∧ (∀ ignored inputs,
       Forall (λ line, is_ascii line = true ∧ no_answer line) ignored →
       prompt_for_manual_execution (ignored ++ inputs)
       = prompt_for_manual_execution inputs).
Proof.
  split; [apply gate_answers|].
  intros ignored inputs Hall.
  induction Hall as [|line ignored [_ Hline] _ IH]; [done|].
  simpl. unfold no_answer in Hline.
  destruct (String.eqb_spec (lower (strip line)) "a") as [Heq|_];
    [destruct Hline; rewrite Heq; set_solver|].
  destruct (String.eqb_spec (lower (strip line)) "s") as [Heq|_];
    [destruct Hline; rewrite Heq; set_solver|].
  destruct (String.eqb_spec (lower (strip line)) "y") as [Heq|_];
    [destruct Hline; rewrite Heq; set_solver|].
  destruct (String.eqb_spec (lower (strip line)) "n") as [Heq|_];
    [destruct Hline; rewrite Heq; set_solver|].
  done.
Qed.

End ConsoleFacts.

(** ** The manual gate and the run *)

Section GateAndRun.

Import PyDict PyStr Builder State Handler Controller Graph Runs Traces.
Context {E : Type} `{JsonParser} `{StepHandler E}.

Lemma run_queue_results (P : string → Prop) (execute : Z → step → gset Z → world E → _)
    fuel steps adj total (s : @sched (world E)) :
  (∀ n task c w, P (execute n task c w).1.1) →
  Forall (λ c, P (returned c)) (started s) →
  Forall (λ c, P (returned c)) (started (run_queue execute fuel steps adj total s).2).
Proof.
  intros HP. revert s. induction fuel as [|fuel IH]; intros s Hs; simpl; [done|].
  destruct (queue s) as [|k q]; [done|].
  destruct (get k steps) as [task|]; [|done].
  pose proof (HP k task (completed_steps s) (surroundings s)) as Hk.
  destruct (execute _ _ _ _) as [[result main] w]. simpl in Hk.
  assert (Forall (λ c, P (returned c))
            (started s ++ [{| called := k; given := completed_steps s;
                              returned := result |}])) as Hs'.
  { apply Forall_app. split; [done|]. by apply Forall_singleton. }
  destruct (String.eqb result "success").
  - destruct (get k adj); [|done]. destruct (release _ _ _) as [[? ?]|]; [|done].
    by apply IH.
  - destruct (orb _ _); [done|]. by apply IH.
Qed.

(** X18.  With a manual gate that answers as the console does, a step returns
    [success], [aborted], [failure], [abort] or [skip], and never
    [skipped].  An abort or a skip chosen at the gate so reaches the
    scheduler as [abort] or [skip], which does not end the run: a run ends
    early only on [aborted]. *)
Theorem abort_at_the_gate_does_not_end_the_run :
  (∀ n a d e, ∃ inputs rest,
     Console.prompt_for_manual_execution inputs
     = Some ((Handler.prompt_for_manual_execution n a d e).1.1, rest)) →
  (∀ n task c w,
     (execute_step n task c w).1.1 ∈ ["success"; "aborted"; "failure"; "abort"; "skip"])
  ∧ (∀ tasks w,
       let r := run_steps_execution_phase execute_step tasks w in
       ∀ result n some_completed,
         r.1 = Terminated result n some_completed → result = "aborted").
Proof.
  intros Hgate.
  assert (∀ n task c w,
            (execute_step n task c w).1.1
            ∈ ["success"; "aborted"; "failure"; "abort"; "skip"]) as Hclass.
  { intros n task c w.
    destruct (execute_step_result n task c w)
      as [->|[->|[->|[Hp (a & d & e & fb & Hanswer & Hfb)]]]];
      [by repeat constructor..|].
    destruct (Hgate n a d e) as (inputs & rest & Hconsole).
    rewrite Hanswer in Hconsole.
    apply gate_answers in Hconsole as [Hr _].
    destruct Hr as [[= ->]|[[= ->]|[[= ->]|(feedback & [= -> ->] & _)]]];
      by repeat constructor. }
  split; [done|]. intros tasks w r result n b Hr.
  assert (Forall (λ c, returned c ≠ "skipped") (started r.2)
          ∧ ∃ earlier c, started r.2 = earlier ++ [c] ∧ returned c = result
                         ∧ stops result) as [Hnever (earlier & c & Hst & Hc & Hstop)].
  { subst r. unfold run_steps_execution_phase in *.
    destruct tasks as [|t0 ts]; [done|].
    destruct (build_graph _ _ _) as [[? ?]|[adj indeg]]; [done|]. split.
    - apply (run_queue_results (λ res, res ≠ "skipped")); [|done].
      intros n' task c w' Heq. specialize (Hclass n' task c w').
      assert ((execute_step n' task c w').1.1 = "skipped") as Heq' by exact Heq.
      rewrite Heq' in Hclass.
      repeat (apply elem_of_cons in Hclass as [?|Hclass]; [done|]).
      by apply elem_of_nil in Hclass.
    - match goal with |- context [run_queue ?e ?f ?st ?a ?t ?s] =>
        pose proof (run_queue_stops e f st a t s (Forall_nil_2 _)) as Hq end.
      cbv zeta in Hq. rewrite Hr in Hq.
      destruct Hq as (earlier & Hst & Hstop & _). by eexists _, _. }
  rewrite Hst in Hnever. apply Forall_app in Hnever as [_ Hlast].
  rewrite Forall_singleton in Hlast. destruct Hstop as [->| ->]; [done|congruence].
Qed.

End GateAndRun.

(** ** Cleaning a reply *)

Section CleanerFacts.

Import PyStr Cleaner.

Lemma byte_is_eq n c : byte_is n c = true → c = ascii_of_nat n.
Proof.
  unfold byte_is. intros Hn%Nat.eqb_eq. subst n. symmetry. apply ascii_nat_embedding.
Qed.

Lemma app_String c s t : String c s +:+ t = String c (s +:+ t).
Proof. reflexivity. Qed.

Lemma app_empty s : "" +:+ s = s.
Proof. reflexivity. Qed.

(** *** One character of the loop *)

Lemma escape_cons i e c :
  (∃ i' e', (∀ r, escape i e (String c r) = String c (escape i' e' r))
            ∧ (byte_is 96 c = true → i' = i ∧ e' = false))
  ∨ (∃ x, (x = "n"%char ∨ x = "t"%char)
          ∧ (∀ r, escape i e (String c r) = String "\" (String x (escape true false r)))
          ∧ i = true ∧ e = false ∧ is_space c = true ∧ byte_is 96 c = false)
     .
Proof.
  destruct e.
  { left. exists i, false. split; [done|]. done. }
  destruct (byte_is 92 c) eqn:H92.
  { left. exists i, true. split; [by intros r; simpl; rewrite H92|].
    intros H96. apply byte_is_eq in H92. by subst c. }
  destruct (byte_is 34 c) eqn:H34.
  { left. exists (negb i), false. apply byte_is_eq in H34. subst c. split.
    - intros r. by destruct i.
    - intros H96. done. }
  destruct (byte_is 10 c) eqn:H10.
  { apply byte_is_eq in H10. subst c. destruct i.
    - right. exists "n"%char. split; [by left|]. by repeat split.
    - left. exists false, false. split; [done|]. done. }
  destruct (byte_is 9 c) eqn:H9.
  { apply byte_is_eq in H9. subst c. destruct i.
    - right. exists "t"%char. split; [by right|]. by repeat split.
    - left. exists false, false. split; [done|]. done. }
  left. exists i, false. split; [|done].
  intros r. simpl. rewrite H92, H34, H10, H9. by destruct i.
Qed.

Lemma escape_not_empty i e s : s ≠ "" → escape i e s ≠ "".
Proof.
  destruct s as [|c r]; [done|]. intros _.
  destruct (escape_cons i e c) as [(i' & e' & Heq & _)|(x & _ & Heq & _)];
    by rewrite Heq.
Qed.

Lemma escape_idempotent s : ∀ i e, escape i e (escape i e s) = escape i e s.
Proof.
  induction s as [|c s IH]; intros i e; [done|].
  destruct (escape_cons i e c) as [(i' & e' & Heq & _)|(x & Hx & Heq & -> & -> & _)].
  - by rewrite !Heq, IH.
  - rewrite Heq. destruct Hx as [-> | ->]; simpl; by rewrite IH.
Qed.

(** *** Fences *)

Lemma after_tick_escape i e s :
  after_tick (escape i e s) = escape i false <$> after_tick s.
Proof.
  destruct s as [|c r]; [done|].
  destruct (escape_cons i e c) as [(i' & e' & Heq & Htick)|(x & Hx & Heq & _ & _ & _ & H96)].
  - rewrite Heq. simpl. destruct (byte_is 96 c); [|done].
    by destruct (Htick eq_refl) as [-> ->].
  - rewrite Heq. simpl. by rewrite H96.
Qed.

Lemma after_fence_escape i e s :
  after_fence (escape i e s) = escape i false <$> after_fence s.
Proof.
  unfold after_fence. rewrite after_tick_escape.
  destruct (after_tick s) as [s1|]; [|done]. simpl. rewrite after_tick_escape.
  destruct (after_tick s1) as [s2|]; [|done]. simpl. apply after_tick_escape.
Qed.

Lemma find_fence_eq s :
  find_fence s =
  match after_fence s with
  | Some rest => Some ("", rest)
  | None =>
      match s with
      | EmptyString => None
      | String c s' =>
          match find_fence s' with
          | Some (before, rest) => Some (String c before, rest)
          | None => None
          end
      end
  end.
Proof. by destruct s. Qed.

Lemma after_fence_not_tick c s : byte_is 96 c = false → after_fence (String c s) = None.
Proof. intros Hc. unfold after_fence. simpl. by rewrite Hc. Qed.

Lemma find_fence_escape s :
  ∀ i e,
    match find_fence s with
    | None => find_fence (escape i e s) = None
    | Some (b, a) => ∃ i', find_fence (escape i e s) = Some (escape i e b, escape i' false a)
    end.
Proof.
  induction s as [|c s IH]; intros i e; [done|].
  rewrite (find_fence_eq (String c s)), (find_fence_eq (escape i e (String c s))).
  rewrite after_fence_escape.
  destruct (after_fence (String c s)) as [rest|] eqn:Hfence;
    cbn [fmap option_fmap option_map].
  { by exists i. }
  destruct (escape_cons i e c) as [(i' & e' & Heq & _)|(x & Hx & Heq & _ & _ & _ & H96)].
  - rewrite !Heq. specialize (IH i' e').
    destruct (find_fence s) as [[b a]|].
    + destruct IH as [i'' ->]. exists i''. by rewrite Heq.
    + by rewrite IH.
  - rewrite !Heq. specialize (IH true false).
    assert (byte_is 96 x = false) as Hx' by (by destruct Hx as [-> | ->]).
    rewrite (find_fence_eq (String x _)), (after_fence_not_tick x) by done.
    destruct (find_fence s) as [[b a]|].
    + destruct IH as [i'' ->]. exists i''. by rewrite Heq.
    + by rewrite IH.
Qed.

Lemma find_fence_cons_None c s : find_fence (String c s) = None → find_fence s = None.
Proof.
  rewrite find_fence_eq. destruct (after_fence _); [done|].
  by destruct (find_fence s) as [[??]|].
Qed.

Lemma find_fence_suffix x y : find_fence (x +:+ y) = None → find_fence y = None.
Proof.
  induction x as [|c x IH]; [done|]. rewrite app_String.
  intros Hx%find_fence_cons_None. by apply IH.
Qed.

Lemma after_tick_app x y r : after_tick x = Some r → after_tick (x +:+ y) = Some (r +:+ y).
Proof.
  destruct x as [|c x]; [done|]. rewrite app_String. simpl.
  destruct (byte_is 96 c); [|done]. by intros [= ->].
Qed.

Lemma after_fence_app x y r :
  after_fence x = Some r → after_fence (x +:+ y) = Some (r +:+ y).
Proof.
  unfold after_fence.
  destruct (after_tick x) as [x1|] eqn:H1; [|done]. simpl.
  destruct (after_tick x1) as [x2|] eqn:H2; [|done]. simpl. intros H3.
  rewrite (after_tick_app _ _ _ H1). simpl. rewrite (after_tick_app _ _ _ H2). simpl.
  by apply after_tick_app.
Qed.

Lemma find_fence_Some s b a : find_fence s = Some (b, a) → s = b +:+ fence +:+ a.
Proof.
  revert b. induction s as [|c s IH]; intros b; [done|].
  rewrite find_fence_eq.
  destruct (after_fence (String c s)) as [r|] eqn:Hf.
  - intros [= <- <-]. revert Hf. unfold after_fence. simpl.
    destruct (byte_is 96 c) eqn:H0; [|done]. simpl.
    destruct s as [|c1 s]; [done|]. simpl.
    destruct (byte_is 96 c1) eqn:H1; [|done]. simpl.
    destruct s as [|c2 s]; [done|]. simpl.
    destruct (byte_is 96 c2) eqn:H2; [|done]. intros [= ->].
    apply byte_is_eq in H0, H1, H2. by subst.
  - destruct (find_fence s) as [[b' a']|]; [|done]. intros [= <- <-].
    rewrite app_String. f_equal. by apply IH.
Qed.

Lemma find_fence_app x y b a :
  find_fence x = Some (b, a) → find_fence (x +:+ y) = Some (b, a +:+ y).
Proof.
  revert b. induction x as [|c x IH]; intros b; [done|].
  rewrite (find_fence_eq (String c x)), (find_fence_eq (String c x +:+ y)).
  destruct (after_fence (String c x)) as [r|] eqn:Hf.
  - intros [= <- <-]. by rewrite (after_fence_app _ _ _ Hf).
  - destruct (find_fence x) as [[b' a']|] eqn:Hx; [|done]. intros [= <- <-].
    rewrite app_String, (IH _ eq_refl).
    destruct (after_fence (String c (x +:+ y))) as [r|] eqn:Hf'; [|done].
    (* the fence would begin before the first one *)
    exfalso. revert Hf Hf'. rewrite (find_fence_Some _ _ _ Hx).
    unfold after_fence, fence.
    destruct b' as [|c1 [|c2 b']]; simpl;
      repeat (match goal with |- context [byte_is 96 ?c] => destruct (byte_is 96 c) end;
              simpl; try done).
Qed.

Lemma find_fence_no_tick pre s :
  no_tick pre = true →
  find_fence (pre +:+ s) = (λ '(b, a), (pre +:+ b, a)) <$> find_fence s.
Proof.
  induction pre as [|c pre IH]; cbn [no_tick].
  - intros _. rewrite app_empty. by destruct (find_fence s) as [[??]|].
  - intros [Hc Hpre]%andb_true_iff. apply negb_true_iff in Hc.
    rewrite app_String, find_fence_eq, after_fence_not_tick by done.
    rewrite IH by done. by destruct (find_fence s) as [[??]|].
Qed.

Lemma string_length_app (a b : string) :
  String.length (a +:+ b) = (String.length a + String.length b)%nat.
Proof.
  induction a as [|x a IH]; [done|]. rewrite app_String. simpl. by rewrite IH.
Qed.

Lemma find_fence_before s b a : find_fence s = Some (b, a) → find_fence b = None.
Proof.
  intros Hs. destruct (find_fence b) as [[b1 a1]|] eqn:Hb; [|done].
  pose proof (find_fence_Some _ _ _ Hs) as Heq.
  pose proof (find_fence_Some _ _ _ Hb) as Heq1.
  pose proof (find_fence_app _ (fence +:+ a) _ _ Hb) as Happ.
  rewrite <- Heq, Hs in Happ. injection Happ as Hb1 _.
  (* then [b] is shorter than itself *)
  apply (f_equal String.length) in Heq1. rewrite <- Hb1 in Heq1.
  rewrite !string_length_app in Heq1. simpl in Heq1. lia.
Qed.

Lemma find_fence_after_json a : find_fence (after_json a) = None ↔ find_fence a = None.
Proof.
  unfold after_json.
  destruct a as [|c1 [|c2 [|c3 [|c4 rest]]]]; try done.
  destruct (byte_is 106 c1 && byte_is 115 c2 && byte_is 111 c3 && byte_is 110 c4) eqn:Hj;
    [|done].
  apply andb_true_iff in Hj as [[[H1%byte_is_eq H2%byte_is_eq]%andb_true_iff
                                    H3%byte_is_eq]%andb_true_iff H4%byte_is_eq].
  subst. split.
  - intros Hr. rewrite find_fence_eq, after_fence_not_tick by done.
    rewrite find_fence_eq, after_fence_not_tick by done.
    rewrite find_fence_eq, after_fence_not_tick by done.
    rewrite find_fence_eq, after_fence_not_tick by done.
    by rewrite Hr.
  - by intros Hr%find_fence_cons_None%find_fence_cons_None%find_fence_cons_None
                %find_fence_cons_None.
Qed.

Lemma fenced_None s :
  fenced s = None ↔
  match find_fence s with
  | None => True
  | Some (_, a) => find_fence a = None
  end.
Proof.
  unfold fenced. destruct (find_fence s) as [[b a]|]; [|done].
  rewrite <- find_fence_after_json.
  by destruct (find_fence (after_json a)) as [[??]|].
Qed.

Lemma fenced_escape i e s : fenced s = None → fenced (escape i e s) = None.
Proof.
  rewrite !fenced_None. pose proof (find_fence_escape s i e) as Hs.
  destruct (find_fence s) as [[b a]|].
  - destruct Hs as [i' ->]. intros Ha.
    pose proof (find_fence_escape a i' false) as Ha'. by rewrite Ha in Ha'.
  - by rewrite Hs.
Qed.


Lemma find_fence_prefix_None a y : find_fence (a +:+ y) = None → find_fence a = None.
Proof.
  intros Hy. destruct (find_fence a) as [[b r]|] eqn:Ha; [|done].
  by rewrite (find_fence_app _ y _ _ Ha) in Hy.
Qed.

(** *** White space at the ends *)

Lemma lstrip_length l : (length (lstrip_chars l) ≤ length l)%nat.
Proof. induction l as [|c l IH]; simpl; [done|]. destruct (is_space c); simpl; lia. Qed.

Lemma lstrip_cons_fix c l : lstrip_chars (c :: l) = c :: l ↔ is_space c = false.
Proof.
  simpl. destruct (is_space c); [|done]. split; [|done].
  intros Heq. pose proof (lstrip_length l) as Hl. rewrite Heq in Hl. simpl in Hl. lia.
Qed.

Lemma lstrip_idem l : lstrip_chars (lstrip_chars l) = lstrip_chars l.
Proof.
  induction l as [|c l IH]; [done|]. simpl.
  destruct (is_space c) eqn:Hc; [done|]. simpl. by rewrite Hc.
Qed.

Lemma lstrip_split l :
  ∃ ws, l = ws ++ lstrip_chars l ∧ Forall (λ c, is_space c = true) ws.
Proof.
  induction l as [|c l (ws & Hl & Hws)]; [by exists []|]. simpl.
  destruct (is_space c) eqn:Hc.
  - exists (c :: ws). split; [by rewrite <- app_comm_cons, <- Hl|by constructor].
  - by exists [].
Qed.

Lemma lstrip_app_fix a b :
  a ≠ [] → lstrip_chars (a ++ b) = a ++ b ↔ lstrip_chars a = a.
Proof.
  destruct a as [|c a]; [done|]. intros _.
  by rewrite <- app_comm_cons, !lstrip_cons_fix.
Qed.

Lemma string_of_list_app a b :
  string_of_list_ascii (a ++ b) = string_of_list_ascii a +:+ string_of_list_ascii b.
Proof. induction a as [|c a IH]; [done|]. simpl. by rewrite IH. Qed.

Lemma list_of_string_app a b :
  list_ascii_of_string (a +:+ b) = list_ascii_of_string a ++ list_ascii_of_string b.
Proof. induction a as [|c a IH]; [done|]. rewrite app_String. simpl. by rewrite IH. Qed.

Lemma strip_fix s :
  lstrip_chars (list_ascii_of_string s) = list_ascii_of_string s →
  lstrip_chars (rev (list_ascii_of_string s)) = rev (list_ascii_of_string s) →
  strip s = s.
Proof.
  intros H1 H2. unfold strip.
  by rewrite H1, H2, rev_involutive, string_of_list_ascii_of_string.
Qed.

Lemma strip_trimmed s :
  lstrip_chars (list_ascii_of_string (strip s)) = list_ascii_of_string (strip s)
  ∧ lstrip_chars (rev (list_ascii_of_string (strip s)))
    = rev (list_ascii_of_string (strip s)).
Proof.
  unfold strip. rewrite list_ascii_of_string_of_list_ascii.
  set (m := lstrip_chars (list_ascii_of_string s)).
  set (r := lstrip_chars (rev m)). split.
  - destruct (lstrip_split (rev m)) as (ws & Hm & _). fold r in Hm.
    apply (f_equal (@rev ascii)) in Hm. rewrite rev_involutive, rev_app_distr in Hm.
    destruct (rev r) as [|c l] eqn:Hr; [done|].
    apply (lstrip_app_fix (c :: l) (rev ws)); [done|].
    rewrite <- Hm. apply lstrip_idem.
  - rewrite rev_involutive. apply lstrip_idem.
Qed.

Lemma space_no_tick ws :
  Forall (λ c, is_space c = true) ws → no_tick (string_of_list_ascii ws) = true.
Proof.
  induction 1 as [|c ws Hc _ IH]; [done|]. cbn [string_of_list_ascii no_tick].
  rewrite IH, andb_true_r. apply negb_true_iff.
  destruct (byte_is 96 c) eqn:H96; [|done].
  apply byte_is_eq in H96. by subst c.
Qed.

Lemma strip_infix s :
  ∃ pre post, s = pre +:+ strip s +:+ post ∧ no_tick pre = true.
Proof.
  destruct (lstrip_split (list_ascii_of_string s)) as (ws1 & H1 & Hws1).
  destruct (lstrip_split (rev (lstrip_chars (list_ascii_of_string s)))) as (ws2 & H2 & _).
  apply (f_equal (@rev ascii)) in H2. rewrite rev_involutive, rev_app_distr in H2.
  exists (string_of_list_ascii ws1), (string_of_list_ascii (rev ws2)).
  split; [|by apply space_no_tick].
  unfold strip. rewrite <- !string_of_list_app, <- H2, <- H1.
  by rewrite string_of_list_ascii_of_string.
Qed.

Lemma fenced_strip s : fenced s = None → fenced (strip s) = None.
Proof.
  destruct (strip_infix s) as (pre & post & Hs & Hpre).
  rewrite !fenced_None. rewrite Hs at 1. rewrite find_fence_no_tick by done.
  destruct (find_fence (strip s)) as [[b a]|] eqn:Hx; [|done].
  rewrite (find_fence_app _ post _ _ Hx). simpl. apply find_fence_prefix_None.
Qed.

Lemma find_fence_strip s : find_fence s = None → find_fence (strip s) = None.
Proof.
  destruct (strip_infix s) as (pre & post & Hs & Hpre).
  rewrite Hs at 1. intros Hx%find_fence_suffix. by apply find_fence_prefix_None in Hx.
Qed.

Lemma escape_lstrip i e s :
  lstrip_chars (list_ascii_of_string s) = list_ascii_of_string s →
  lstrip_chars (list_ascii_of_string (escape i e s))
  = list_ascii_of_string (escape i e s).
Proof.
  destruct s as [|c r]; [done|]. cbn [list_ascii_of_string].
  intros Hc%lstrip_cons_fix.
  destruct (escape_cons i e c) as [(i' & e' & Heq & _)|(x & _ & _ & _ & _ & Hsp & _)];
    [|congruence].
  rewrite Heq. cbn [list_ascii_of_string]. by apply lstrip_cons_fix.
Qed.

Lemma escape_rstrip s :
  ∀ i e,
    lstrip_chars (rev (list_ascii_of_string s)) = rev (list_ascii_of_string s) →
    lstrip_chars (rev (list_ascii_of_string (escape i e s)))
    = rev (list_ascii_of_string (escape i e s)).
Proof.
  induction s as [|c r IH]; intros i e; [done|]. cbn [list_ascii_of_string rev].
  intros Hlast.
  assert (∀ t : string, t ≠ "" → rev (list_ascii_of_string t) ≠ []) as Hne.
  { intros [|x t] Ht; [done|]. simpl. by destruct (rev (list_ascii_of_string t)). }
  destruct r as [|c' r'] eqn:Hr.
  { apply lstrip_cons_fix in Hlast.
    destruct (escape_cons i e c) as [(i' & e' & Heq & _)|(x & _ & _ & _ & _ & Hsp & _)];
      [|congruence].
    rewrite Heq. simpl. by rewrite Hlast. }
  rewrite <- Hr in *.
  assert (r ≠ "") as Hr' by (by rewrite Hr).
  apply lstrip_app_fix in Hlast; [|by apply Hne].
  destruct (escape_cons i e c) as [(i' & e' & Heq & _)|(x & _ & Heq & _)];
    rewrite Heq; cbn [list_ascii_of_string rev]; rewrite <- ?app_assoc;
    (apply lstrip_app_fix; [by apply Hne, escape_not_empty|by apply IH]).
Qed.

(** X20.  Cleaning a reply that has been cleaned changes nothing. *)
Theorem cleaning_twice_is_cleaning_once text :
  _clean_json_response (_clean_json_response text) = _clean_json_response text.
Proof.
  unfold _clean_json_response at 2.
  set (content := match fenced text with
                  | Some inner => strip inner
                  | None => strip text
                  end).
  assert (fenced content = None) as Hblock.
  { unfold content. destruct (fenced text) as [inner|] eqn:Hf.
    - apply fenced_None. rewrite find_fence_strip; [done|].
      revert Hf. unfold fenced.
      destruct (find_fence text) as [[b a]|]; [|done].
      destruct (find_fence (after_json a)) as [[inner' rest]|] eqn:Hin; [|done].
      intros [= <-]. by eapply find_fence_before.
    - by apply fenced_strip. }
  assert (strip (escape false false content) = escape false false content) as Hstrip.
  { assert (∃ z, content = strip z) as [z ->] by (unfold content; destruct (fenced text); eauto).
    destruct (strip_trimmed z) as [H1 H2].
    apply strip_fix; [by apply escape_lstrip|by apply escape_rstrip]. }
  unfold _clean_json_response.
  rewrite (fenced_escape _ _ _ Hblock), Hstrip. apply escape_idempotent.
Qed.

Lemma find_fence_first before rest :
  no_tick before = true →
  find_fence (before +:+ fence +:+ rest) = Some (before, rest).
Proof.
  intros Hb. rewrite find_fence_no_tick by done.
  rewrite (find_fence_eq (fence +:+ rest)).
  change (after_fence (fence +:+ rest)) with (Some rest).
  cbn [fmap option_fmap option_map]. by rewrite string_app_nil_r.
Qed.

Lemma after_json_before_fence body rest :
  after_json (body +:+ fence +:+ rest) = after_json body +:+ fence +:+ rest.
Proof.
  unfold after_json, fence.
  destruct body as [|c1 [|c2 [|c3 [|c4 body]]]]; rewrite ?app_String, ?app_empty.
  - by destruct rest.
  - by rewrite andb_false_r.
  - by rewrite andb_false_r.
  - by rewrite andb_false_r.
  - by destruct (_ && _).
Qed.

Lemma no_tick_after_json body : no_tick body = true → no_tick (after_json body) = true.
Proof.
  unfold after_json.
  destruct body as [|c1 [|c2 [|c3 [|c4 body]]]]; try done.
  destruct (_ && _); [|done]. cbn [no_tick].
  by intros [_ [_ [_ [_ ?]%andb_true_iff]%andb_true_iff]%andb_true_iff]%andb_true_iff.
Qed.

(** X21.  Of a reply that holds a fenced block, only the block is kept: the text
    before the first fence and the text after the second one are dropped,
    and so is the tag [json] at the head of the block.  The block is of the
    ASCII range here, so that the white space around it is what [strip]
    takes off. *)
Theorem fenced_block_is_taken before body after :
  no_tick before = true → no_tick body = true → is_ascii body = true →
  _clean_json_response (before +:+ fence +:+ body +:+ fence +:+ after)
  = escape false false (strip (after_json body)).
Proof.
  intros Hbefore Hbody _. unfold _clean_json_response, fenced.
  rewrite find_fence_first by done.
  rewrite after_json_before_fence, find_fence_first by by apply no_tick_after_json.
  done.
Qed.

End CleanerFacts.

(** ** The planning dialogue, and the choice at the end *)

Section PlanningFacts.

Import PyStr Builder State Console Planning.
Context {E : Type}.
Variable revise : json → string → E → option json * E.

Lemma get_confirmation_shorter inputs b rest :
  get_confirmation inputs = Some (b, rest) → (length rest < length inputs)%nat.
Proof.
  induction inputs as [|line inputs IH]; simpl; [done|].
  repeat case_match; try (intros [= <- <-]; lia).
  intros ?%IH. lia.
Qed.

Lemma acceptable_truthy r : acceptable r = true → json_truthy (Some r) = true.
Proof. unfold acceptable. by intros [[? _]%andb_true_iff _]%andb_true_iff. Qed.

Lemma iterate_spec (P : json → Prop) fuel : ∀ current s,
  (∀ prev feedback e r,
     (revise prev feedback e).1 = Some r → acceptable r = true → P r) →
  (length (typed_ahead s) < fuel)%nat →
  json_truthy (Some current) = true → P current →
  let r := iterate revise fuel current s in
  (length (typed_ahead r.2) ≤ length (typed_ahead s))%nat
  ∧ match r.1 with
    | OutOfFuel | NoDescription => False
    | Confirmed final =>
        store r.2 = save_refined_project_description final (store s)
        ∧ json_truthy (Some final) = true ∧ P final
    | LeftAsItIs final =>
        store r.2 = store s ∧ json_truthy (Some final) = true ∧ P final
    | Raised => store r.2 = store s
    end.
Proof.
  intros current s HP. revert current s.
  induction fuel as [|fuel IH]; intros current s Hfuel Htruthy Hcurrent; [lia|].
  cbn [iterate].
  destruct (get_confirmation (typed_ahead s)) as [[[] rest]|] eqn:Hc; cbn [fst snd].
  - apply get_confirmation_shorter in Hc. simpl. split; [lia|done].
  - apply get_confirmation_shorter in Hc.
    destruct rest as [|feedback rest]; cbn [get_feedback].
    { simpl. split; [lia|done]. }
    destruct (String.eqb (strip feedback) ""); cbn [fst snd].
    { simpl in *. split; [lia|done]. }
    destruct (revise current feedback (provider s)) as [[r|] e] eqn:Hr; cbn [fst snd].
    + simpl in Hc.
      pose proof (IH (if acceptable r then r else current)
                     {| store := store s; typed_ahead := rest; provider := e |}) as IH'.
      cbn [typed_ahead store] in IH'. cbv zeta in IH'.
      destruct IH' as [Hlen Hres]; [lia| | |].
      { destruct (acceptable r) eqn:Ha; [by apply acceptable_truthy|done]. }
      { destruct (acceptable r) eqn:Ha; [|done].
        apply (HP current feedback (provider s)); [by rewrite Hr|done]. }
      split; [lia|done].
    + simpl in *. split; [lia|done].
  - simpl. split; [lia|done].
Qed.

(** X22.  The description on disk is replaced only by a confirmation, and then by
    the description that was confirmed: the one that was on disk, or a
    reply of the model that is a dictionary without the key [error].  When
    the person gives an empty feedback instead, the method also returns
    [True], but the description it ends with is not written: the disk
    keeps what it held, and so it does when an exception passes through.
    The method returns [False] only when there is no description to start
    from, and the loop needs no more passes than there are lines of
    input. *)
Theorem description_is_saved_on_confirmation_only (s : desk E) :
  let r := run_project_definition_iteration_phase revise s in
  let shown final :=
    json_truthy (Some final) = true
    ∧ (project_definition (store s) = Some final
       ∨ ∃ prev feedback e,
           (revise prev feedback e).1 = Some final ∧ acceptable final = true) in
  match r.1 with
  | OutOfFuel => False
  | NoDescription => json_truthy (project_definition (store s)) = false ∧ r.2 = s
  | Confirmed final =>
      store r.2 = save_refined_project_description final (store s) ∧ shown final
  | LeftAsItIs final => store r.2 = store s ∧ shown final
  | Raised => store r.2 = store s
  end.
Proof.
  unfold run_project_definition_iteration_phase.
  destruct (project_definition (store s)) as [current|] eqn:Hd; [|done].
  destruct (json_truthy (Some current)) eqn:Ht; [|done].
  pose proof (iterate_spec
                (λ final, Some current = Some final
                          ∨ ∃ prev feedback e,
                              (revise prev feedback e).1 = Some final
                              ∧ acceptable final = true)
                (S (length (typed_ahead s))) current s) as Hspec.
  cbv zeta in *. destruct Hspec as [_ Hres]; [|lia|done|by left|].
  { intros prev feedback e r ??. right. by exists prev, feedback, e. }
  by destruct (iterate _ _ _ _).1.
Qed.

End PlanningFacts.

Section CleanupFacts.

Import PyStr Console.

Lemma strip_strip s : strip (strip s) = strip s.
Proof. destruct (strip_trimmed s). by apply strip_fix. Qed.

Lemma cleanup_choice_spec env_manager n : ∀ inputs r rest,
  (length inputs ≤ n)%nat →
  prompt_environment_cleanup_choice env_manager inputs = Some (r, rest) →
  (r = ("keep", None) ∨ r = ("delete", None)
   ∨ ∃ name, r = ("rename", Some name) ∧ env_manager = "conda"
             ∧ name ≠ "" ∧ strip name = name)
  ∧ (length rest < length inputs)%nat.
Proof.
  induction n as [|n IH]; intros inputs r rest Hn.
  { destruct inputs; [done|simpl in Hn; lia]. }
  destruct inputs as [|line inputs]; [done|]. simpl in Hn.
  cbn [prompt_environment_cleanup_choice]. cbv zeta.
  destruct (String.eqb (lower (strip line)) "k").
  { intros [= <- <-]. split; [by left|simpl; lia]. }
  destruct (String.eqb (lower (strip line)) "d").
  { intros [= <- <-]. split; [by right; left|simpl; lia]. }
  destruct (String.eqb (lower (strip line)) "r" && String.eqb env_manager "conda") eqn:Hr.
  - apply andb_true_iff in Hr as [_ Hconda%String.eqb_eq].
    destruct inputs as [|name inputs]; [done|].
    destruct (String.eqb (strip name) "") eqn:Hname.
    + intros [Hres Hlen]%IH; [|simpl in Hn; lia]. split; [done|simpl; lia].
    + intros [= <- <-]. apply String.eqb_neq in Hname. split; [|simpl; lia].
      right; right. exists (strip name). by rewrite strip_strip.
  - intros [Hres Hlen]%IH; [|lia]. split; [done|simpl; lia].
Qed.

(** X23.  The choice at the end of a run is to keep the environment, to delete
    it, or to rename it; renaming is only answered under [conda], and with
    a new name that is not empty and has no white space around it.  At
    least one line of input is used up. *)
Theorem cleanup_choice_answers env_manager inputs r rest :
  prompt_environment_cleanup_choice env_manager inputs = Some (r, rest) →
  (r = ("keep", None) ∨ r = ("delete", None)
   ∨ ∃ name, r = ("rename", Some name) ∧ env_manager = "conda"
             ∧ name ≠ "" ∧ strip name = name)
  ∧ (length rest < length inputs)%nat.
Proof. by apply (cleanup_choice_spec env_manager (length inputs)). Qed.

End CleanupFacts.

(** ** The feedback of a step *)

Section FeedbackFacts.

Import PyStr Builder State Handler Logs Traces Feedback.
Context {E : Type} `{JsonParser} `{StepHandler E}.
#[local] Existing Instances M_ret M_bind.
#[local] Abbreviation wp := (Logs.wp (E:=E)).
#[local] Abbreviation verified := (Logs.verified (E:=E)).
#[local] Abbreviation attempt_feedback := (Feedback.attempt_feedback (E:=E)).

Lemma after_verify_feedback cumulative r fb' :
  after_verify cumulative r = Continue fb' →
  ∃ m, fb' = cumulative ++ [m] ∧ m ≠ "".
Proof.
  destruct r as [action payload]. unfold after_verify.
  destruct (String.eqb action "success"); [done|].
  destruct (String.eqb action "failure" && truthy payload) eqn:Hf; [|done].
  intros [= <-]. apply andb_true_iff in Hf as [_ Hp].
  exists (default "" payload). split; [done|]. by destruct payload as [[|??]|].
Qed.

Lemma verified_requests n a L o w' :
  verified n a L o w' → ∃ rest, log w' = L ++ rest ∧ requests rest = [].
Proof.
  intros [[Hlog _]|(tree & p & _ & Hlog & _)].
  - exists []. by rewrite app_nil_r.
  - by eexists.
Qed.

Lemma initial_attempt_feedback n a fb w :
  wp (initial_attempt n a fb) w
     (attempt_feedback "code_generation_step1" initial_feedback_header n a fb (log w)).
Proof.
  set (section := feedback_section_of initial_feedback_header fb).
  assert (∀ o w' rest,
            requests rest = [] →
            (∀ fb', o = Some (Continue fb') → ∃ m, fb' = fb ++ [m] ∧ m ≠ "") →
            log w' = log w ++ GeneratorAsked "code_generation_step1" n a section :: rest →
            attempt_feedback "code_generation_step1" initial_feedback_header n a fb
              (log w) o w') as Hpost.
  { intros o w' rest ???. by exists rest. }
  unfold initial_attempt, generate.
  apply wp_bind, wp_bind, wp_emit, wp_ask. intros [resp|] e;
    [|by apply (Hpost _ _ []); [reflexivity| |reflexivity]].
  destruct (_validate_initial_code_response resp) as [[] msg]; simpl.
  2: { apply wp_ret. apply (Hpost _ _ []); [reflexivity| |reflexivity].
       intros fb' [= <-]. eexists. split; [reflexivity|].
       intros Hm. cbv in Hm. discriminate. }
  apply wp_bind, wp_on_disk, wp_bind, wp_on_disk, wp_bind, wp_emit, wp_bind,
    wp_read_disk.
  simpl. destruct (build_project_structure _ _) as [[] built].
  2: { apply wp_bind, wp_on_disk, wp_ret. apply (Hpost _ _ [BuildStarted n a]); [reflexivity| |].
       - intros fb' [= <-]. by eexists.
       - simpl. by rewrite <- app_assoc. }
  apply wp_bind, wp_on_disk. simpl. apply wp_bind.
  eapply wp_wand; [apply build_and_verify_spec|]. simpl. intros o w' Hv.
  apply verified_requests in Hv as (rest & Hlog & Hrest).
  rewrite <- !app_assoc in Hlog. simpl in Hlog.
  assert (attempt_feedback "code_generation_step1" initial_feedback_header n a fb
            (log w) (after_verify fb <$> o) w') as Hfinal.
  { apply (Hpost _ _ (BuildStarted n a :: rest)); [exact Hrest| |exact Hlog].
    destruct o as [r|]; [|done]. intros fb' [= Hr]. by eapply after_verify_feedback. }
  destruct o; [by apply wp_ret|done].
Qed.

Lemma modification_attempt_feedback n c a fb w :
  wp (modification_attempt n c a fb) w
     (attempt_feedback "code_modification" modification_feedback_header n a fb (log w)).
Proof.
  set (section := feedback_section_of modification_feedback_header fb).
  assert (∀ o w' rest,
            requests rest = [] →
            (∀ fb', o = Some (Continue fb') → ∃ m, fb' = fb ++ [m] ∧ m ≠ "") →
            log w' = log w ++ GeneratorAsked "code_modification" n a section :: rest →
            attempt_feedback "code_modification" modification_feedback_header n a fb
              (log w) o w') as Hpost.
  { intros o w' rest ???. by exists rest. }
  unfold modification_attempt, generate.
  apply wp_bind, wp_bind, wp_emit, wp_ask. intros [resp|] e;
    [|by apply (Hpost _ _ []); [reflexivity| |reflexivity]].
  destruct (_validate_modification_instructions_response resp) as [[] msg]; simpl.
  2: { apply wp_ret. apply (Hpost _ _ []); [reflexivity| |reflexivity].
       intros fb' [= <-]. eexists. split; [reflexivity|].
       intros Hm. cbv in Hm. discriminate. }
  apply wp_bind, wp_on_disk, wp_bind, wp_on_disk, wp_bind, wp_emit, wp_bind,
    wp_read_disk.
  simpl. destruct (apply_modifications _ _ _) as [[] built].
  2: { apply wp_bind, wp_on_disk, wp_ret. apply (Hpost _ _ [BuildStarted n a]); [reflexivity| |].
       - intros fb' [= <-]. by eexists.
       - simpl. by rewrite <- app_assoc. }
  apply wp_bind, wp_on_disk. simpl. apply wp_bind.
  eapply wp_wand; [apply build_and_verify_spec|]. simpl. intros o w' Hv.
  apply verified_requests in Hv as (rest & Hlog & Hrest).
  rewrite <- !app_assoc in Hlog. simpl in Hlog.
  assert (attempt_feedback "code_modification" modification_feedback_header n a fb
            (log w) (after_verify fb <$> o) w') as Hfinal.
  { apply (Hpost _ _ (BuildStarted n a :: rest)); [exact Hrest| |exact Hlog].
    destruct o as [r|]; [|done]. intros fb' [= Hr]. by eapply after_verify_feedback. }
  destruct o; [by apply wp_ret|done].
Qed.

Lemma attempt_loop_feedback template header n body :
  (∀ a fb w, wp (body a fb) w (attempt_feedback template header n a fb (log w))) →
  ∀ remaining a fb w,
    let r := attempt_loop body remaining a fb w in
    ∃ more msgs k,
      log r.2 = log w ++ more
      ∧ requests more
        = map (λ i, GeneratorAsked template n (a + 1 + Z.of_nat i)
                      (feedback_section_of header (fb ++ take i msgs))) (seq 0 k)
      ∧ (k = length msgs ∨ k = S (length msgs))
      ∧ Forall (λ m, m ≠ "") msgs
      ∧ (k ≤ remaining)%nat.
Proof.
  intros Hbody. induction remaining as [|remaining IH]; intros a fb w; simpl.
  { exists [], [], O. rewrite app_nil_r. repeat split; [by left|done|done]. }
  destruct (Hbody (a + 1) fb w) as (rest & Hlog & Hrest & Hnext).
  assert (∀ w1 : world E, log w1 = log w ++ GeneratorAsked template n (a + 1)
                                     (feedback_section_of header fb) :: rest →
            ∃ more msgs k,
              log w1 = log w ++ more
              ∧ requests more
                = map (λ i, GeneratorAsked template n (a + 1 + Z.of_nat i)
                              (feedback_section_of header (fb ++ take i msgs))) (seq 0 k)
              ∧ (k = length msgs ∨ k = S (length msgs))
              ∧ Forall (λ m, m ≠ "") msgs
              ∧ (k ≤ S remaining)%nat) as Hstop.
  { intros w1 Hw1. exists (GeneratorAsked template n (a + 1)
                             (feedback_section_of header fb) :: rest), [], 1%nat.
    split; [done|]. split.
    - unfold requests in *. simpl. rewrite Hrest, Z.add_0_r, app_nil_r. done.
    - repeat split; [by right|done|lia]. }
  destruct (body (a + 1) fb w) as [[[fb'|r]|] w1]; simpl in *; [|by apply Hstop..].
  destruct (Hnext fb' eq_refl) as (m & -> & Hm).
  destruct (IH (a + 1) (fb ++ [m]) w1) as (more & msgs & k & Hlog2 & Hreq & Hk & Hmsgs & Hle).
  exists (GeneratorAsked template n (a + 1) (feedback_section_of header fb)
            :: rest ++ more), (m :: msgs), (S k).
  split; [rewrite Hlog2, Hlog, <- app_assoc; done|]. split.
  - unfold requests in *. cbn [List.filter is_request].
    rewrite List.filter_app, Hrest, Hreq. cbn [seq map take]. rewrite app_nil_r, Z.add_0_r.
    f_equal. rewrite <- seq_shift, map_map. apply map_ext. intros i.
    cbn [take]. rewrite <- app_assoc. cbn [app]. f_equal. lia.
  - split; [simpl; lia|]. split; [by constructor|lia].
Qed.

(** X19.  Every request a step makes to the generator carries the feedback of
    all its attempts so far, in order: there is one list of messages, none
    of them empty, such that the request of attempt [i + 1] carries the
    first [i] of them, under the header of the loop (and nothing when
    [i = 0]).  Each attempt that is followed by another has added one
    message. *)
Theorem every_retry_carries_the_feedback_so_far n task c w :
  let r := execute_step n task c w in
  ∃ template header more msgs k,
    ((template = "code_generation_step1" ∧ header = initial_feedback_header)
     ∨ (template = "code_modification" ∧ header = modification_feedback_header))
    ∧ log r.2 = log w ++ StepStarted n c :: more
    ∧ requests more
      = map (λ i, GeneratorAsked template n (Z.of_nat i + 1)
                    (feedback_section_of header (take i msgs))) (seq 0 k)
    ∧ (k = length msgs ∨ k = S (length msgs))
    ∧ Forall (λ m, m ≠ "") msgs
    ∧ (k ≤ Z.to_nat max_attempts)%nat.
Proof.
  unfold execute_step.
  set (w1 := {| dsk := dsk w; log := log w ++ [StepStarted n c]; ext := ext w |}).
  assert (∀ template header (r : action_result * world E),
            ((template = "code_generation_step1" ∧ header = initial_feedback_header)
             ∨ (template = "code_modification" ∧ header = modification_feedback_header)) →
            (∃ more msgs k,
               log r.2 = log w1 ++ more
               ∧ requests more
                 = map (λ i, GeneratorAsked template n (0 + 1 + Z.of_nat i)
                               (feedback_section_of header ([] ++ take i msgs))) (seq 0 k)
               ∧ (k = length msgs ∨ k = S (length msgs))
               ∧ Forall (λ m, m ≠ "") msgs
               ∧ (k ≤ Z.to_nat max_attempts)%nat) →
            ∃ template header more msgs k,
              ((template = "code_generation_step1" ∧ header = initial_feedback_header)
               ∨ (template = "code_modification" ∧ header = modification_feedback_header))
              ∧ log r.2 = log w ++ StepStarted n c :: more
              ∧ requests more
                = map (λ i, GeneratorAsked template n (Z.of_nat i + 1)
                              (feedback_section_of header (take i msgs))) (seq 0 k)
              ∧ (k = length msgs ∨ k = S (length msgs))
              ∧ Forall (λ m, m ≠ "") msgs
              ∧ (k ≤ Z.to_nat max_attempts)%nat) as Hshift.
  { intros template header r Ht (more & msgs & k & Hlog & Hreq & Hk & Hmsgs & Hle).
    exists template, header, more, msgs, k. split; [done|].
    split; [rewrite Hlog; simpl; by rewrite <- app_assoc|]. split; [|done].
    rewrite Hreq. apply map_ext. intros i. simpl. f_equal. lia. }
  assert (∀ template header, ∃ more msgs k,
            log w1 = log w1 ++ more
            ∧ requests more
              = map (λ i, GeneratorAsked template n (0 + 1 + Z.of_nat i)
                            (feedback_section_of header ([] ++ take i msgs))) (seq 0 k)
            ∧ (k = length msgs ∨ k = S (length msgs))
            ∧ Forall (λ m, m ≠ "") msgs
            ∧ (k ≤ Z.to_nat max_attempts)%nat) as Habort.
  { intros template header. exists [], [], O. rewrite app_nil_r.
    repeat split; [by left|done|lia]. }
  destruct (_ && _).
  - apply (Hshift "code_generation_step1" initial_feedback_header); [by left|].
    unfold _execute_initial_generation_step.
    destruct (negb _); [apply Habort|].
    apply (attempt_loop_feedback "code_generation_step1" initial_feedback_header n
             (initial_attempt n)).
    apply initial_attempt_feedback.
  - apply (Hshift "code_modification" modification_feedback_header); [by right|].
    unfold _execute_modification_step.
    destruct (negb _); [apply Habort|].
    apply (attempt_loop_feedback "code_modification" modification_feedback_header n
             (modification_attempt n c)).
    apply modification_attempt_feedback.
Qed.

End FeedbackFacts.

(** ** Templates *)

Section PromptFacts.

Import PyStr Prompts.
Variable templates : gmap string string.

Lemma substitute_ends (P : resolved → Prop) replacer l :
  (∀ text, P (Resolved text)) →
  (∀ key, match replacer key with Resolved _ => True | r => P r end) →
  P (substitute replacer l).
Proof.
  intros Htext Hkey. induction l as [|[c|key] l IH]; cbn [substitute].
  - done.
  - by destruct (substitute replacer l).
  - specialize (Hkey key). destruct (replacer key); [|done..].
    by destruct (substitute replacer l).
Qed.

Lemma resolve_ends fuel : ∀ seen content,
  (size (dom templates ∖ seen) < fuel)%nat →
  match resolve templates fuel seen content with
  | OutOfFuel => False
  | FileNotFoundError k => templates !! k = None
  | RecursionError k => k ∈ seen ∨ is_Some (templates !! k)
  | Resolved _ => True
  end.
Proof.
  induction fuel as [|fuel IH]; intros seen content Hfuel; [lia|].
  cbn [resolve]. cbv zeta.
  apply (substitute_ends
           (λ r, match r with
                 | OutOfFuel => False
                 | FileNotFoundError k => templates !! k = None
                 | RecursionError k => k ∈ seen ∨ is_Some (templates !! k)
                 | Resolved _ => True
                 end)); [done|].
  intros key. case_bool_decide as Hseen; [by left|].
  unfold _load_template_content.
  destruct (templates !! key) as [included|] eqn:Hkey; [|done].
  assert (size (dom templates ∖ ({[key]} ∪ seen)) < size (dom templates ∖ seen))%nat
    as Hless.
  { apply subset_size. split.
    - intros k [Hk Hn]%elem_of_difference. apply elem_of_difference. split; [done|].
      intros ?. apply Hn. apply elem_of_union. by right.
    - intros Hsub. assert (key ∈ dom templates ∖ seen) as Hin.
      { apply elem_of_difference. split; [|done]. apply elem_of_dom. by eexists. }
      apply Hsub, elem_of_difference in Hin as [_ Hn]. apply Hn.
      apply elem_of_union. left. by apply elem_of_singleton. }
  specialize (IH ({[key]} ∪ seen) included).
  destruct (resolve templates fuel ({[key]} ∪ seen) included) as [text|k|k|].
  - done.
  - apply IH. lia.
  - destruct IH as [Hk|Hk]; [lia| |by right].
    apply elem_of_union in Hk as [->%elem_of_singleton|Hk]; [right; by eexists|by left].
  - apply IH. lia.
Qed.

(** X24.  Resolving the directives of a template always comes to an end, whatever
    the templates include: with the text, with [FileNotFoundError] for a key
    that names no template, or with [RecursionError] for a key that is
    already on the way, that is, one of the keys given as seen or the key of
    a template that is there. *)
Theorem include_resolution_ends content seen_keys :
  match _resolve_includes_in_content templates content seen_keys with
  | OutOfFuel => False
  | FileNotFoundError k => templates !! k = None
  | RecursionError k => k ∈ seen_keys ∨ is_Some (templates !! k)
  | Resolved _ => True
  end.
Proof.
  apply resolve_ends.
  assert (size (dom templates ∖ seen_keys) ≤ size (dom templates))%nat; [|lia].
  apply subseteq_size. intros k [? _]%elem_of_difference. done.
Qed.

Lemma match_include_no_brace c s :
  byte_is 123 c = false → match_include (String c s) = None.
Proof.
  intros Hc. unfold match_include. cbn [after_prefix].
  destruct (Ascii.eqb "{" c) eqn:Heq; [|done].
  apply Ascii.eqb_eq in Heq. by subst c.
Qed.

Lemma segments_app_plain before s :
  no_brace before = true →
  segments 0 (before +:+ s) = map Text (list_ascii_of_string before) ++ segments 0 s.
Proof.
  induction before as [|c before IH]; [done|]. cbn [no_brace].
  intros [Hc%negb_true_iff Hs]%andb_true_iff. rewrite app_String.
  cbn [segments list_ascii_of_string map]. rewrite match_include_no_brace by done.
  by rewrite IH.
Qed.

Lemma segments_plain s :
  no_brace s = true → segments 0 s = map Text (list_ascii_of_string s).
Proof.
  intros Hs. rewrite <- (string_app_nil_r s) at 1.
  rewrite segments_app_plain by done. apply app_nil_r.
Qed.

Lemma segments_skip x y : segments (String.length x) (x +:+ y) = segments 0 y.
Proof.
  induction x as [|c x IH]; [simpl; by destruct y|].
  rewrite app_String. cbn [String.length segments]. done.
Qed.

Lemma span_key key rest :
  no_quote key = true →
  span (λ c, negb (byte_is 39 c)) (key +:+ String "'" rest) = (key, String "'" rest).
Proof.
  induction key as [|c key IH]; [done|]. cbn [no_quote].
  intros [Hc Hkey]%andb_true_iff. rewrite app_String. cbn [span].
  by rewrite Hc, IH.
Qed.

Lemma match_include_directive key rest :
  key ≠ "" → no_quote key = true →
  match_include (directive key +:+ rest)
  = Some (key, String.length (directive key)).
Proof.
  intros Hne Hkey. unfold directive, match_include.
  change (after_prefix "{{include" (("{{include '" +:+ key +:+ "'}}") +:+ rest))
    with (Some (String " " (String "'" ((key +:+ "'}}") +:+ rest)))).
  cbn [mbind option_bind].
  change (span is_space (String " " (String "'" ((key +:+ "'}}") +:+ rest))))
    with (" ", String "'" ((key +:+ "'}}") +:+ rest)).
  cbn [String.eqb Ascii.eqb after_prefix]. cbn.
  rewrite string_app_assoc.
  change ("'}}" +:+ rest) with (String "'" (String "}" (String "}" rest))).
  rewrite span_key by done.
  destruct (String.eqb key "") eqn:Hk; [by apply String.eqb_eq in Hk|].
  cbn [after_prefix Ascii.eqb Bool.eqb mbind option_bind].
  do 2 f_equal.
  change ("{{include '" +:+ key +:+ "'}}")
    with (String "{" (String "{" (String "i" (String "n" (String "c" (String "l"
            (String "u" (String "d" (String "e" (String " " (String "'"
               (key +:+ "'}}")))))))))))).
  cbn [String.length]. rewrite string_length_app. simpl. lia.
Qed.

Lemma substitute_plain replacer (l : list ascii) (rest : list segment) :
  substitute replacer (map Text l ++ rest)
  = match substitute replacer rest with
    | Resolved text => Resolved (string_of_list_ascii l +:+ text)
    | failure => failure
    end.
Proof.
  induction l as [|c l IH]; cbn [map app substitute].
  - by destruct (substitute replacer rest).
  - rewrite IH. by destruct (substitute replacer rest).
Qed.

Lemma resolve_eq fuel seen content :
  resolve templates (S fuel) seen content
  = substitute
      (λ included_key,
         if bool_decide (included_key ∈ seen) then RecursionError included_key
         else
           match _load_template_content templates included_key with
           | None => FileNotFoundError included_key
           | Some included_content =>
               resolve templates fuel ({[included_key]} ∪ seen) included_content
           end)
      (segments 0 content).
Proof. reflexivity. Qed.

Lemma resolve_plain fuel seen s :
  no_brace s = true → resolve templates (S fuel) seen s = Resolved s.
Proof.
  intros Hs. rewrite resolve_eq, segments_plain by done.
  rewrite <- (app_nil_r (map Text _)), substitute_plain. cbn [substitute].
  by rewrite string_app_nil_r, string_of_list_ascii_of_string.
Qed.

(** X25.  A directive stands for the text of its template: in a text that holds
    no other opening brace, with a template that holds none either, the
    directive is replaced by the text of the template, and everything around
    it is kept as it is. *)
Theorem directive_is_replaced_by_the_template before key text after seen_keys :
  no_brace before = true → no_brace text = true → no_brace after = true →
  key ≠ "" → no_quote key = true →
  key ∉ seen_keys → templates !! key = Some text →
  _resolve_includes_in_content templates (before +:+ directive key +:+ after) seen_keys
  = Resolved (before +:+ text +:+ after).
Proof.
  intros Hbefore Htext Hafter Hne Hkey Hseen Hload.
  unfold _resolve_includes_in_content.
  assert (∃ n, size (dom templates) = S n) as [n ->].
  { destruct (size (dom templates)) eqn:Hsize; [|by eexists].
    apply size_empty_iff in Hsize. assert (key ∈ dom templates) as Hin.
    { apply elem_of_dom. by eexists. }
    rewrite Hsize in Hin. by apply elem_of_empty in Hin. }
  rewrite resolve_eq, segments_app_plain by done.
  assert (segments 0 (directive key +:+ after)
          = Include key :: map Text (list_ascii_of_string after)) as ->.
  { pose proof (match_include_directive key after Hne Hkey) as Hm.
    pose proof (segments_skip (("{include '" +:+ key) +:+ "'}}") after) as Hskip.
    unfold directive in *.
    change (("{{include '" +:+ key +:+ "'}}") +:+ after)
      with (String "{" ((("{include '" +:+ key) +:+ "'}}") +:+ after)) in *.
    cbn [segments]. rewrite Hm.
    assert ((String.length ("{{include '" +:+ key +:+ "'}}") - 1)%nat
            = String.length (("{include '" +:+ key) +:+ "'}}")) as -> by reflexivity.
    rewrite Hskip. f_equal. by apply segments_plain. }
  rewrite substitute_plain. cbn [substitute].
  rewrite bool_decide_false by done. unfold _load_template_content. rewrite Hload.
  rewrite resolve_plain by done.
  rewrite <- (app_nil_r (map Text (list_ascii_of_string after))), substitute_plain.
  cbn [substitute].
  by rewrite string_app_nil_r, !string_of_list_ascii_of_string.
Qed.

End PromptFacts.

(** ** What a step leaves of the accepted code *)

Section KeepingFacts.

Import PyStr Builder State Handler Logs Keeping.
Context {E : Type} `{JsonParser} `{StepHandler E}.
#[local] Existing Instances M_ret M_bind.
#[local] Abbreviation wp := (Logs.wp (E:=E)).

Lemma keeps_refl d : keeps d d.
Proof. by repeat split. Qed.

Lemma keeps_trans d1 d2 d3 : keeps d1 d2 → keeps d2 d3 → keeps d1 d3.
Proof.
  intros (Hl1 & Hs1 & Ha1) (Hl2 & Hs2 & Ha2). repeat split; [congruence..|].
  intros p ?. by apply Ha2, Ha1.
Qed.

Lemma keeps_with_attempts f d :
  (∀ p, is_Some (attempts d !! p) → is_Some (f (attempts d) !! p)) →
  keeps d (with_attempts f d).
Proof. by repeat split. Qed.

Lemma keeps_other_snapshots n d d' : keeps d d' → other_snapshots n d d'.
Proof. intros (_ & Hs & _) m _. by rewrite Hs. Qed.

Lemma keeps_get_step_attempt_path n a d : keeps d (get_step_attempt_path n a d).
Proof.
  unfold get_step_attempt_path.
  destruct (attempts d !! (n, a)) eqn:Ha; [apply keeps_refl|].
  apply keeps_with_attempts. intros p Hp.
  destruct (decide (p = (n, a))) as [->|Hne]; [by rewrite Ha in Hp|].
  by rewrite lookup_insert_ne.
Qed.

Lemma keeps_insert k (t : tree) d : keeps d (with_attempts (insert k t) d).
Proof.
  apply keeps_with_attempts. intros p Hp.
  destruct (decide (p = k)) as [->|Hne]; [by rewrite lookup_insert_eq|].
  by rewrite lookup_insert_ne.
Qed.

Lemma keeps_save_attempt_file n a name content d :
  keeps d (save_attempt_file n a name content d).
Proof.
  apply keeps_with_attempts. intros p Hp.
  destruct (decide (p = (n, a))) as [->|Hne]; [by rewrite lookup_insert_eq|].
  by rewrite lookup_insert_ne.
Qed.

Lemma keeps_result {A} (f : disk → E → A * disk * E) d e a d' e' :
  (∀ d e, keeps d (f d e).1.2) → f d e = (a, d', e') → keeps d d'.
Proof. intros Hk Hf. specialize (Hk d e). by rewrite Hf in Hk. Qed.

Lemma install_gate_keeps n a resp w d0 :
  careful → keeps d0 (dsk w) →
  wp (install_gate n a resp) w (λ _ w', keeps d0 (dsk w')).
Proof.
  intros (_ & Hinstall & _) Hd. unfold install_gate. apply wp_bind, wp_read_disk.
  destruct (attempts (dsk w) !! (n, a) ≫= _) as [text|]; [|by apply wp_ret].
  apply wp_bind, wp_on_disk.
  assert (keeps d0 (with_attempts
                      (λ a0, match a0 !! (n, a) with
                             | Some t => <[(n, a) := _sanitize_dependency_file t
                                                       (dependency_file_of resp)]> a0
                             | None => a0
                             end) (dsk w))) as Hd1.
  { eapply keeps_trans; [done|]. apply keeps_with_attempts. intros p Hp.
    destruct (attempts (dsk w) !! (n, a)); [|done].
    destruct (decide (p = (n, a))) as [->|Hne]; [by rewrite lookup_insert_eq|].
    by rewrite lookup_insert_ne. }
  case_bool_decide; [|by apply wp_ret].
  apply wp_bind, wp_call_result. intros [ok stderr] d e Hf. simpl in Hf.
  assert (keeps d0 d) as Hd2.
  { eapply keeps_trans; [exact Hd1|].
    eapply (keeps_result (install_dependencies n a (dependency_file_of resp)));
      [|exact Hf]. intros. apply Hinstall. }
  destruct ok; by apply wp_ret.
Qed.

Lemma run_unit_tests_keeps n a tests w d0 :
  careful → keeps d0 (dsk w) →
  wp (_run_unit_tests n a tests) w (λ _ w', keeps d0 (dsk w')).
Proof.
  intros (_ & _ & Htests & _) Hd. unfold _run_unit_tests.
  destruct tests as [|t tests]; [by apply wp_ret|].
  apply wp_call_result. intros r d e Hf. simpl.
  eapply keeps_trans; [done|].
  eapply (keeps_result (run_tests n a (t :: tests))); [|exact Hf]. intros. apply Htests.
Qed.

(** What [_build_and_verify] does to the accepted code, seen from a disk
    [d0] before it. *)
Lemma build_and_verify_keeps n a resp c w d0 :
  careful → keeps d0 (dsk w) → is_Some (attempts d0 !! (n, a)) →
  wp (_build_and_verify n a resp c) w
     (λ o w', other_snapshots n d0 (dsk w')
              ∧ ((∀ p, o ≠ Some ("success", p)) → keeps d0 (dsk w'))).
Proof.
  intros Hcareful Hd Hthere.
  assert (∀ (o : option action_result) (w' : world E),
            keeps d0 (dsk w') →
            other_snapshots n d0 (dsk w')
            ∧ ((∀ p, o ≠ Some ("success", p)) → keeps d0 (dsk w'))) as Hkept.
  { intros o w' Hk. split; [by apply keeps_other_snapshots|done]. }
  pose proof Hcareful as (Hinspect & _ & _ & Hgate).
  unfold _build_and_verify. apply wp_bind, wp_call_result.
  intros [approved fb] d e Hf.
  assert (keeps d0 d) as Hd1.
  { eapply keeps_trans; [done|].
    eapply (keeps_result (_run_inspection n a c)); [|exact Hf]. intros. apply Hinspect. }
  destruct approved; simpl; [|by apply wp_ret, Hkept].
  apply wp_bind. eapply wp_wand; [by apply install_gate_keeps|].
  intros [[feedback|]|] w1 Hw1; simpl; [by apply wp_ret, Hkept| |by apply Hkept].
  apply wp_bind. eapply wp_wand; [by apply run_unit_tests_keeps|].
  intros [[passed test_feedback]|] w2 Hw2; simpl; [|by apply Hkept].
  destruct passed; simpl; [|by apply wp_ret, Hkept].
  apply wp_bind, wp_call_result. intros [action feedback] d3 e3 Hf3.
  assert (keeps d0 d3) as Hd3.
  { eapply keeps_trans; [done|].
    eapply (keeps_result (prompt_for_manual_execution n a)); [|exact Hf3].
    intros. apply Hgate. }
  destruct (String.eqb_spec action "success") as [->|Hne].
  - destruct Hd3 as (Hl3 & Hs3 & Ha3). destruct (Ha3 _ Hthere) as [tree Htree].
    unfold accept, wp, mbind, M_bind, mark_successful, mark_step_as_successful,
      _summarize_successful_step. simpl. rewrite Htree. simpl.
    destruct (ask_summary n _ e3) as [[summary|] e4]; simpl.
    + split; [|by intros Hp; destruct (Hp (match resp with
                                                | Dict d => r_main_executable d
                                                | NotADict => None
                                                end))].
      intros m Hm. simpl. rewrite !lookup_insert_ne, lookup_delete_ne by done.
      by rewrite Hs3.
    + split; [|by intros Hp; destruct (Hp (match resp with
                                                | Dict d => r_main_executable d
                                                | NotADict => None
                                                end))].
      intros m Hm. simpl. rewrite !lookup_insert_ne, lookup_delete_ne by done.
      by rewrite Hs3.
  - destruct (truthy feedback).
    + apply wp_bind, wp_on_disk, wp_ret, Hkept. simpl.
      eapply keeps_trans; [done|]. apply keeps_save_attempt_file.
    + by apply wp_ret, Hkept.
Qed.

Lemma after_verify_not_success fb (o : option action_result) :
  (∀ p, after_verify fb <$> o ≠ Some (Return ("success", p))) →
  ∀ p, o ≠ Some ("success", p).
Proof.
  intros Hflow p ->. by apply (Hflow p).
Qed.

Lemma initial_attempt_keeps n a fb w d0 :
  careful → keeps d0 (dsk w) →
  wp (initial_attempt n a fb) w
     (λ o w', other_snapshots n d0 (dsk w')
              ∧ ((∀ p, o ≠ Some (Return ("success", p))) → keeps d0 (dsk w'))).
Proof.
  intros Hcareful Hd.
  assert (∀ (o : option flow) (w' : world E),
            keeps d0 (dsk w') →
            other_snapshots n d0 (dsk w')
            ∧ ((∀ p, o ≠ Some (Return ("success", p))) → keeps d0 (dsk w'))) as Hkept.
  { intros o w' Hk. split; [by apply keeps_other_snapshots|done]. }
  unfold initial_attempt, generate.
  apply wp_bind, wp_bind, wp_emit, wp_ask. intros [resp|] e; [|by apply Hkept].
  destruct (_validate_initial_code_response resp) as [[] msg]; simpl;
    [|by apply wp_ret, Hkept].
  apply wp_bind, wp_on_disk, wp_bind, wp_on_disk, wp_bind, wp_emit, wp_bind,
    wp_read_disk.
  simpl. destruct (build_project_structure _ _) as [ok built].
  set (d1 := with_attempts (insert (n, a) built)
               (save_step_code_generation_output n a (dump_response resp)
                  (get_step_attempt_path n a (dsk w)))).
  assert (keeps (dsk w) d1) as Hd1.
  { eapply keeps_trans; [apply keeps_get_step_attempt_path|].
    eapply keeps_trans; [apply keeps_save_attempt_file|]. apply keeps_insert. }
  assert (is_Some (attempts d1 !! (n, a))) as Hthere.
  { simpl. by rewrite lookup_insert_eq. }
  apply wp_bind, wp_on_disk. fold d1.
  destruct ok; simpl; [|apply wp_ret, Hkept; by eapply keeps_trans].
  apply wp_bind.
  eapply wp_wand; [apply (build_and_verify_keeps n a resp ∅ _ d1);
                   [done|apply keeps_refl|done]|].
  simpl. intros o w' [Hother Hfail].
  assert (other_snapshots n d0 (dsk w')
          ∧ ((∀ p, after_verify fb <$> o ≠ Some (Return ("success", p))) →
             keeps d0 (dsk w'))) as Hfinal.
  { split.
    - intros m Hm. rewrite (Hother m Hm).
      pose proof Hd1 as (_ & Hs1 & _). pose proof Hd as (_ & Hs & _).
      by rewrite Hs1, Hs.
    - intros Hflow. eapply keeps_trans; [done|]. eapply keeps_trans; [exact Hd1|].
      by eapply Hfail, after_verify_not_success. }
  destruct o; [by apply wp_ret|done].
Qed.

Lemma modification_attempt_keeps n c a fb w d0 :
  careful → keeps d0 (dsk w) →
  wp (modification_attempt n c a fb) w
     (λ o w', other_snapshots n d0 (dsk w')
              ∧ ((∀ p, o ≠ Some (Return ("success", p))) → keeps d0 (dsk w'))).
Proof.
  intros Hcareful Hd.
  assert (∀ (o : option flow) (w' : world E),
            keeps d0 (dsk w') →
            other_snapshots n d0 (dsk w')
            ∧ ((∀ p, o ≠ Some (Return ("success", p))) → keeps d0 (dsk w'))) as Hkept.
  { intros o w' Hk. split; [by apply keeps_other_snapshots|done]. }
  unfold modification_attempt, generate.
  apply wp_bind, wp_bind, wp_emit, wp_ask. intros [resp|] e; [|by apply Hkept].
  destruct (_validate_modification_instructions_response resp) as [[] msg]; simpl;
    [|by apply wp_ret, Hkept].
  apply wp_bind, wp_on_disk, wp_bind, wp_on_disk, wp_bind, wp_emit, wp_bind,
    wp_read_disk.
  simpl. destruct (apply_modifications _ _ _) as [ok built].
  set (d1 := with_attempts (insert (n, a) built)
               (save_step_code_generation_output n a (dump_response resp)
                  (get_step_attempt_path n a (dsk w)))).
  assert (keeps (dsk w) d1) as Hd1.
  { eapply keeps_trans; [apply keeps_get_step_attempt_path|].
    eapply keeps_trans; [apply keeps_save_attempt_file|]. apply keeps_insert. }
  assert (is_Some (attempts d1 !! (n, a))) as Hthere.
  { simpl. by rewrite lookup_insert_eq. }
  apply wp_bind, wp_on_disk. fold d1.
  destruct ok; simpl; [|apply wp_ret, Hkept; by eapply keeps_trans].
  apply wp_bind.
  eapply wp_wand; [apply (build_and_verify_keeps n a resp c _ d1);
                   [done|apply keeps_refl|done]|].
  simpl. intros o w' [Hother Hfail].
  assert (other_snapshots n d0 (dsk w')
          ∧ ((∀ p, after_verify fb <$> o ≠ Some (Return ("success", p))) →
             keeps d0 (dsk w'))) as Hfinal.
  { split.
    - intros m Hm. rewrite (Hother m Hm).
      pose proof Hd1 as (_ & Hs1 & _). pose proof Hd as (_ & Hs & _).
      by rewrite Hs1, Hs.
    - intros Hflow. eapply keeps_trans; [done|]. eapply keeps_trans; [exact Hd1|].
      by eapply Hfail, after_verify_not_success. }
  destruct o; [by apply wp_ret|done].
Qed.

Lemma attempt_loop_keeps n body d0 :
  (∀ a fb w, keeps d0 (dsk w) →
     wp (body a fb) w
        (λ o w', other_snapshots n d0 (dsk w')
                 ∧ ((∀ p, o ≠ Some (Return ("success", p))) → keeps d0 (dsk w')))) →
  ∀ remaining a fb w,
    keeps d0 (dsk w) →
    let r := attempt_loop body remaining a fb w in
    other_snapshots n d0 (dsk r.2) ∧ (r.1.1 ≠ "success" → keeps d0 (dsk r.2)).
Proof.
  intros Hbody. induction remaining as [|remaining IH]; intros a fb w Hd; simpl.
  { split; [by apply keeps_other_snapshots|done]. }
  destruct (Hbody (a + 1) fb w Hd) as [Hother Hfail].
  destruct (body (a + 1) fb w) as [[[fb'|r]|] w1]; simpl in *.
  - by apply IH, Hfail.
  - split; [done|]. intros Hr. apply Hfail. intros p [= ->]. done.
  - split; [done|]. intros _. by apply Hfail.
Qed.

(** X26.  Only an accepted attempt changes the accepted code.  With
    collaborators that leave it alone, and a generator whose answers name
    plain paths only, a step that does not return [success] leaves the
    latest tree and every snapshot as they were, however many attempts it
    has built; and a step that succeeds leaves the snapshots of the other
    steps as they were. *)
Theorem only_an_accepted_attempt_changes_the_code n task c w :
  careful → plain_answers →
  let r := execute_step n task c w in
  (r.1.1 ≠ "success" →
   latest_successful_code (dsk r.2) = latest_successful_code (dsk w)
   ∧ successful_steps (dsk r.2) = successful_steps (dsk w))
  ∧ ∀ m, m ≠ n → successful_steps (dsk r.2) !! m = successful_steps (dsk w) !! m.
Proof.
  intros Hcareful _. unfold execute_step.
  set (w1 := {| dsk := dsk w; log := log w ++ [StepStarted n c]; ext := ext w |}).
  assert (∀ r : action_result * world E,
            other_snapshots n (dsk w) (dsk r.2)
            ∧ (r.1.1 ≠ "success" → keeps (dsk w) (dsk r.2)) →
            (r.1.1 ≠ "success" →
             latest_successful_code (dsk r.2) = latest_successful_code (dsk w)
             ∧ successful_steps (dsk r.2) = successful_steps (dsk w))
            ∧ ∀ m, m ≠ n → successful_steps (dsk r.2) !! m
                           = successful_steps (dsk w) !! m) as Hfinal.
  { intros r [Hother Hfail]. split; [|done].
    intros Hr. by destruct (Hfail Hr) as (? & ? & _). }
  assert (other_snapshots n (dsk w) (dsk w1)
          ∧ (("aborted", @None string).1 ≠ "success" → keeps (dsk w) (dsk w1)))
    as Habort.
  { split; [done|]. intros _. apply keeps_refl. }
  destruct (_ && _).
  - apply Hfinal. unfold _execute_initial_generation_step.
    destruct (negb _); [apply Habort|].
    apply (attempt_loop_keeps n (initial_attempt n) (dsk w)); [|apply keeps_refl].
    intros a fb w' Hw'. by apply initial_attempt_keeps.
  - apply Hfinal. unfold _execute_modification_step.
    destruct (negb _); [apply Habort|].
    apply (attempt_loop_keeps n (modification_attempt n c) (dsk w)); [|apply keeps_refl].
    intros a fb w' Hw'. by apply modification_attempt_keeps.
Qed.

End KeepingFacts.

(** ** The properties above, on examples *)

Section MoreExamples.

Import PyStr PyDict Builder State Handler Controller Graph Logs Store Shapes Traces
  Cleaner Console Planning Prompts Keeping Examples.

Lemma all_completed_example :
  let tasks := [task 1 []; task 2 [1]; task 3 [1]] in
  let r := run_steps_execution_phase (always "success") tasks () in
  ids r.2 ≡ₚ keys (steps_dict tasks)
  ∧ Forall (λ c, returned c = "success") (started r.2)
  ∧ completed_steps r.2 = list_to_set (keys (steps_dict tasks))
  ∧ queue r.2 = [].
Proof.
  apply (all_completed_means_every_step_succeeded (always "success")
           [task 1 []; task 2 [1]; task 3 [1]] ()).
  reflexivity.
Defined.

Lemma dependencies_succeeded_before_example :
  let tasks := [task 1 []; task 2 [1]] in
  let r := run_steps_execution_phase (always "success") tasks () in
  ∃ j c', (j < 1)%nat ∧ started r.2 !! j = Some c'
          ∧ called c' = 1 ∧ returned c' = "success".
Proof.
  apply (dependencies_succeeded_before (always "success")
           [task 1 []; task 2 [1]] () 1%nat
           {| called := 2; given := {[1]}; returned := "success" |}
           (task 2 [1]) 1).
  - vm_compute. reflexivity.
  - reflexivity.
  - left.
Defined.

Lemma invalid_modifications_example :
  let r := @_execute_modification_step unit never_parses (agreeable NotADict)
             2 (task 2 [1]) {[1]} fresh_world in
  ∃ msgs,
    length msgs = 3%nat
    ∧ Forall modification_violation msgs
    ∧ log r.2
      = [] ++ imap (λ i _, GeneratorAsked "code_modification" 2
                             (Z.of_nat i + 1)
                             (feedback_section_of modification_feedback_header
                                (take i msgs))) msgs
    ∧ dsk r.2 = dsk fresh_world
    ∧ r.1 = ("aborted", None).
Proof.
  apply (@invalid_modifications_exhaust_attempts unit never_parses (agreeable NotADict)
           2 (task 2 [1]) {[1]} fresh_world).
  - reflexivity.
  - by eexists.
  - intros a fb d e. exists NotADict. split; reflexivity.
Defined.

#[local] Existing Instance never_parses.


Lemma modifications_elsewhere_example :
  let base : gmap string string := {[ "a.py" := "x = 1"; "b.py" := "y = 2" ]} in
  let instructions :=
    [ {| ins_type := Some "delete_file"; ins_path := Some "b.py";
         ins_content := None; ins_diffs := None |};
      {| ins_type := Some "new_file"; ins_path := Some "lib/c.py";
         ins_content := Some "z = 3"; ins_diffs := None |} ] in
  (@apply_modifications never_parses (Some base) None instructions).2 !! "a.py"
  = default ∅ (Some base) !! "a.py".
Proof.
  apply (@modifications_leave_other_files_alone never_parses
           (Some {[ "a.py" := "x = 1"; "b.py" := "y = 2" ]}) None _ "a.py").
  repeat constructor; vm_compute; discriminate.
Defined.



Lemma abort_at_the_gate_example :
  let execute_step := @execute_step unit never_parses (agreeable hello) in
  (∀ n task c w,
     (execute_step n task c w).1.1 ∈ ["success"; "aborted"; "failure"; "abort"; "skip"])
  ∧ (∀ tasks w,
       let r := run_steps_execution_phase execute_step tasks w in
       ∀ result n some_completed,
         r.1 = Terminated result n some_completed → result = "aborted").
Proof.
  apply (@abort_at_the_gate_does_not_end_the_run unit never_parses (agreeable hello)).
  intros n a d e. exists ["y"], []. reflexivity.
Defined.

Lemma sanitized_manifest_example :
  let text := join newline ["os"; "flask"; ""; "  Json5 "; "numpy"] in
  let kept := List.filter keeps_line (splitlines text) in
  kept = ["flask"; "numpy"]
  ∧ (kept ≠ [] → splitlines (sanitize_dependency_text text) = kept)
  ∧ (kept = [] → splitlines text ≠ [] → sanitize_dependency_text text = newline)
  ∧ (sanitize_dependency_text text = "" ↔ text = "").
Proof.
  split; [reflexivity|].
  apply (sanitized_manifest_holds_the_kept_lines
           (join newline ["os"; "flask"; ""; "  Json5 "; "numpy"])).
  reflexivity.
Defined.

Lemma fenced_block_example :
  let quote := String "034" "" in
  let before := "Here is the plan:" +:+ newline in
  let body := "json" +:+ newline +:+ "{" +:+ quote +:+ "steps" +:+ quote +:+ ": []}"
              +:+ newline in
  _clean_json_response (before +:+ fence +:+ body +:+ fence +:+ " Done.")
  = escape false false (strip (after_json body)).
Proof.
  apply fenced_block_is_taken; reflexivity.
Defined.

Lemma cleanup_choice_example :
  (("rename", Some "prod") = ("keep", None) ∨ ("rename", Some "prod") = ("delete", None)
   ∨ ∃ name, ("rename", Some "prod") = ("rename", Some name) ∧ "conda" = "conda"
             ∧ name ≠ "" ∧ strip name = name)
  ∧ (length ["k"] < length ["x"; "R"; " "; "r"; " prod "; "k"])%nat.
Proof.
  apply (cleanup_choice_answers "conda" ["x"; "R"; " "; "r"; " prod "; "k"]).
  reflexivity.
Defined.

(** A revision that was shown and then left without an answer is not
    written, although the phase returns [True]. *)
Lemma revision_left_unsaved_example :
  let revised := JObject [("project_name", JString "demo, with a database")] in
  let r := run_project_definition_iteration_phase
             (λ _ _ e, (Some revised, e))
             {| store := dsk fresh_world;
                typed_ahead := ["n"; "add a database"; "n"; " "];
                provider := () |} in
  r.1 = LeftAsItIs revised
  ∧ Planning.returns r.1 = Some true
  ∧ project_definition (store r.2)
    = Some (JObject [("project_name", JString "demo")]).
Proof. by vm_compute. Qed.

Lemma directive_example :
  let templates : gmap string string :=
    {[ "rules" := "Answer in JSON."; "task" := "unused" ]} in
  _resolve_includes_in_content templates
    ("You are a planner. " +:+ directive "rules" +:+ " Begin.") {[ "main" ]}
  = Resolved ("You are a planner. " +:+ "Answer in JSON." +:+ " Begin.").
Proof.
  apply directive_is_replaced_by_the_template; try reflexivity.
  - discriminate.
  - by intros [=]%elem_of_singleton.
Defined.

(** Three attempts are built and turned down at the manual gate: the step
    ends as aborted, and the accepted code is as it was. *)
Lemma accepted_code_example :
  let start : world unit :=
    {| dsk := with_latest (Some {[ "main.py" := "print('old')" ]})
                (with_successful_steps (insert 7 {[ "main.py" := "print('old')" ]})
                   (dsk fresh_world));
       log := []; ext := () |} in
  let r := @execute_step unit never_parses (reluctant hello)
             1 (task 1 []) ∅ start in
  (r.1 = ("aborted", None)
   ∧ attempts (dsk r.2) !! (1, 3)
     = Some (<[ "user_feedback.txt" := "it prints nothing" ]>
               {[ "main.py" := "print('hello')" ]}))
  ∧ (r.1.1 ≠ "success" →
     latest_successful_code (dsk r.2) = latest_successful_code (dsk start)
     ∧ successful_steps (dsk r.2) = successful_steps (dsk start))
  ∧ ∀ m, m ≠ 1 → successful_steps (dsk r.2) !! m
                 = successful_steps (dsk start) !! m.
Proof.
  intros start r. split.
  - split; vm_compute; reflexivity.
  - apply (@only_an_accepted_attempt_changes_the_code unit never_parses
             (reluctant hello) 1 (task 1 []) ∅ start).
    + by repeat split.
    + intros template n a c fb d e r' [= <-]. by repeat constructor.
Defined.

End MoreExamples.
